(** * Stock Hunter: support levels by fractal lows, clustering and ranking

    A shallow embedding of the request handler [analyze_stock] of
    [main.py] and the properties of its two stages: the level detector
    (fractal scan and 5% clustering) and the plan builder (filter, rank,
    keep three, weights and percentages).

    Numbers.  The handler computes on binary64 values: numpy scalars read
    from a pandas data frame, and Python floats for the weights.  The
    file has two models of them.

    The first is on exact rationals [Q].  It carries the properties that
    rest on comparisons, on counting and on monotone steps: which lows
    the scan keeps, how many candidates a level counts, which levels are
    selected and in which order, which way the percentages and the
    weights move.  Its sums, products and quotients are the mathematical
    ones, and a quotient by zero, which has no rational value, stops with
    [ZeroDivisionError]; neither is what numpy computes, and nothing
    stated on this model is about the digits of a rounded value or about
    a zero divisor.

    The second, module [B64], is on the primitive binary64 numbers of
    Rocq, whose operations are specified by [SpecFloat]: every sum,
    difference, product and quotient is the correctly rounded one, a zero
    divisor gives an infinity or a NaN, [round(x, 2)] on a numpy scalar
    is [rint(x * 100) / 100], and [round(x)] on a Python float is the
    nearest integer with ties to even.  It carries the properties that
    the rounding decides: the tolerance test and the averages of the
    clustering, the weights, the percentages and their rounding, and the
    outcomes of the handler.

    State.  Module [Store] runs lines 68-124 on a heap of Python list
    objects: the lists the handler creates are allocated, appended to,
    sorted and popped in place, and names are rebound as in the source.

    Control.  Every indexed read ([.iloc[i]]) is checked against the length
    of the column and raises [IndexError] outside it, so that "the scan
    never fails" is a theorem about the index arithmetic of the loop and
    not a consequence of the modelling. *)

From Stdlib Require Import Strings.String.
From Stdlib Require Import List Arith ZArith QArith Qround Qabs Qpower.
From Stdlib Require Import Lia Lqa Bool.
From Stdlib Require Import Sorting.Sorted Sorting.Permutation.
From Stdlib Require Floats Uint63.
From Equations Require Import Equations.
Import ListNotations.

Set Implicit Arguments.
#[local] Set Warnings "-inexact-float".
Local Open Scope Q_scope.

(* ------------------------------------------------------------------ *)
(** ** Exceptions and the result monad                                 *)
(* ------------------------------------------------------------------ *)

(** The exceptions the handler can meet. [HTTPException] carries the
    status code of line 59; [ValueError] and [OverflowError] are what
    [round] raises on a NaN and on an infinity. *)
Inductive exn : Type :=
| IndexError
| ZeroDivisionError
| ValueError
| OverflowError
| HTTPException (status_code : Z).

Inductive result (A : Type) : Type :=
| Ok (a : A)
| Raise (e : exn).

Arguments Ok {A} a.
Arguments Raise {A} e.

Definition bind {A B : Type} (c : result A) (k : A -> result B) : result B :=
  match c with
  | Ok a => k a
  | Raise e => Raise e
  end.

Declare Scope result_scope.
Delimit Scope result_scope with result.
Notation "x <- c ;; k" := (bind c (fun x => k))
  (at level 61, c at next level, right associativity) : result_scope.
Local Open Scope result_scope.

(** Python's short-circuit [and] over fallible operands: the right operand
    is evaluated only when the left one is true. *)
Definition and_then (c : result bool) (k : result bool) : result bool :=
  b <- c ;; if b then k else Ok false.

(* ------------------------------------------------------------------ *)
(** ** Comparisons on prices                                           *)
(* ------------------------------------------------------------------ *)

(** [x < y] and [x <= y] as the tests of the source. *)
Definition Qltb (x y : Q) : bool := negb (Qle_bool y x).
Definition Qleb (x y : Q) : bool := Qle_bool x y.

(* ------------------------------------------------------------------ *)
(** ** The fractal-low scan (lines 69-79)                              *)
(* ------------------------------------------------------------------ *)

(** [df['Low'].iloc[i]] for an index [i >= 0]: the value at position [i],
    [IndexError] past the end.  The scan only forms indices [i-2 .. i+2]
    with [i >= 2], so the negative (from-the-end) indices of [iloc] never
    arise. *)
Definition iloc (column : list Q) (i : nat) : result Q :=
  match nth_error column i with
  | Some v => Ok v
  | None => Raise IndexError
  end.

(** [range(a, b)]. *)
Definition range (a b : nat) : list nat := seq a (b - a).

(** The condition of line 75-78, in the order the source reads the
    neighbours: [i-1], [i-2], [i+1], [i+2]. *)
Definition fractal_low (Low : list Q) (i : nat) (low_val : Q) : result bool :=
  and_then (v <- iloc Low (i - 1) ;; Ok (Qltb low_val v))
 (and_then (v <- iloc Low (i - 2) ;; Ok (Qltb low_val v))
 (and_then (v <- iloc Low (i + 1) ;; Ok (Qltb low_val v))
           (v <- iloc Low (i + 2) ;; Ok (Qltb low_val v)))).

(** The body of the [for] loop, threaded over the indices still to visit;
    [levels] is the list the source appends to. *)
Fixpoint scan (Low : list Q) (indices : list nat) (levels : list Q)
  : result (list Q) :=
  match indices with
  | [] => Ok levels
  | i :: rest =>
      low_val <- iloc Low i ;;
      hit <- fractal_low Low i low_val ;;
      scan Low rest (if hit then levels ++ [low_val] else levels)
  end.

(** [levels] after line 79. *)
Definition levels (Low : list Q) : result (list Q) :=
  if (5 <? length Low)%nat
  then scan Low (range 2 (length Low - 2)) []
  else Ok [].

(** The strict five-point test as a proposition: position [i] holds a low
    strictly below the lows two and one places before and after it. *)
Definition strict_local_min (Low : list Q) (i : nat) : Prop :=
  exists v a2 a1 b1 b2,
    nth_error Low i = Some v /\
    nth_error Low (i - 2) = Some a2 /\ nth_error Low (i - 1) = Some a1 /\
    nth_error Low (i + 1) = Some b1 /\ nth_error Low (i + 2) = Some b2 /\
    v < a2 /\ v < a1 /\ v < b1 /\ v < b2.

(** The same test, decided; it reads the column with a default and is
    used only inside the margin, where every read is in range. *)
Definition strict_local_minb (Low : list Q) (i : nat) : bool :=
  let at_ (k : nat) := nth k Low 0 in
  Qltb (at_ i) (at_ (i - 1)%nat) && Qltb (at_ i) (at_ (i - 2)%nat) &&
  Qltb (at_ i) (at_ (i + 1)%nat) && Qltb (at_ i) (at_ (i + 2)%nat).

(** The candidate positions in the words of the specification: the
    indices of the margin [[2, len-3]], in increasing order, that pass the
    strict test. *)
Definition fractal_indices (Low : list Q) : list nat :=
  filter (strict_local_minb Low) (seq 2 (length Low - 4)).

(* ------------------------------------------------------------------ *)
(** ** Sorting                                                         *)
(* ------------------------------------------------------------------ *)

(** [list.sort] is a stable sort that compares with [<] only.  On keys
    that [<] orders totally its result is determined by stability, so it
    is modelled by the stable insertion sort: an element is placed before
    the first element that is not smaller than it. *)
Section Sort.
Variable A : Type.
Variable lt : A -> A -> bool.

Fixpoint insert (x : A) (l : list A) : list A :=
  match l with
  | [] => [x]
  | y :: l' => if lt y x then y :: insert x l' else x :: y :: l'
  end.

Definition sort (l : list A) : list A := fold_right insert [] l.

(** [l.sort(reverse=True)]: the list is reversed, sorted and reversed
    again, which keeps equal keys in their original order. *)
Definition sort_reverse (l : list A) : list A := rev (sort (rev l)).
End Sort.

(* ------------------------------------------------------------------ *)
(** ** Clustering (lines 81-96)                                        *)
(* ------------------------------------------------------------------ *)

(** A consolidated level: the tuple [(average, strength)] of line 96. *)
Definition Level : Type := (Q * nat)%type.

Definition sum (group : list Q) : Q := fold_left Qplus group 0.

Definition of_nat (n : nat) : Q := inject_Z (Z.of_nat n).

(** [x / y] in exact arithmetic: the quotient, and no value on a zero
    divisor.  The binary64 quotient, which has one, is in [B64]. *)
Definition truediv (x y : Q) : result Q :=
  if Qeq_bool y 0 then Raise ZeroDivisionError else Ok (x / y).

(** The tolerance test of line 90 with the exact product. *)
Definition within (base x : Q) : bool := Qleb x (base * (105 # 100)).

(** The [while levels:] loop.  One iteration pops [base], sends every
    remaining [x] to [group] or to [keep] in the order met, and appends
    the pair of line 96; the recursive call is the next iteration on
    [keep], which is shorter than the list it came from. *)
Equations while_levels (levels : list Q) : result (list Level)
  by wf (length levels) lt :=
while_levels [] := Ok [];
while_levels (base :: levels) :=
  let group := base :: filter (within base) levels in
  let keep := filter (fun x => negb (within base x)) levels in
  average <- truediv (sum group) (of_nat (length group)) ;;
  consolidated <- while_levels keep ;;
  Ok ((average, length group) :: consolidated).
Next Obligation.
  apply Nat.lt_succ_r, filter_length_le.
Qed.

(** [consolidated] after line 96. *)
Definition consolidated (levels : list Q) : result (list Level) :=
  match levels with
  | [] => Ok []
  | _ => while_levels (sort Qltb levels)
  end.

(** The groups the loop forms, kept as lists: the same iteration without
    the summary of line 96. *)
Equations clusters (levels : list Q) : list (list Q)
  by wf (length levels) lt :=
clusters [] := [];
clusters (base :: levels) :=
  (base :: filter (within base) levels)
    :: clusters (filter (fun x => negb (within base x)) levels).
Next Obligation.
  apply Nat.lt_succ_r, filter_length_le.
Qed.

(** What one group looks like: an anchor, then values between the anchor
    and the anchor plus five per cent. *)
Definition anchored (g : list Q) : Prop :=
  exists anchor rest,
    g = anchor :: rest /\
    forall x, In x rest -> anchor <= x /\ x <= anchor * (105 # 100).

(** What a group leaves behind: values not below its anchor and above
    the anchor plus five per cent. *)
Definition leaves_behind (g later : list Q) : Prop :=
  forall anchor, hd_error g = Some anchor ->
  forall x, In x later -> anchor <= x /\ anchor * (105 # 100) < x.

(** The summary of one group: its mean and its size. *)
Definition summary (group : list Q) : Level :=
  (sum group / of_nat (length group), length group).

(** The level detector: scan, then cluster. *)
Definition detect_levels (Low : list Q) : result (list Level) :=
  candidates <- levels Low ;; consolidated candidates.

(* ------------------------------------------------------------------ *)
(** ** Rounding                                                        *)
(* ------------------------------------------------------------------ *)

(** [round(x)]: the nearest integer, a tie going to the even one. *)
Definition round (x : Q) : Z :=
  let f := Qfloor x in
  match Qcompare (x - inject_Z f) (1 # 2) with
  | Lt => f
  | Gt => (f + 1)%Z
  | Eq => if Z.even f then f else (f + 1)%Z
  end.

(** [round(x, 2)] in exact arithmetic: the nearest multiple of one
    hundredth, a tie going to the even one. *)
Definition round2 (x : Q) : Q := inject_Z (round (x * 100)) / 100.

(* ------------------------------------------------------------------ *)
(** ** The plan builder (lines 98-124)                                 *)
(* ------------------------------------------------------------------ *)

Record BuyLevel : Type := {
  order : nat;
  price : Q;
  weight_percent : Z;
  discount_from_high_pct : Q;
  gap_from_current_pct : Q
}.

(** The two values of [status_msg].  The source writes the first in Thai
    ("the current price is the lowest in five years, or no support was
    found") and the second as "Found Strategic Levels". *)
Inductive Status : Type :=
| NoSupportFound
| FoundStrategicLevels.

Definition status_text (s : Status) : string :=
  match s with
  | NoSupportFound => "ราคาปัจจุบันต่ำที่สุดในรอบ 5 ปี หรือไม่พบแนวรับ"
  | FoundStrategicLevels => "Found Strategic Levels"
  end.

(** Line 99. *)
Definition waiting (consolidated : list Level) (current_price : Q)
  : list Level :=
  filter (fun l => Qltb (fst l) current_price) consolidated.

(** Line 100: by average, highest first. *)
Definition by_price_desc (w : list Level) : list Level :=
  sort_reverse (fun a b => Qltb (fst a) (fst b)) w.

(** Line 101. *)
Definition top_3 (consolidated : list Level) (current_price : Q)
  : list Level :=
  firstn 3 (by_price_desc (waiting consolidated current_price)).

(** Line 109. *)
Definition total_strength (top : list Level) : nat :=
  fold_left Nat.add (map snd top) 0%nat.

(** [count / total_strength] on integers, as an exact fraction. *)
Definition int_truediv (a b : nat) : result Q :=
  if (b =? 0)%nat then Raise ZeroDivisionError else Ok (of_nat a / of_nat b).

(** One pass of the loop of line 111 for the pair at position [i]. *)
Definition buy_level (current_price one_year_high : Q) (total : nat)
  (i : nat) (l : Level) : result BuyLevel :=
  let '(price, count) := l in
  share <- int_truediv count total ;;
  let weight := round (share * 100) in
  d <- truediv (one_year_high - price) one_year_high ;;
  let discount_pct := d * 100 in
  g <- truediv (current_price - price) current_price ;;
  let gap := g * 100 in
  Ok {| order := i + 1;
        price := round2 price;
        weight_percent := weight;
        discount_from_high_pct := round2 discount_pct;
        gap_from_current_pct := round2 gap |}.

(** The entry one pass builds when none of its three quotients fails. *)
Definition entry (current_price one_year_high : Q) (total : nat)
  (il : nat * Level) : BuyLevel :=
  let '(i, (price, count)) := il in
  {| order := i + 1;
     price := round2 price;
     weight_percent := round (of_nat count / of_nat total * 100);
     discount_from_high_pct :=
       round2 ((one_year_high - price) / one_year_high * 100);
     gap_from_current_pct :=
       round2 ((current_price - price) / current_price * 100) |}.

(** [enumerate(l)]. *)
Definition enumerate (A : Type) (l : list A) : list (nat * A) :=
  combine (seq 0 (length l)) l.

(** The loop of line 111 over the pairs still to visit;
    [strategic_plan] is the list the source appends to. *)
Fixpoint plan_loop (current_price one_year_high : Q) (total : nat)
  (items : list (nat * Level)) (strategic_plan : list BuyLevel)
  : result (list BuyLevel) :=
  match items with
  | [] => Ok strategic_plan
  | (i, l) :: rest =>
      b <- buy_level current_price one_year_high total i l ;;
      plan_loop current_price one_year_high total rest
        (strategic_plan ++ [b])
  end.

(** Lines 98-124: the status and the plan from the consolidated levels. *)
Definition build_plan (consolidated : list Level)
  (current_price one_year_high : Q) : result (Status * list BuyLevel) :=
  let top := top_3 consolidated current_price in
  match top with
  | [] => Ok (NoSupportFound, [])
  | _ =>
      plan <- plan_loop current_price one_year_high (total_strength top)
                (enumerate top) [] ;;
      Ok (FoundStrategicLevels, plan)
  end.

(** The sum of the weights of a plan. *)
Definition total_weight (plan : list BuyLevel) : Z :=
  fold_right Z.add 0%Z (map weight_percent plan).

(** The plan of the worked example of the specification: levels at 90,
    70 and 95 of strengths 3, 1 and 2, a current price of 100 and a year
    high of 120. *)
Definition example_levels : list Level :=
  [(90, 3%nat); (70, 1%nat); (95, 2%nat)].

Definition example_plan : list BuyLevel :=
  [ {| order := 1; price := 9500 # 100; weight_percent := 33;
       discount_from_high_pct := 2083 # 100;
       gap_from_current_pct := 500 # 100 |};
    {| order := 2; price := 9000 # 100; weight_percent := 50;
       discount_from_high_pct := 2500 # 100;
       gap_from_current_pct := 1000 # 100 |};
    {| order := 3; price := 7000 # 100; weight_percent := 17;
       discount_from_high_pct := 4167 # 100;
       gap_from_current_pct := 3000 # 100 |} ].


(** Two levels with the same average, as numbers, and the same
    strength. *)
Definition same_level (a b : Level) : Prop :=
  fst a == fst b /\ snd a = snd b.

(** Lines 68-124: detection followed by plan building. *)
Definition strategic_levels (Low : list Q) (current_price one_year_high : Q)
  : result (Status * list BuyLevel) :=
  consolidated <- detect_levels Low ;;
  build_plan consolidated current_price one_year_high.

(* ------------------------------------------------------------------ *)
(** ** The handler (lines 56-66 and 126-135)                           *)
(* ------------------------------------------------------------------ *)

(** One weekly row of the frame. *)
Record Row : Type := { High : Q; Low : Q; Close : Q }.

(** The part of the response the handler computes from the frame; the
    symbol, the company name and the date come from the request, the data
    provider and the clock. *)
Record StockAnalysisResponse : Type := {
  current_price : Q;
  year_high : Q;
  year_low : Q;
  status : Status;
  strategic_plan : list BuyLevel
}.

(** [df.tail(n)]. *)
Definition tail (n : nat) (A : Type) (df : list A) : list A :=
  skipn (length df - n) df.

Definition Qmax (x y : Q) : Q := if Qltb x y then y else x.
Definition Qmin (x y : Q) : Q := if Qltb y x then y else x.

Definition analyze_stock (df : list Row) : result StockAnalysisResponse :=
  match rev df with
  | [] => Raise (HTTPException 404)
  | last :: _ =>
      let current_price := Close last in
      let one_year_df := tail 52 df in
      let one_year_high :=
        fold_left Qmax (map High one_year_df) (High last) in
      let one_year_low :=
        fold_left Qmin (map Low one_year_df) (Low last) in
      r <- strategic_levels (map Low df) current_price one_year_high ;;
      Ok {| current_price := round2 current_price;
            year_high := round2 one_year_high;
            year_low := round2 one_year_low;
            status := fst r;
            strategic_plan := snd r |}
  end.

(** A frame of nine weeks whose lows dip to 8 twice, and the response
    the handler gives on it. *)
Definition example_rows : list Row :=
  [ {| High := 12; Low := 10; Close := 11 |};
    {| High := 11; Low := 9; Close := 10 |};
    {| High := 10; Low := 8; Close := 9 |};
    {| High := 11; Low := 9; Close := 10 |};
    {| High := 12; Low := 10; Close := 11 |};
    {| High := 11; Low := 9; Close := 10 |};
    {| High := 10; Low := 8; Close := 9 |};
    {| High := 11; Low := 9; Close := 10 |} ].

Definition example_last : Row := {| High := 12; Low := 10; Close := 11 |}.

Definition example_response : StockAnalysisResponse :=
  {| current_price := 1100 # 100;
     year_high := 1200 # 100;
     year_low := 800 # 100;
     status := FoundStrategicLevels;
     strategic_plan :=
       [ {| order := 1; price := 800 # 100; weight_percent := 100;
            discount_from_high_pct := 3333 # 100;
            gap_from_current_pct := 2727 # 100 |} ] |}.

(* ================================================================== *)
(** * The same stages on binary64 numbers                              *)
(* ================================================================== *)

(** The handler as it is executed: every price is a binary64 number and
    every sum, product and quotient is the correctly rounded one.  The
    model above, on exact rationals, is kept for the properties that rest
    on comparisons and monotone steps only; what follows is used where the
    rounding of the arithmetic decides the statement. *)
Module B64.
Import PrimFloat.
#[local] Set Warnings "-inexact-float".
Local Open Scope float_scope.

(** [df['Low'].iloc[i]] on a column of floats. *)
Definition iloc (column : list float) (i : nat) : result float :=
  match nth_error column i with
  | Some v => Ok v
  | None => Raise IndexError
  end.

(** The condition of lines 75-78. *)
Definition fractal_low (Low : list float) (i : nat) (low_val : float)
  : result bool :=
  and_then (v <- iloc Low (i - 1) ;; Ok (low_val <? v))
 (and_then (v <- iloc Low (i - 2) ;; Ok (low_val <? v))
 (and_then (v <- iloc Low (i + 1) ;; Ok (low_val <? v))
           (v <- iloc Low (i + 2) ;; Ok (low_val <? v)))).

(** The [for] loop of line 72. *)
Fixpoint scan (Low : list float) (indices : list nat) (levels : list float)
  : result (list float) :=
  match indices with
  | [] => Ok levels
  | i :: rest =>
      low_val <- iloc Low i ;;
      hit <- fractal_low Low i low_val ;;
      scan Low rest (if hit then levels ++ [low_val] else levels)
  end.

(** [levels] after line 79. *)
Definition levels (Low : list float) : result (list float) :=
  if (5 <? length Low)%nat
  then scan Low (range 2 (length Low - 2)) []
  else Ok [].

(** A consolidated level: the tuple [(average, strength)] of line 96. *)
Definition Level : Type := (float * nat)%type.

(** [len(group)], a Python integer, as the float it is converted to when
    it divides one; the conversion is exact below [2^53]. *)
Definition of_nat (n : nat) : float := of_uint63 (Uint63.of_Z (Z.of_nat n)).

(** [sum(group)]: the integer [0], then the values added from the left. *)
Definition sum (group : list float) : float := fold_left add group 0.

(** The tolerance test of line 90: [1.05] is the binary64 number nearest
    to it and the product is rounded. *)
Definition within (base x : float) : bool := x <=? base * 1.05.

(** The [while levels:] loop. *)
Equations while_levels (levels : list float) : list Level
  by wf (length levels) lt :=
while_levels [] := [];
while_levels (base :: levels) :=
  let group := base :: filter (within base) levels in
  let keep := filter (fun x => negb (within base x)) levels in
  (sum group / of_nat (length group), length group) :: while_levels keep.
Next Obligation.
  apply Nat.lt_succ_r, filter_length_le.
Qed.

(** [consolidated] after line 96. *)
Definition consolidated (levels : list float) : list Level :=
  match levels with
  | [] => []
  | _ => while_levels (sort ltb levels)
  end.

(** The groups the loop forms, kept as lists. *)
Equations clusters (levels : list float) : list (list float)
  by wf (length levels) lt :=
clusters [] := [];
clusters (base :: levels) :=
  (base :: filter (within base) levels)
    :: clusters (filter (fun x => negb (within base x)) levels).
Next Obligation.
  apply Nat.lt_succ_r, filter_length_le.
Qed.

(** [x <= y] as the source tests it. *)
Definition fle (x y : float) : Prop := (x <=? y) = true.

(** A group: an anchor, then values from the anchor up to the rounded
    product [anchor * 1.05]. *)
Definition anchored (g : list float) : Prop :=
  exists anchor rest,
    g = anchor :: rest /\
    forall x, In x rest -> fle anchor x /\ fle x (anchor * 1.05).

(** What a group leaves behind: values not below its anchor that fail
    the test of line 90. *)
Definition leaves_behind (g later : list float) : Prop :=
  forall anchor, hd_error g = Some anchor ->
  forall x, In x later -> fle anchor x /\ (x <=? anchor * 1.05) = false.

(** The level detector. *)
Definition detect_levels (Low : list float) : result (list Level) :=
  candidates <- levels Low ;; Ok (consolidated candidates).

(** The exact value of a finite float. *)
Definition value (x : float) : option Q :=
  match FloatOps.Prim2SF x with
  | SpecFloat.S754_zero _ => Some 0%Q
  | SpecFloat.S754_finite s m e =>
      Some (inject_Z (if s then Z.neg m else Z.pos m) * 2 ^ e)%Q
  | _ => None
  end.

(** The float of an integer given by sign and magnitude; exact below
    [2^53]. *)
Definition of_int (negative : bool) (n : Z) : float :=
  let f := of_uint63 (Uint63.of_Z n) in if negative then - f else f.

(** [rint]: the nearest integer as a float, a tie going to the even one;
    integers, infinities and NaN are returned as they are, and a zero
    result keeps the sign of the argument. *)
Definition rint (x : float) : float :=
  match FloatOps.Prim2SF x, value x with
  | SpecFloat.S754_finite s _ e, Some q =>
      if (0 <=? e)%Z then x else of_int s (Z.abs (round q))
  | _, _ => x
  end.

(** [round(x, 2)] on a numpy scalar: scale, [rint], scale back. *)
Definition round2 (x : float) : float := rint (x * 100) / 100.

(** [round(x)] on a Python float: the nearest integer, a tie going to
    the even one; infinities and NaN have none. *)
Definition py_round (x : float) : result Z :=
  match FloatOps.Prim2SF x, value x with
  | SpecFloat.S754_nan, _ => Raise ValueError
  | _, Some q => Ok (round q)
  | _, None => Raise OverflowError
  end.

Record BuyLevel : Type := {
  order : nat;
  price : float;
  weight_percent : Z;
  discount_from_high_pct : float;
  gap_from_current_pct : float
}.

(** Line 99. *)
Definition waiting (consolidated : list Level) (current_price : float)
  : list Level :=
  filter (fun l => fst l <? current_price) consolidated.

(** Line 100. *)
Definition by_price_desc (w : list Level) : list Level :=
  sort_reverse (fun a b => fst a <? fst b) w.

(** Line 101. *)
Definition top_3 (consolidated : list Level) (current_price : float)
  : list Level :=
  firstn 3 (by_price_desc (waiting consolidated current_price)).

(** Line 109. *)
Definition total_strength (top : list Level) : nat :=
  fold_left Nat.add (map snd top) 0%nat.

(** [count / total_strength] on Python integers: the correctly rounded
    quotient, [ZeroDivisionError] on a zero divisor. *)
Definition int_truediv (a b : nat) : result float :=
  if (b =? 0)%nat then Raise ZeroDivisionError
  else Ok (of_nat a / of_nat b).

(** One pass of the loop of line 111.  The quotients of lines 115-116
    are on numpy scalars: a zero divisor gives an infinity or a NaN and
    the pass goes on. *)
Definition buy_level (current_price one_year_high : float) (total : nat)
  (i : nat) (l : Level) : result BuyLevel :=
  let '(price, count) := l in
  share <- int_truediv count total ;;
  weight <- py_round (share * 100) ;;
  let discount_pct := ((one_year_high - price) / one_year_high) * 100 in
  let gap := ((current_price - price) / current_price) * 100 in
  Ok {| order := i + 1;
        price := round2 price;
        weight_percent := weight;
        discount_from_high_pct := round2 discount_pct;
        gap_from_current_pct := round2 gap |}.

Fixpoint plan_loop (current_price one_year_high : float) (total : nat)
  (items : list (nat * Level)) (strategic_plan : list BuyLevel)
  : result (list BuyLevel) :=
  match items with
  | [] => Ok strategic_plan
  | (i, l) :: rest =>
      b <- buy_level current_price one_year_high total i l ;;
      plan_loop current_price one_year_high total rest
        (strategic_plan ++ [b])
  end.

(** Lines 98-124. *)
Definition build_plan (consolidated : list Level)
  (current_price one_year_high : float)
  : result (Status * list BuyLevel) :=
  let top := top_3 consolidated current_price in
  match top with
  | [] => Ok (NoSupportFound, [])
  | _ =>
      plan <- plan_loop current_price one_year_high (total_strength top)
                (enumerate top) [] ;;
      Ok (FoundStrategicLevels, plan)
  end.

(** The sum of the weights of a plan. *)
Definition total_weight (plan : list BuyLevel) : Z :=
  fold_right Z.add 0%Z (map weight_percent plan).

(** Two levels whose strengths, 23 and 17 of 40, give the products
    [57.49999999999999] and [42.5], and the plan built from them at a
    current price of 100 and a year high of 120. *)
Definition uneven_levels : list Level := [(95, 23%nat); (90, 17%nat)].

Definition uneven_plan : list BuyLevel :=
  [ {| order := 1; price := 95; weight_percent := 57;
       discount_from_high_pct := 20.83; gap_from_current_pct := 5 |};
    {| order := 2; price := 90; weight_percent := 42;
       discount_from_high_pct := 25; gap_from_current_pct := 10 |} ].

(** Lines 68-124. *)
Definition strategic_levels (Low : list float)
  (current_price one_year_high : float)
  : result (Status * list BuyLevel) :=
  consolidated <- detect_levels Low ;;
  build_plan consolidated current_price one_year_high.

(** One weekly row of the frame. *)
Record Row : Type := { High : float; Low : float; Close : float }.

Record StockAnalysisResponse : Type := {
  current_price : float;
  year_high : float;
  year_low : float;
  status : Status;
  strategic_plan : list BuyLevel
}.

Definition fmax (x y : float) : float := if x <? y then y else x.
Definition fmin (x y : float) : float := if y <? x then y else x.

(** The handler on a frame without missing values. *)
Definition analyze_stock (df : list Row) : result StockAnalysisResponse :=
  match rev df with
  | [] => Raise (HTTPException 404)
  | last :: _ =>
      let current_price := Close last in
      let one_year_df := tail 52 df in
      let one_year_high :=
        fold_left fmax (map High one_year_df) (High last) in
      let one_year_low :=
        fold_left fmin (map Low one_year_df) (Low last) in
      r <- strategic_levels (map Low df) current_price one_year_high ;;
      Ok {| current_price := round2 current_price;
            year_high := round2 one_year_high;
            year_low := round2 one_year_low;
            status := fst r;
            strategic_plan := snd r |}
  end.

(** A frame of nine weeks whose lows dip to 8 twice, and the response
    the handler gives on it. *)
Definition example_rows : list Row :=
  [ {| High := 12; Low := 10; Close := 11 |};
    {| High := 11; Low := 9; Close := 10 |};
    {| High := 10; Low := 8; Close := 9 |};
    {| High := 11; Low := 9; Close := 10 |};
    {| High := 12; Low := 10; Close := 11 |};
    {| High := 11; Low := 9; Close := 10 |};
    {| High := 10; Low := 8; Close := 9 |};
    {| High := 11; Low := 9; Close := 10 |} ].

Definition example_last : Row := {| High := 12; Low := 10; Close := 11 |}.

Definition example_response : StockAnalysisResponse :=
  {| current_price := 11;
     year_high := 12;
     year_low := 8;
     status := FoundStrategicLevels;
     strategic_plan :=
       [ {| order := 1; price := 8; weight_percent := 100;
            discount_from_high_pct := 33.33;
            gap_from_current_pct := 27.27 |} ] |}.

(** *** The order of binary64 numbers *)

(** A key that orders the numbers as [SFcompare] does: the class first,
    then exponent and mantissa, reversed for the negative ones. *)
Definition key (f : SpecFloat.spec_float) : Z * Z * Z :=
  match f with
  | SpecFloat.S754_zero _ => (0, 0, 0)%Z
  | SpecFloat.S754_infinity s => (if s then -2 else 2, 0, 0)%Z
  | SpecFloat.S754_nan => (0, 0, 0)%Z
  | SpecFloat.S754_finite s m e =>
      if s then (-1, - e, Z.neg m)%Z else (1, e, Z.pos m)%Z
  end.

Definition lex (a b : Z * Z * Z) : comparison :=
  let '(a1, a2, a3) := a in
  let '(b1, b2, b3) := b in
  match (a1 ?= b1)%Z with
  | Eq => match (a2 ?= b2)%Z with
          | Eq => (a3 ?= b3)%Z
          | c => c
          end
  | c => c
  end.

(** [x] is a number: finite or infinite, not a NaN. *)
Definition number (x : float) : Prop :=
  FloatOps.Prim2SF x <> SpecFloat.S754_nan.
End B64.

(* ================================================================== *)
(** * Lines 68-124 on a heap of list objects                           *)
(* ================================================================== *)

(** The lists of the handler are Python objects: [append], [sort] and
    [pop] change the object a name is bound to, and an assignment binds a
    name to another object.  Here the objects live in a heap, a name is a
    reference into it, and a statement is a function from the heap
    before to the outcome and the heap after.  A run starts in any heap:
    what it holds besides the column of lows stands for whatever earlier
    requests left behind. *)
Module Store.
Import PrimFloat B64.
Local Open Scope float_scope.

(** The list objects the handler works on, by the type of their items:
    lows, [(average, strength)] tuples, and [BuyLevel] entries. *)
Inductive object : Type :=
| FloatList (items : list float)
| LevelList (items : list Level)
| PlanList (items : list BuyLevel).

Definition heap : Type := list object.
Definition ref : Type := nat.

(** A statement returns with a value and a heap, raises a Python
    exception, or is stuck: a name bound to no object or to an object of
    another type, or a loop out of its budget of iterations. *)
Inductive outcome (A : Type) : Type :=
| Done (a : A) (h : heap)
| Fault (e : exn)
| Stuck.

Arguments Done {A} a h.
Arguments Fault {A} e.
Arguments Stuck {A}.

Definition M (A : Type) : Type := heap -> outcome A.

Definition ret {A : Type} (a : A) : M A := fun h => Done a h.

Definition bindS {A B : Type} (c : M A) (k : A -> M B) : M B :=
  fun h =>
    match c h with
    | Done a h' => k a h'
    | Fault e => Fault e
    | Stuck => Stuck
    end.

Definition raise {A : Type} (e : exn) : M A := fun _ => Fault e.
Definition stuck {A : Type} : M A := fun _ => Stuck.

(** A computation that does not touch the heap. *)
Definition lift {A : Type} (c : result A) : M A :=
  match c with
  | Ok a => ret a
  | Raise e => raise e
  end.

Declare Scope store_scope.
Delimit Scope store_scope with store.
Notation "x <- c ;; k" := (bindS c (fun x => k))
  (at level 61, c at next level, right associativity) : store_scope.
Local Open Scope store_scope.

(** A new object, at the first free address. *)
Definition alloc (o : object) : M ref :=
  fun h => Done (length h) (h ++ [o]).

Definition load (r : ref) : M object :=
  fun h =>
    match nth_error h r with
    | Some o => Done o h
    | None => Stuck
    end.

Fixpoint update (h : heap) (r : ref) (o : object) {struct h} : heap :=
  match h, r with
  | [], _ => []
  | _ :: t, O => o :: t
  | x :: t, S r' => x :: update t r' o
  end.

(** The object at [r] replaced, in place. *)
Definition store (r : ref) (o : object) : M unit :=
  fun h => if (r <? length h)%nat then Done tt (update h r o) else Stuck.

Definition floats (r : ref) : M (list float) :=
  o <- load r ;;
  match o with
  | FloatList l => ret l
  | _ => stuck
  end.

Definition levels_of (r : ref) : M (list Level) :=
  o <- load r ;;
  match o with
  | LevelList l => ret l
  | _ => stuck
  end.

Definition plan_of (r : ref) : M (list BuyLevel) :=
  o <- load r ;;
  match o with
  | PlanList l => ret l
  | _ => stuck
  end.

(** [l.append(x)], [l.sort()] and [l.pop(0)] on a list of floats. *)
Definition append_float (r : ref) (x : float) : M unit :=
  l <- floats r ;; store r (FloatList (l ++ [x])).

Definition sort_floats (r : ref) : M unit :=
  l <- floats r ;; store r (FloatList (sort ltb l)).

Definition pop_first (r : ref) : M float :=
  l <- floats r ;;
  match l with
  | [] => raise IndexError
  | x :: rest => done <- store r (FloatList rest) ;; ret x
  end.

(** [l.append(x)] and [l.sort(key=..., reverse=True)] on a list of
    levels, [l.append(b)] on the plan. *)
Definition append_level (r : ref) (x : Level) : M unit :=
  l <- levels_of r ;; store r (LevelList (l ++ [x])).

Definition sort_levels_desc (r : ref) : M unit :=
  l <- levels_of r ;; store r (LevelList (by_price_desc l)).

Definition append_entry (r : ref) (b : BuyLevel) : M unit :=
  l <- plan_of r ;; store r (PlanList (l ++ [b])).

(** The [for] loop of line 72: the column is read through its reference
    at every pass. *)
Fixpoint for_scan (df_low levels : ref) (indices : list nat) : M unit :=
  match indices with
  | [] => ret tt
  | i :: rest =>
      column <- floats df_low ;;
      low_val <- lift (iloc column i) ;;
      hit <- lift (fractal_low column i low_val) ;;
      done <- (if hit then append_float levels low_val else ret tt) ;;
      for_scan df_low levels rest
  end.

(** The [for x in levels] loop of line 89. *)
Fixpoint for_partition (base : float) (group keep : ref) (xs : list float)
  : M unit :=
  match xs with
  | [] => ret tt
  | x :: rest =>
      done <- (if x <=? base * 1.05
               then append_float group x
               else append_float keep x) ;;
      for_partition base group keep rest
  end.

(** The [while levels:] loop of line 85.  [levels] is the object the
    name is bound to at the test; line 93 binds the name to [keep], which
    the next iteration receives.  [budget] bounds the iterations. *)
Fixpoint while_levels (budget : nat) (levels consolidated : ref) : M unit :=
  remaining <- floats levels ;;
  match remaining, budget with
  | [], _ => ret tt
  | _, O => stuck
  | _, S budget' =>
      base <- pop_first levels ;;
      group <- alloc (FloatList [base]) ;;
      keep <- alloc (FloatList []) ;;
      xs <- floats levels ;;
      done <- for_partition base group keep xs ;;
      g <- floats group ;;
      done' <- append_level consolidated
                 (sum g / of_nat (length g), length g) ;;
      while_levels budget' keep consolidated
  end.

(** The loop of line 111. *)
Fixpoint for_plan (current_price one_year_high : float) (total : nat)
  (items : list (nat * Level)) (strategic_plan : ref) : M unit :=
  match items with
  | [] => ret tt
  | (i, l) :: rest =>
      b <- lift (buy_level current_price one_year_high total i l) ;;
      done <- append_entry strategic_plan b ;;
      for_plan current_price one_year_high total rest strategic_plan
  end.

(** Lines 68-124, with the column [df['Low']] at [df_low]. *)
Definition analysis (df_low : ref) (current_price one_year_high : float)
  : M (Status * list BuyLevel) :=
  column <- floats df_low ;;
  levels <- alloc (FloatList []) ;;
  scanned <- (if (5 <? length column)%nat
              then for_scan df_low levels (range 2 (length column - 2))
              else ret tt) ;;
  consolidated <- alloc (LevelList []) ;;
  found <- floats levels ;;
  grouped <- match found with
             | [] => ret tt
             | _ => sorted <- sort_floats levels ;;
                    while_levels (length found) levels consolidated
             end ;;
  all <- levels_of consolidated ;;
  waiting <- alloc (LevelList (filter (fun l => fst l <? current_price) all)) ;;
  sorted <- sort_levels_desc waiting ;;
  ranked <- levels_of waiting ;;
  top_3 <- alloc (LevelList (firstn 3 ranked)) ;;
  strategic_plan <- alloc (PlanList []) ;;
  top <- levels_of top_3 ;;
  status_msg <- match top with
                | [] => ret NoSupportFound
                | _ =>
                    built <- for_plan current_price one_year_high
                               (total_strength top) (enumerate top)
                               strategic_plan ;;
                    ret FoundStrategicLevels
                end ;;
  plan <- plan_of strategic_plan ;;
  ret (status_msg, plan).

(** Every object of [h] is in [h'], at the same address and with the
    same items. *)
Definition unchanged (h h' : heap) : Prop :=
  forall r o, nth_error h r = Some o -> nth_error h' r = Some o.
End Store.

(* ================================================================== *)
(** * Properties of the stages in exact arithmetic                     *)
(* ================================================================== *)

(* ------------------------------------------------------------------ *)
(** ** Comparisons                                                     *)
(* ------------------------------------------------------------------ *)

Lemma Qltb_lt (x y : Q) : Qltb x y = true <-> x < y.
Proof.
  unfold Qltb. rewrite negb_true_iff, <- not_true_iff_false, Qle_bool_iff.
  split; [apply Qnot_le_lt | apply Qlt_not_le].
Qed.

Lemma Qltb_ge (x y : Q) : Qltb x y = false <-> y <= x.
Proof.
  unfold Qltb. rewrite negb_false_iff. apply Qle_bool_iff.
Qed.

Lemma Qleb_le (x y : Q) : Qleb x y = true <-> x <= y.
Proof. apply Qle_bool_iff. Qed.

Lemma Qleb_gt (x y : Q) : Qleb x y = false <-> y < x.
Proof.
  unfold Qleb. rewrite <- not_true_iff_false, Qle_bool_iff.
  split; [apply Qnot_le_lt | apply Qlt_not_le].
Qed.

(* ------------------------------------------------------------------ *)
(** ** The scan                                                        *)
(* ------------------------------------------------------------------ *)

Lemma iloc_in_range (column : list Q) (i : nat) :
  (i < length column)%nat -> iloc column i = Ok (nth i column 0).
Proof.
  intros Hi. unfold iloc.
  rewrite (nth_error_nth' column 0 Hi). reflexivity.
Qed.

(** Inside the margin the four neighbours exist, so the test of the loop
    raises nothing and decides the strict five-point test. *)
Lemma fractal_low_in_margin (Low : list Q) (i : nat) :
  (2 <= i)%nat -> (i + 2 < length Low)%nat ->
  fractal_low Low i (nth i Low 0) = Ok (strict_local_minb Low i).
Proof.
  intros H2 Hlen. unfold fractal_low, strict_local_minb, and_then.
  rewrite !iloc_in_range by lia. cbn [bind].
  destruct (Qltb (nth i Low 0) (nth (i - 1) Low 0)); cbn [andb]; [|reflexivity].
  destruct (Qltb (nth i Low 0) (nth (i - 2) Low 0)); cbn [andb]; [|reflexivity].
  destruct (Qltb (nth i Low 0) (nth (i + 1) Low 0)); cbn [andb]; reflexivity.
Qed.

Lemma scan_in_margin (Low : list Q) (indices : list nat) :
  Forall (fun i => 2 <= i /\ i + 2 < length Low)%nat indices ->
  forall acc,
    scan Low indices acc =
    Ok (acc ++ map (fun i => nth i Low 0)
                   (filter (strict_local_minb Low) indices)).
Proof.
  induction 1 as [|i rest [H2 Hlen] _ IH]; intros acc; cbn [scan filter map].
  - now rewrite app_nil_r.
  - rewrite iloc_in_range by lia. cbn [bind].
    rewrite fractal_low_in_margin by assumption. cbn [bind].
    rewrite IH. destruct (strict_local_minb Low i); cbn [map].
    + now rewrite <- app_assoc.
    + reflexivity.
Qed.

Lemma range_margin (Low : list Q) :
  (5 < length Low)%nat ->
  range 2 (length Low - 2) = seq 2 (length Low - 4) /\
  Forall (fun i => 2 <= i /\ i + 2 < length Low)%nat
         (seq 2 (length Low - 4)).
Proof.
  intros Hlen. split.
  - unfold range. f_equal. lia.
  - apply Forall_forall. intros i Hi. apply in_seq in Hi. lia.
Qed.

Lemma levels_fractal_indices (Low : list Q) :
  (5 < length Low)%nat ->
  levels Low = Ok (map (fun i => nth i Low 0) (fractal_indices Low)).
Proof.
  intros Hlen. unfold levels, fractal_indices.
  apply Nat.ltb_lt in Hlen as Hb. rewrite Hb.
  destruct (range_margin Low Hlen) as [-> Hall].
  now rewrite scan_in_margin.
Qed.

Lemma fractal_scan_margin_aux (Low : list Q) :
  (5 < length Low)%nat ->
  levels Low = Ok (map (fun i => nth i Low 0) (fractal_indices Low)) /\
  forall x, In x (map (fun i => nth i Low 0) (fractal_indices Low)) ->
            In x Low.
Proof.
  intros Hlen. split; [now apply levels_fractal_indices|].
  intros x Hx. apply in_map_iff in Hx as (i & <- & Hi).
  unfold fractal_indices in Hi. apply filter_In in Hi as [Hi _].
  apply in_seq in Hi. apply nth_In. lia.
Qed.

Lemma strict_local_minb_spec (Low : list Q) (i : nat) :
  (2 <= i)%nat -> (i + 2 < length Low)%nat ->
  strict_local_minb Low i = true <-> strict_local_min Low i.
Proof.
  intros H2 Hlen. unfold strict_local_minb, strict_local_min.
  rewrite !andb_true_iff, !Qltb_lt. split.
  - intros [[[H1 H0] H3] H4].
    exists (nth i Low 0), (nth (i - 2) Low 0), (nth (i - 1) Low 0),
           (nth (i + 1) Low 0), (nth (i + 2) Low 0).
    rewrite !(@nth_error_nth' _ Low) with (d := 0) by lia. tauto.
  - intros (v & a2 & a1 & b1 & b2 & Hv & Ha2 & Ha1 & Hb1 & Hb2 & H).
    rewrite (nth_error_nth _ _ 0 Hv), (nth_error_nth _ _ 0 Ha2),
      (nth_error_nth _ _ 0 Ha1), (nth_error_nth _ _ 0 Hb1),
      (nth_error_nth _ _ 0 Hb2).
    tauto.
Qed.

Lemma filter_seq_increasing (f : nat -> bool) (n a : nat) :
  StronglySorted Nat.lt (filter f (seq a n)).
Proof.
  revert a. induction n as [|n IH]; intros a; cbn [seq filter].
  - constructor.
  - destruct (f a); [|apply IH].
    constructor; [apply IH|].
    apply Forall_forall. intros j Hj. apply filter_In in Hj as [Hj _].
    apply in_seq in Hj. lia.
Qed.

Lemma fractal_indices_increasing (Low : list Q) :
  StronglySorted Nat.lt (fractal_indices Low).
Proof. apply filter_seq_increasing. Qed.

(** C1.  On a series of more than five points the scan returns, in the
    order of discovery, exactly the lows at the indices [i] of
    [[2, len-3]] whose low is strictly below the lows at [i-2], [i-1],
    [i+1] and [i+2]; a low equal to one of these four neighbours is not a
    candidate. *)
Theorem fractal_scan_exact (Low : list Q) :
  (5 < length Low)%nat ->
  levels Low = Ok (map (fun i => nth i Low 0) (fractal_indices Low)) /\
  StronglySorted Nat.lt (fractal_indices Low) /\
  (forall i, In i (fractal_indices Low) <->
             (2 <= i <= length Low - 3)%nat /\ strict_local_min Low i) /\
  (forall i k, (2 <= i <= length Low - 3)%nat ->
               (k = i - 2 \/ k = i - 1 \/ k = i + 1 \/ k = i + 2)%nat ->
               nth i Low 0 == nth k Low 0 ->
               ~ In i (fractal_indices Low)).
Proof.
  intros Hlen.
  assert (Hin : forall i, In i (fractal_indices Low) <->
             (2 <= i <= length Low - 3)%nat /\ strict_local_min Low i).
  { intros i. unfold fractal_indices. rewrite filter_In, in_seq. split.
    - intros [Hi Hb]. split; [lia|].
      apply strict_local_minb_spec; [lia | lia | exact Hb].
    - intros [Hi Hs]. split; [lia|].
      apply strict_local_minb_spec; [lia | lia | exact Hs]. }
  split; [now apply levels_fractal_indices|].
  split; [apply fractal_indices_increasing|].
  split; [exact Hin|].
  intros i k Hi Hk Heq Hcand. apply Hin in Hcand as [_ Hs].
  destruct Hs as (v & a2 & a1 & b1 & b2 & Hv & Ha2 & Ha1 & Hb1 & Hb2 & H).
  rewrite (nth_error_nth _ _ 0 Hv) in Heq.
  destruct Hk as [-> | [-> | [-> | ->]]].
  - rewrite (nth_error_nth _ _ 0 Ha2) in Heq. rewrite Heq in H.
    destruct H as (H & _). exact (Qlt_irrefl _ H).
  - rewrite (nth_error_nth _ _ 0 Ha1) in Heq. rewrite Heq in H.
    destruct H as (_ & H & _). exact (Qlt_irrefl _ H).
  - rewrite (nth_error_nth _ _ 0 Hb1) in Heq. rewrite Heq in H.
    destruct H as (_ & _ & H & _). exact (Qlt_irrefl _ H).
  - rewrite (nth_error_nth _ _ 0 Hb2) in Heq. rewrite Heq in H.
    destruct H as (_ & _ & _ & H). exact (Qlt_irrefl _ H).
Qed.

Lemma fractal_scan_exact_witness :
  levels [10; 9; 8; 9; 10; 9; 8; 9; 10] = Ok [8; 8] /\
  fractal_indices [10; 9; 8; 9; 10; 9; 8; 9; 10] = [2; 6]%nat.
Proof.
  destruct (@fractal_scan_exact [10; 9; 8; 9; 10; 9; 8; 9; 10])
    as (H & _); [cbn; lia|].
  split; [rewrite H|]; reflexivity.
Defined.

(** C5.  A series of at most five points yields no candidate and no
    level, and the detector returns normally. *)
Theorem short_series_no_levels (Low : list Q) :
  (length Low <= 5)%nat ->
  levels Low = Ok [] /\ detect_levels Low = Ok [].
Proof.
  intros Hlen. unfold detect_levels, levels.
  replace (5 <? length Low)%nat with false
    by (symmetry; apply Nat.ltb_ge; exact Hlen).
  split; reflexivity.
Qed.

Lemma short_series_no_levels_witness :
  levels [3; 2; 1; 2; 3] = Ok [] /\ detect_levels [3; 2; 1; 2; 3] = Ok [].
Proof.
  apply (@short_series_no_levels [3; 2; 1; 2; 3]). cbn. lia.
Defined.

(* ------------------------------------------------------------------ *)
(** ** Sorting                                                         *)
(* ------------------------------------------------------------------ *)

Section SortFacts.
Variable A : Type.
Variable lt : A -> A -> bool.
Variable le : A -> A -> Prop.
Hypothesis le_trans : forall x y z, le x y -> le y z -> le x z.
Hypothesis lt_le : forall x y, lt x y = true -> le x y.
Hypothesis ge_le : forall x y, lt x y = false -> le y x.

Lemma insert_perm (x : A) (l : list A) :
  Permutation (insert lt x l) (x :: l).
Proof.
  induction l as [|y l IH]; cbn [insert]; [reflexivity|].
  destruct (lt y x); [|reflexivity].
  rewrite IH. apply perm_swap.
Qed.

Lemma sort_perm (l : list A) : Permutation (sort lt l) l.
Proof.
  induction l as [|x l IH]; cbn; [constructor|].
  fold (sort lt l). rewrite insert_perm. now constructor.
Qed.

Lemma insert_sorted (x : A) (l : list A) :
  StronglySorted le l -> StronglySorted le (insert lt x l).
Proof.
  induction 1 as [|y l Hs IH Hy]; cbn [insert].
  - repeat constructor.
  - destruct (lt y x) eqn:E.
    + constructor; [exact IH|].
      eapply Permutation_Forall; [symmetry; apply insert_perm|].
      constructor; [now apply lt_le | exact Hy].
    + apply ge_le in E. constructor; [now constructor|].
      constructor; [exact E|].
      eapply Forall_impl; [|exact Hy]. intros z Hz. now apply le_trans with y.
Qed.

Lemma sort_sorted (l : list A) : StronglySorted le (sort lt l).
Proof.
  induction l as [|x l IH]; cbn; [constructor|].
  now apply insert_sorted.
Qed.

Lemma sorted_snoc (R : A -> A -> Prop) (l : list A) (x : A) :
  StronglySorted R l -> Forall (fun y => R y x) l ->
  StronglySorted R (l ++ [x]).
Proof.
  induction 1 as [|y l Hs IH Hy]; intros Hx; cbn [app].
  - repeat constructor.
  - inversion Hx as [|? ? Hyx Hlx]; subst.
    constructor; [now apply IH|].
    apply Forall_app. split; [exact Hy | now constructor].
Qed.

Lemma sorted_rev (R : A -> A -> Prop) (l : list A) :
  StronglySorted R l -> StronglySorted (fun a b => R b a) (rev l).
Proof.
  induction 1 as [|y l Hs IH Hy]; cbn [rev]; [constructor|].
  apply sorted_snoc; [exact IH|].
  apply Forall_rev. exact Hy.
Qed.

Lemma sort_reverse_perm (l : list A) : Permutation (sort_reverse lt l) l.
Proof.
  unfold sort_reverse.
  rewrite <- Permutation_rev, sort_perm, <- Permutation_rev. reflexivity.
Qed.

Lemma sort_reverse_sorted (l : list A) :
  StronglySorted (fun a b => le b a) (sort_reverse lt l).
Proof. apply sorted_rev, sort_sorted. Qed.
End SortFacts.

(* ------------------------------------------------------------------ *)
(** ** Clustering                                                      *)
(* ------------------------------------------------------------------ *)

Lemma sort_Qltb_sorted (l : list Q) : StronglySorted Qle (sort Qltb l).
Proof.
  apply sort_sorted.
  - intros x y z. apply Qle_trans.
  - intros x y H. apply Qlt_le_weak, Qltb_lt, H.
  - intros x y H. apply Qltb_ge, H.
Qed.

Lemma sorted_filter (A : Type) (R : A -> A -> Prop) (p : A -> bool)
  (l : list A) :
  StronglySorted R l -> StronglySorted R (filter p l).
Proof.
  induction 1 as [|x l Hs IH Hx]; cbn [filter]; [constructor|].
  destruct (p x); [|exact IH].
  constructor; [exact IH|].
  apply Forall_forall. intros y Hy. apply filter_In in Hy as [Hy _].
  rewrite Forall_forall in Hx. now apply Hx.
Qed.

(** The tolerance test is closed downwards, so on an ascending list the
    absorbed values are a prefix and the kept ones the rest. *)
Lemma within_down (base x y : Q) :
  x <= y -> within base y = true -> within base x = true.
Proof.
  unfold within. rewrite !Qleb_le. intros Hxy Hy. now apply Qle_trans with y.
Qed.

Lemma filter_none (p : Q -> bool) (l : list Q) :
  (forall y, In y l -> p y = false) ->
  filter p l = [] /\ filter (fun x => negb (p x)) l = l.
Proof.
  induction l as [|y l IH]; intros Hnone; cbn [filter]; [now split|].
  rewrite (Hnone y (or_introl eq_refl)). cbn [negb].
  destruct IH as [IH1 IH2]; [intros z Hz; apply Hnone; now right|].
  split; [exact IH1 | now f_equal].
Qed.

Lemma filter_within_split (base : Q) (l : list Q) :
  StronglySorted Qle l ->
  filter (within base) l ++ filter (fun x => negb (within base x)) l = l.
Proof.
  induction 1 as [|x l Hs IH Hx]; cbn [filter]; [reflexivity|].
  destruct (within base x) eqn:E; cbn [negb app].
  - now rewrite IH.
  - destruct (@filter_none (within base) l) as [-> ->]; [|reflexivity].
    intros y Hy. rewrite Forall_forall in Hx.
    destruct (within base y) eqn:Ey; [|reflexivity].
    rewrite (within_down base (Hx y Hy) Ey) in E. discriminate.
Qed.

Lemma of_nat_S_nonzero (n : nat) : Qeq_bool (of_nat (S n)) 0 = false.
Proof.
  apply not_true_iff_false. intros H. apply Qeq_bool_iff in H.
  unfold of_nat, Qeq in H. cbn in H. lia.
Qed.

(** The loop raises nothing: every group holds its anchor, so the mean
    divides by a positive size; and it summarises the groups of
    [clusters] in order. *)
Lemma while_levels_clusters (l : list Q) :
  while_levels l = Ok (map summary (clusters l)).
Proof.
  funelim (clusters l); simp while_levels; [reflexivity|].
  cbn zeta. unfold truediv. cbn [length].
  rewrite of_nat_S_nonzero. cbn [bind]. rewrite H. cbn [bind map].
  reflexivity.
Qed.

Lemma clusters_concat (l : list Q) :
  StronglySorted Qle l -> concat (clusters l) = l.
Proof.
  funelim (clusters l); intros Hs; [reflexivity|].
  cbn [concat]. inversion Hs as [|? ? Hs' Hall]; subst.
  rewrite H by now apply sorted_filter.
  cbn [app]. f_equal. now apply filter_within_split.
Qed.

Lemma filter_negb_perm (p : Q -> bool) (l : list Q) :
  Permutation (filter p l ++ filter (fun x => negb (p x)) l) l.
Proof.
  induction l as [|x l IH]; cbn [filter]; [constructor|].
  destruct (p x); cbn [negb app].
  - now constructor.
  - rewrite <- Permutation_middle. now constructor.
Qed.

Lemma clusters_perm (l : list Q) : Permutation (concat (clusters l)) l.
Proof.
  funelim (clusters l); [constructor|].
  cbn [concat app]. constructor. rewrite H. apply filter_negb_perm.
Qed.

Lemma in_clusters (l g : list Q) (x : Q) :
  In g (clusters l) -> In x g -> In x l.
Proof.
  intros Hg Hx. eapply Permutation_in; [apply clusters_perm|].
  apply in_concat. now exists g.
Qed.

Lemma clusters_greedy (l : list Q) :
  StronglySorted Qle l ->
  Forall anchored (clusters l) /\ ForallOrdPairs leaves_behind (clusters l).
Proof.
  funelim (clusters l); intros Hs; [split; constructor|].
  inversion Hs as [|? ? Hs' Hall]; subst. rewrite Forall_forall in Hall.
  destruct H as [IH1 IH2]; [now apply sorted_filter|].
  split; constructor; try assumption.
  - exists base, (filter (within base) levels0). split; [reflexivity|].
    intros x Hx. apply filter_In in Hx as [Hx Hw].
    split; [now apply Hall | now apply Qleb_le].
  - apply Forall_forall. intros g' Hg' anchor [= <-] x Hx.
    apply (in_clusters _ _ _ Hg') in Hx. apply filter_In in Hx as [Hx Hw].
    split; [now apply Hall|].
    apply negb_true_iff in Hw. now apply Qleb_gt.
Qed.

(* ------------------------------------------------------------------ *)
(** ** Means                                                           *)
(* ------------------------------------------------------------------ *)

(** [lra] after hiding the integer-to-rational casts, which it would
    otherwise try to read as constants. *)
Ltac lra_casts :=
  repeat match goal with
         | |- context [of_nat ?n] =>
             let k := fresh "k" in set (k := of_nat n) in *; clearbody k
         | H : context [of_nat ?n] |- _ =>
             let k := fresh "k" in set (k := of_nat n) in *; clearbody k
         end;
  lra.



Lemma of_nat_S (n : nat) : of_nat (S n) == of_nat n + 1.
Proof.
  unfold of_nat. rewrite Nat2Z.inj_succ, <- Z.add_1_r, inject_Z_plus.
  reflexivity.
Qed.

Lemma of_nat_nonneg (n : nat) : 0 <= of_nat n.
Proof.
  unfold of_nat. change 0 with (inject_Z 0). rewrite <- Zle_Qle. lia.
Qed.

Lemma of_nat_S_pos (n : nat) : 0 < of_nat (S n).
Proof. rewrite of_nat_S. pose proof (of_nat_nonneg n). lra_casts. Qed.







(** The scan returns for every series, and what it returns are lows of
    the series. *)
Lemma levels_total (Low : list Q) :
  exists candidates,
    levels Low = Ok candidates /\ forall x, In x candidates -> In x Low.
Proof.
  destruct (Nat.lt_ge_cases 5 (length Low)) as [Hlen | Hlen].
  - destruct (fractal_scan_margin_aux Low Hlen) as [H Hin].
    eexists. split; [exact H|]. exact Hin.
  - exists []. split; [|intros x []].
    unfold levels. apply Nat.ltb_ge in Hlen. now rewrite Hlen.
Qed.

Lemma consolidated_summary (candidates : list Q) :
  consolidated candidates =
  Ok (map summary (clusters (sort Qltb candidates))).
Proof.
  unfold consolidated. destruct candidates as [|c cs]; [reflexivity|].
  apply while_levels_clusters.
Qed.




(** Two fractal lows of the same negative value are not merged: minus
    ten is above [-10 * 1.05], so each forms a group of its own and the
    two levels have the same average. *)
Lemma negative_lows_repeat_a_level :
  detect_levels [0; 0; -10; 0; 0; -10; 0; 0]
    = Ok [(-10, 1%nat); (-10, 1%nat)] /\
  ~ StronglySorted (fun a b : Level => fst a < fst b)
      [(-10, 1%nat); (-10, 1%nat)].
Proof.
  split; [reflexivity|].
  intros H. inversion H as [|? ? _ Hall]; subst.
  inversion Hall as [|? ? Hlt _]; subst.
  exact (Qlt_irrefl _ Hlt).
Qed.

(* ------------------------------------------------------------------ *)
(** ** Rounding                                                        *)
(* ------------------------------------------------------------------ *)

Lemma round_comp (x y : Q) : x == y -> round x = round y.
Proof.
  intros Heq. unfold round.
  rewrite (Qfloor_comp _ _ Heq).
  assert (Hc : Qcompare (x - inject_Z (Qfloor y)) (1 # 2)
             = Qcompare (y - inject_Z (Qfloor y)) (1 # 2))
    by (apply Qcompare_comp; [rewrite Heq|]; reflexivity).
  now rewrite Hc.
Qed.

(** [round] is at most one half away from its argument. *)
Lemma round_near (x : Q) :
  - (1 # 2) <= inject_Z (round x) - x <= 1 # 2.
Proof.
  pose proof (Qfloor_le x) as Hlo. pose proof (Qlt_floor x) as Hhi.
  rewrite inject_Z_plus in Hhi. change (inject_Z 1) with 1 in Hhi.
  unfold round.
  destruct (Qcompare (x - inject_Z (Qfloor x)) (1 # 2)) eqn:E;
    [apply Qeq_alt in E; destruct (Z.even (Qfloor x))
    | apply Qlt_alt in E | apply Qgt_alt in E];
    rewrite ?inject_Z_plus; change (inject_Z 1) with 1;
    set (f := inject_Z (Qfloor x)) in *; clearbody f; lra.
Qed.

Lemma round_mono (x y : Q) : x <= y -> (round x <= round y)%Z.
Proof.
  intros Hxy. apply Qle_lteq in Hxy as [Hlt | Heq].
  - pose proof (round_near x) as Hx. pose proof (round_near y) as Hy.
    assert (H : inject_Z (round x) < inject_Z (round y + 1)).
    { rewrite inject_Z_plus. change (inject_Z 1) with 1.
      set (a := inject_Z (round x)) in *.
      set (b := inject_Z (round y)) in *. clearbody a b. lra. }
    rewrite <- Zlt_Qlt in H. lia.
  - now rewrite (round_comp Heq).
Qed.

Lemma round_nonneg (x : Q) : 0 <= x -> (0 <= round x)%Z.
Proof.
  intros Hx. change 0%Z with (round 0). now apply round_mono.
Qed.

Lemma round2_mono (x y : Q) : x <= y -> round2 x <= round2 y.
Proof.
  intros Hxy. unfold round2.
  assert (H : (round (x * 100) <= round (y * 100))%Z)
    by (apply round_mono; lra).
  rewrite Zle_Qle in H.
  set (a := inject_Z (round (x * 100))) in *.
  set (b := inject_Z (round (y * 100))) in *.
  clearbody a b. unfold Qdiv. change (/ 100) with (1 # 100). lra.
Qed.

(* ------------------------------------------------------------------ *)
(** ** The loop of the plan builder                                    *)
(* ------------------------------------------------------------------ *)

Lemma truediv_ok (x y : Q) : ~ y == 0 -> truediv x y = Ok (x / y).
Proof.
  intros Hy. unfold truediv.
  destruct (Qeq_bool y 0) eqn:E; [|reflexivity].
  apply Qeq_bool_iff in E. contradiction.
Qed.

Lemma truediv_zero (x y : Q) :
  y == 0 -> truediv x y = Raise ZeroDivisionError.
Proof.
  intros Hy. unfold truediv. apply Qeq_bool_iff in Hy. now rewrite Hy.
Qed.

Lemma int_truediv_ok (a b : nat) :
  b <> 0%nat -> int_truediv a b = Ok (of_nat a / of_nat b).
Proof.
  intros Hb. unfold int_truediv. apply Nat.eqb_neq in Hb. now rewrite Hb.
Qed.

(** One pass either builds [entry] or stops on a zero divisor. *)
Lemma buy_level_cases (cp yh : Q) (total i : nat) (l : Level) :
  (total <> 0%nat /\ ~ yh == 0 /\ ~ cp == 0 /\
   buy_level cp yh total i l = Ok (entry cp yh total (i, l))) \/
  ((total = 0%nat \/ yh == 0 \/ cp == 0) /\
   buy_level cp yh total i l = Raise ZeroDivisionError).
Proof.
  destruct l as [p c]. unfold buy_level, entry.
  destruct (Nat.eq_dec total 0) as [-> | Ht].
  { right. split; [now left | reflexivity]. }
  rewrite (int_truediv_ok _ Ht). cbn [bind].
  destruct (Qeq_dec yh 0) as [Hy | Hy].
  { right. split; [right; now left|]. now rewrite (truediv_zero _ Hy). }
  rewrite (truediv_ok _ Hy). cbn [bind].
  destruct (Qeq_dec cp 0) as [Hc | Hc].
  { right. split; [right; now right|]. now rewrite (truediv_zero _ Hc). }
  rewrite (truediv_ok _ Hc). cbn [bind].
  left. repeat split; assumption.
Qed.

Lemma plan_loop_ok (cp yh : Q) (total : nat) (items : list (nat * Level)) :
  total <> 0%nat -> ~ yh == 0 -> ~ cp == 0 ->
  forall acc,
    plan_loop cp yh total items acc
    = Ok (acc ++ map (entry cp yh total) items).
Proof.
  intros Ht Hy Hc. induction items as [|[i l] items IH]; intros acc.
  - cbn. now rewrite app_nil_r.
  - cbn [plan_loop map].
    destruct (buy_level_cases cp yh total i l)
      as [(_ & _ & _ & ->) | ([H | [H | H]] & _)]; try contradiction.
    cbn [bind]. rewrite IH, <- app_assoc. reflexivity.
Qed.

Lemma plan_loop_fault (cp yh : Q) (total : nat) (items : list (nat * Level)) :
  items <> [] -> total = 0%nat \/ yh == 0 \/ cp == 0 ->
  forall acc, plan_loop cp yh total items acc = Raise ZeroDivisionError.
Proof.
  intros Hne Hz acc. destruct items as [|[i l] items]; [contradiction|].
  cbn [plan_loop].
  destruct (buy_level_cases cp yh total i l)
    as [(Ht & Hy & Hc & _) | (_ & ->)]; [|reflexivity].
  destruct Hz as [H | [H | H]]; contradiction.
Qed.

Lemma enumerate_nil (A : Type) (l : list A) : enumerate l = [] <-> l = [].
Proof.
  destruct l; cbn; split; intros H; try reflexivity; discriminate.
Qed.

(** The three outcomes of the plan builder. *)
Lemma build_plan_cases (lv : list Level) (cp yh : Q) :
  let top := top_3 lv cp in
  (top = [] /\ build_plan lv cp yh = Ok (NoSupportFound, [])) \/
  (top <> [] /\ total_strength top <> 0%nat /\ ~ yh == 0 /\ ~ cp == 0 /\
   build_plan lv cp yh
   = Ok (FoundStrategicLevels,
         map (entry cp yh (total_strength top)) (enumerate top))) \/
  (top <> [] /\ (total_strength top = 0%nat \/ yh == 0 \/ cp == 0) /\
   build_plan lv cp yh = Raise ZeroDivisionError).
Proof.
  intros top. unfold build_plan. fold top.
  destruct top as [|l0 rest] eqn:Etop; [left; now split|].
  right. rewrite <- Etop.
  assert (Hne : top <> []) by (rewrite Etop; discriminate).
  assert (Hne' : enumerate top <> []) by now rewrite enumerate_nil.
  destruct (Nat.eq_dec (total_strength top) 0) as [Ht | Ht];
    [|destruct (Qeq_dec yh 0) as [Hy | Hy];
      [|destruct (Qeq_dec cp 0) as [Hc | Hc]]].
  - right. rewrite plan_loop_fault by auto. auto.
  - right. rewrite plan_loop_fault by auto. auto.
  - right. rewrite plan_loop_fault by auto. auto.
  - left. rewrite plan_loop_ok by assumption. cbn [bind app]. auto.
Qed.

(* ------------------------------------------------------------------ *)
(** ** Selection                                                       *)
(* ------------------------------------------------------------------ *)

Lemma in_firstn (A : Type) (n : nat) (l : list A) (x : A) :
  In x (firstn n l) -> In x l.
Proof.
  intros H. rewrite <- (firstn_skipn n l). apply in_or_app. now left.
Qed.

Lemma in_waiting (lv : list Level) (cp : Q) (l : Level) :
  In l (waiting lv cp) <-> In l lv /\ fst l < cp.
Proof. unfold waiting. now rewrite filter_In, Qltb_lt. Qed.

Lemma by_price_desc_perm (w : list Level) : Permutation (by_price_desc w) w.
Proof. apply sort_reverse_perm. Qed.

Lemma by_price_desc_sorted (w : list Level) :
  StronglySorted (fun a b : Level => fst b <= fst a) (by_price_desc w).
Proof.
  unfold by_price_desc.
  apply (@sort_reverse_sorted Level _ (fun a b => fst a <= fst b)).
  - intros x y z. apply Qle_trans.
  - intros x y H. apply Qlt_le_weak, Qltb_lt, H.
  - intros x y H. apply Qltb_ge, H.
Qed.

Lemma in_top_3 (lv : list Level) (cp : Q) (l : Level) :
  In l (top_3 lv cp) -> In l lv /\ fst l < cp.
Proof.
  intros H. apply in_waiting. unfold top_3 in H. apply in_firstn in H.
  eapply Permutation_in; [apply by_price_desc_perm | exact H].
Qed.

Lemma top_3_nil (lv : list Level) (cp : Q) :
  top_3 lv cp = [] <-> forall l, In l lv -> ~ fst l < cp.
Proof.
  unfold top_3. split.
  - intros H l Hl Hlt.
    assert (Hw : In l (by_price_desc (waiting lv cp))).
    { eapply Permutation_in; [symmetry; apply by_price_desc_perm|].
      now apply in_waiting. }
    destruct (by_price_desc (waiting lv cp)); [exact Hw | discriminate].
  - intros H.
    assert (Hw : waiting lv cp = []).
    { destruct (waiting lv cp) as [|l w] eqn:E; [reflexivity|].
      assert (Hl : In l (waiting lv cp)) by (rewrite E; now left).
      apply in_waiting in Hl as [Hl Hlt]. now destruct (H l Hl). }
    rewrite Hw. reflexivity.
Qed.

Lemma fold_left_add_ge (l : list nat) (a : nat) :
  (a <= fold_left Nat.add l a)%nat /\
  forall n, In n l -> (n <= fold_left Nat.add l a)%nat.
Proof.
  revert a. induction l as [|x l IH]; intros a; cbn [fold_left].
  - split; [lia | intros n []].
  - destruct (IH (a + x)%nat) as [Ha Hin]. split; [lia|].
    intros n [<- | Hn]; [lia | now apply Hin].
Qed.

Lemma total_strength_pos (lv : list Level) (cp : Q) :
  Forall (fun l : Level => (0 < snd l)%nat) lv ->
  top_3 lv cp <> [] -> total_strength (top_3 lv cp) <> 0%nat.
Proof.
  intros Hpos Hne. destruct (top_3 lv cp) as [|l rest] eqn:E; [contradiction|].
  assert (Hl : In l lv) by (apply (@in_top_3 lv cp); rewrite E; now left).
  rewrite Forall_forall in Hpos. specialize (Hpos l Hl).
  unfold total_strength.
  destruct (fold_left_add_ge (map snd (l :: rest)) 0) as [_ Hin].
  specialize (Hin (snd l) (or_introl eq_refl)). lia.
Qed.

(** C7.  The plan is empty exactly when no level lies below the current
    price.  In that case the builder returns normally with the status
    "no support found"; otherwise the status is "found" and the plan is
    not empty. *)
Theorem empty_plan_iff_no_level_below (lv : list Level) (cp yh : Q) :
  ((forall l, In l lv -> ~ fst l < cp) ->
   build_plan lv cp yh = Ok (NoSupportFound, [])) /\
  ((exists l, In l lv /\ fst l < cp) ->
   Forall (fun l : Level => (0 < snd l)%nat) lv -> ~ yh == 0 -> ~ cp == 0 ->
   exists plan,
     plan <> [] /\ build_plan lv cp yh = Ok (FoundStrategicLevels, plan)) /\
  (forall st plan, build_plan lv cp yh = Ok (st, plan) ->
     (plan = [] <-> forall l, In l lv -> ~ fst l < cp) /\
     (plan = [] -> st = NoSupportFound) /\
     (plan <> [] -> st = FoundStrategicLevels)).
Proof.
  pose proof (build_plan_cases lv cp yh) as Hcases. cbv zeta in Hcases.
  destruct (top_3_nil lv cp) as [Hnil1 Hnil2].
  split; [|split].
  - intros Hnone. apply Hnil2 in Hnone.
    destruct Hcases as [[_ H] | [(Hne & _) | (Hne & _)]];
      [exact H | contradiction | contradiction].
  - intros (l & Hl & Hlt) Hpos Hy Hc.
    assert (Hne : top_3 lv cp <> []).
    { intros H. exact (Hnil1 H l Hl Hlt). }
    destruct Hcases as [[H _] | [(_ & _ & _ & _ & H) | (_ & Hz & _)]].
    + contradiction.
    + eexists. split; [|exact H].
      intros Hmap. apply map_eq_nil in Hmap.
      apply (proj1 (enumerate_nil _)) in Hmap. exact (Hne Hmap).
    + pose proof (total_strength_pos cp Hpos Hne).
      destruct Hz as [Hz | [Hz | Hz]]; contradiction.
  - intros st plan Hok.
    destruct Hcases as [[Htop H] | [(Hne & _ & _ & _ & H) | (_ & _ & H)]];
      rewrite H in Hok; [| |discriminate]; injection Hok as <- <-.
    + split; [split; [intros _; now apply Hnil1 | reflexivity]|].
      split; [reflexivity | intros Hc; now destruct Hc].
    + assert (Hplan : map (entry cp yh (total_strength (top_3 lv cp)))
                        (enumerate (top_3 lv cp)) <> []).
      { intros Hmap. apply map_eq_nil in Hmap.
        apply (proj1 (enumerate_nil _)) in Hmap. exact (Hne Hmap). }
      split; [split; [intros Hc; now destruct Hplan|]|].
      * intros Hnone. apply Hnil2 in Hnone. contradiction.
      * split; [intros Hc; now destruct Hplan | reflexivity].
Qed.

(* ------------------------------------------------------------------ *)
(** ** Totality of the detector and the unguarded quotients            *)
(* ------------------------------------------------------------------ *)

(** The detector returns for every series, and every level it returns
    counts at least one candidate. *)
Lemma detect_levels_total (Low : list Q) :
  exists lv,
    detect_levels Low = Ok lv /\
    Forall (fun l : Level => (0 < snd l)%nat) lv.
Proof.
  destruct (levels_total Low) as (candidates & Hlv & _).
  exists (map summary (clusters (sort Qltb candidates))). split.
  - unfold detect_levels. rewrite Hlv. cbn [bind].
    apply consolidated_summary.
  - destruct (clusters_greedy (sort_Qltb_sorted candidates)) as [Hanch _].
    apply Forall_forall. intros l Hl.
    apply in_map_iff in Hl as (g & <- & Hg).
    rewrite Forall_forall in Hanch.
    destruct (Hanch g Hg) as (anchor & rest & -> & _). cbn. lia.
Qed.

(* ------------------------------------------------------------------ *)
(** ** The entries of the plan                                         *)
(* ------------------------------------------------------------------ *)

(** A plan that was returned is the list of [entry] over the selected
    levels, and it is empty only when nothing was selected. *)
Lemma build_plan_ok (lv : list Level) (cp yh : Q) (st : Status)
  (plan : list BuyLevel) :
  build_plan lv cp yh = Ok (st, plan) ->
  plan = map (entry cp yh (total_strength (top_3 lv cp)))
             (enumerate (top_3 lv cp)) /\
  (plan <> [] ->
   total_strength (top_3 lv cp) <> 0%nat /\ ~ yh == 0 /\ ~ cp == 0).
Proof.
  intros Hok.
  pose proof (build_plan_cases lv cp yh) as Hcases. cbv zeta in Hcases.
  destruct Hcases as [[Htop H] | [(Hne & Ht & Hy & Hc & H) | (_ & _ & H)]];
    rewrite H in Hok; [| |discriminate]; injection Hok as <- <-.
  - rewrite Htop. split; [reflexivity | intros Hc; now destruct Hc].
  - split; [reflexivity | auto].
Qed.

(* ------------------------------------------------------------------ *)
(** ** Weights                                                         *)
(* ------------------------------------------------------------------ *)

Lemma of_nat_nonzero (n : nat) : n <> 0%nat -> ~ of_nat n == 0.
Proof. intros Hn. unfold of_nat, Qeq. cbn. lia. Qed.

Lemma fold_left_add_list_sum (l : list nat) (a : nat) :
  fold_left Nat.add l a = (a + list_sum l)%nat.
Proof.
  revert a. induction l as [|x l IH]; intros a.
  - cbn. lia.
  - change (list_sum (x :: l)) with (x + list_sum l)%nat.
    cbn [fold_left]. rewrite IH. lia.
Qed.

Lemma map_snd_enumerate (A : Type) (l : list A) :
  map snd (enumerate l) = l.
Proof.
  unfold enumerate. generalize 0%nat.
  induction l as [|x l IH]; intros a; cbn; [reflexivity|].
  f_equal. apply IH.
Qed.

Lemma length_enumerate (A : Type) (l : list A) :
  length (enumerate l) = length l.
Proof.
  unfold enumerate. rewrite length_combine, length_seq. apply Nat.min_id.
Qed.

Lemma entry_weight (cp yh : Q) (total : nat) (il : nat * Level) :
  weight_percent (entry cp yh total il)
  = round (of_nat (snd (snd il)) / of_nat total * 100).
Proof. destruct il as [i [p c]]. reflexivity. Qed.

(* ------------------------------------------------------------------ *)
(** ** Ranking                                                         *)
(* ------------------------------------------------------------------ *)

Lemma sorted_firstn (A : Type) (R : A -> A -> Prop) (n : nat) (l : list A) :
  StronglySorted R l -> StronglySorted R (firstn n l).
Proof.
  intros Hs. revert n. induction Hs as [|x l Hs IH Hx]; intros [|n];
    cbn [firstn]; try constructor.
  - apply IH.
  - apply Forall_forall. intros y Hy. apply in_firstn in Hy.
    rewrite Forall_forall in Hx. now apply Hx.
Qed.






(* ------------------------------------------------------------------ *)
(** ** The result depends on the values of the inputs only             *)
(* ------------------------------------------------------------------ *)

Lemma Qltb_comp (x x' y y' : Q) :
  x == x' -> y == y' -> Qltb x y = Qltb x' y'.
Proof.
  intros Hx Hy.
  destruct (Qltb x y) eqn:E, (Qltb x' y') eqn:E'; try reflexivity.
  - apply Qltb_lt in E. apply Qltb_ge in E'. lra.
  - apply Qltb_ge in E. apply Qltb_lt in E'. lra.
Qed.

Lemma Qleb_comp' (x x' y y' : Q) :
  x == x' -> y == y' -> Qleb x y = Qleb x' y'.
Proof.
  intros Hx Hy.
  destruct (Qleb x y) eqn:E, (Qleb x' y') eqn:E'; try reflexivity.
  - apply Qleb_le in E. apply Qleb_gt in E'. lra.
  - apply Qleb_gt in E. apply Qleb_le in E'. lra.
Qed.

Section Related.
Variables A : Type.
Variable E : A -> A -> Prop.

Lemma related_filter (p p' : A -> bool) (l l' : list A) :
  (forall a a', E a a' -> p a = p' a') ->
  Forall2 E l l' -> Forall2 E (filter p l) (filter p' l').
Proof.
  intros Hp. induction 1 as [|a a' l l' Ha _ IH]; cbn [filter];
    [constructor|].
  rewrite (Hp a a' Ha). destruct (p' a'); [constructor|]; assumption.
Qed.

Variables lt lt' : A -> A -> bool.
Hypothesis lt_related :
  forall a a' b b', E a a' -> E b b' -> lt a b = lt' a' b'.

Lemma related_insert (x x' : A) (l l' : list A) :
  E x x' -> Forall2 E l l' -> Forall2 E (insert lt x l) (insert lt' x' l').
Proof.
  intros Hx. induction 1 as [|a a' l l' Ha Hl IH]; cbn [insert].
  - now repeat constructor.
  - rewrite (lt_related Ha Hx).
    destruct (lt' a' x'); repeat constructor; assumption.
Qed.

End Related.

Lemma within_comp (base base' x x' : Q) :
  base == base' -> x == x' -> within base x = within base' x'.
Proof.
  intros Hb Hx. unfold within. apply Qleb_comp'; [exact Hx|].
  now rewrite Hb.
Qed.

Lemma related_clusters (n : nat) (l l' : list Q) :
  (length l <= n)%nat -> Forall2 Qeq l l' ->
  Forall2 (Forall2 Qeq) (clusters l) (clusters l').
Proof.
  revert l l'. induction n as [|n IH]; intros l l' Hn H;
    destruct H as [|base base' l l' Hb Hl]; simp clusters;
    try constructor; cbn [length] in Hn; try lia.
  - constructor; [exact Hb|].
    apply related_filter with (p := within base) (p' := within base');
      [|exact Hl].
    intros a a' Ha. now apply within_comp.
  - apply IH.
    + pose proof (filter_length_le (fun x => negb (within base x)) l). lia.
    + apply related_filter; [|exact Hl].
      intros a a' Ha. f_equal. now apply within_comp.
Qed.

Lemma related_sum (g g' : list Q) : Forall2 Qeq g g' -> sum g == sum g'.
Proof.
  unfold sum. generalize (Qeq_refl 0). generalize 0 at 1 3. generalize 0.
  intros a a' Ha H. revert a a' Ha.
  induction H as [|x x' g g' Hx _ IH]; intros a a' Ha; cbn [fold_left].
  - exact Ha.
  - apply IH. now rewrite Ha, Hx.
Qed.

Lemma related_summary (g g' : list Q) :
  Forall2 Qeq g g' -> same_level (summary g) (summary g').
Proof.
  intros H. unfold same_level, summary. cbn [fst snd].
  rewrite (Forall2_length H). split; [|reflexivity].
  now rewrite (related_sum H).
Qed.

(* ------------------------------------------------------------------ *)
(** ** The handler and the worked examples                             *)
(* ------------------------------------------------------------------ *)

(** An empty frame is the one error of the handler's own. *)
Lemma analyze_stock_empty : analyze_stock [] = Raise (HTTPException 404).
Proof. reflexivity. Qed.

Lemma status_texts_differ :
  status_text NoSupportFound <> status_text FoundStrategicLevels.
Proof. discriminate. Qed.

(** The nine lows of the specification: strict minima at positions 2 and
    6, one level at 8 of strength 2. *)
Example nine_lows_one_level :
  levels [10; 9; 8; 9; 10; 9; 8; 9; 10] = Ok [8; 8] /\
  detect_levels [10; 9; 8; 9; 10; 9; 8; 9; 10] = Ok [(16 # 2, 2%nat)].
Proof. split; reflexivity. Qed.

(** A flat stretch gives no candidate: equal neighbours fail the strict
    test. *)
Example flat_lows_no_level :
  detect_levels [10; 9; 8; 8; 9; 10; 11] = Ok [].
Proof. reflexivity. Qed.

(** The three levels of the specification, ranked 95, 90, 70 with
    weights 33, 50 and 17. *)
Example ranked_plan :
  build_plan example_levels 100 120 = Ok (FoundStrategicLevels, example_plan).
Proof. reflexivity. Qed.

(** No level below the current price: the not-found status, an empty
    plan, and no quotient evaluated even with a year high of zero. *)
Example nothing_below :
  build_plan example_levels 60 0 = Ok (NoSupportFound, []).
Proof. reflexivity. Qed.

(** A value just above the five per cent bound of the anchor starts a
    group of its own, and the values within five per cent of it join. *)
Example greedy_groups :
  clusters [100; 104; 105; 106; 110; 112]
  = [[100; 104; 105]; [106; 110]; [112]].
Proof. reflexivity. Qed.

(* ================================================================== *)
(** * Further properties in exact arithmetic                           *)
(* ================================================================== *)

(* ------------------------------------------------------------------ *)
(** ** Outcomes of the handler                                         *)
(* ------------------------------------------------------------------ *)

(* ------------------------------------------------------------------ *)
(** ** The 52-week high and low                                        *)
(* ------------------------------------------------------------------ *)

Lemma Qmax_spec (x y : Q) :
  (Qmax x y = x \/ Qmax x y = y) /\ x <= Qmax x y /\ y <= Qmax x y.
Proof.
  unfold Qmax. destruct (Qltb x y) eqn:E.
  - apply Qltb_lt in E. split; [now right|]. split; lra.
  - apply Qltb_ge in E. split; [now left|]. split; lra.
Qed.

Lemma Qmin_spec (x y : Q) :
  (Qmin x y = x \/ Qmin x y = y) /\ Qmin x y <= x /\ Qmin x y <= y.
Proof.
  unfold Qmin. destruct (Qltb y x) eqn:E.
  - apply Qltb_lt in E. split; [now right|]. split; lra.
  - apply Qltb_ge in E. split; [now left|]. split; lra.
Qed.

Lemma fold_Qmax_spec (l : list Q) (a : Q) :
  (fold_left Qmax l a = a \/ In (fold_left Qmax l a) l) /\
  a <= fold_left Qmax l a /\
  forall x, In x l -> x <= fold_left Qmax l a.
Proof.
  revert a. induction l as [|y l IH]; intros a; cbn [fold_left].
  - split; [now left|]. split; [lra | intros x []].
  - destruct (IH (Qmax a y)) as (Hin & Hge & Hall).
    destruct (Qmax_spec a y) as (Hsel & Ha & Hy).
    split; [|split].
    + destruct Hin as [Hin | Hin]; [|right; now right].
      rewrite Hin. destruct Hsel as [-> | ->]; [now left | right; now left].
    + lra.
    + intros x [<- | Hx]; [lra | now apply Hall].
Qed.

Lemma fold_Qmin_spec (l : list Q) (a : Q) :
  (fold_left Qmin l a = a \/ In (fold_left Qmin l a) l) /\
  fold_left Qmin l a <= a /\
  forall x, In x l -> fold_left Qmin l a <= x.
Proof.
  revert a. induction l as [|y l IH]; intros a; cbn [fold_left].
  - split; [now left|]. split; [lra | intros x []].
  - destruct (IH (Qmin a y)) as (Hin & Hge & Hall).
    destruct (Qmin_spec a y) as (Hsel & Ha & Hy).
    split; [|split].
    + destruct Hin as [Hin | Hin]; [|right; now right].
      rewrite Hin. destruct Hsel as [-> | ->]; [now left | right; now left].
    + lra.
    + intros x [<- | Hx]; [lra | now apply Hall].
Qed.

(** The last row of a frame is among its last 52 rows, which are a
    suffix of the frame. *)
Lemma tail_last (A : Type) (n : nat) (df : list A) (last : A) :
  In last (tail (S n) (df ++ [last])) /\
  length (tail (S n) (df ++ [last]))
  = Nat.min (S n) (length (df ++ [last])) /\
  exists older, df ++ [last] = older ++ tail (S n) (df ++ [last]).
Proof.
  unfold tail. rewrite length_app. cbn [length].
  split; [|split].
  - rewrite skipn_app.
    replace (length df + 1 - S n - length df)%nat with 0%nat by lia.
    apply in_or_app. right. now left.
  - rewrite length_skipn, length_app. cbn [length]. lia.
  - eexists. symmetry. apply firstn_skipn.
Qed.

(** The fields of a response, read back from the frame. *)
Lemma analyze_stock_fields (df : list Row) (last : Row)
  (r : StockAnalysisResponse) :
  analyze_stock (df ++ [last]) = Ok r ->
  let year := tail 52 (df ++ [last]) in
  current_price r = round2 (Close last) /\
  year_high r = round2 (fold_left Qmax (map High year) (High last)) /\
  year_low r = round2 (fold_left Qmin (map Low year) (Low last)).
Proof.
  unfold analyze_stock. rewrite rev_unit.
  destruct (strategic_levels _ _ _) as [[st plan] | e]; cbn [bind];
    [|discriminate].
  intros [= <-]. cbn. repeat split.
Qed.

(** X2.  On a frame whose last row has a positive close and a positive
    high the handler returns a response. *)
Theorem handler_returns (df : list Row) (last : Row) :
  0 < Close last -> 0 < High last ->
  exists r, analyze_stock (df ++ [last]) = Ok r.
Proof.
  intros Hc Hh. unfold analyze_stock. rewrite rev_unit.
  set (yh := fold_left Qmax (map High (tail 52 (df ++ [last]))) (High last)).
  assert (Hyh : 0 < yh).
  { destruct (fold_Qmax_spec (map High (tail 52 (df ++ [last]))) (High last))
      as (_ & Hge & _). fold yh in Hge. lra. }
  destruct (detect_levels_total (map Low (df ++ [last]))) as (lv & Hlv & Hpos).
  unfold strategic_levels. rewrite Hlv. cbn [bind].
  pose proof (build_plan_cases lv (Close last) yh) as Hcases.
  cbv zeta in Hcases.
  destruct Hcases as [[_ H] | [(_ & _ & _ & _ & H) | (Hne & Hz & _)]];
    try (rewrite H; cbn [bind]; eexists; reflexivity).
  pose proof (total_strength_pos (Close last) Hpos Hne) as Ht.
  destruct Hz as [Hz | [Hz | Hz]]; [contradiction | |];
    rewrite Hz in *; exfalso; eapply Qlt_irrefl; eassumption.
Qed.

Lemma handler_returns_witness :
  exists r, analyze_stock (example_rows ++ [example_last]) = Ok r.
Proof.
  apply (@handler_returns example_rows example_last); reflexivity.
Defined.

(** X4.  When the last row is well formed, its close between its low and
    its high, the current price of the response lies between the year
    low and the year high. *)
Theorem current_price_within_year (df : list Row) (last : Row)
  (r : StockAnalysisResponse) :
  analyze_stock (df ++ [last]) = Ok r ->
  Low last <= Close last -> Close last <= High last ->
  year_low r <= current_price r /\ current_price r <= year_high r.
Proof.
  intros Hok Hl Hh. apply analyze_stock_fields in Hok as (-> & -> & ->).
  destruct (fold_Qmax_spec (map High (tail 52 (df ++ [last]))) (High last))
    as (_ & Hge & _).
  destruct (fold_Qmin_spec (map Low (tail 52 (df ++ [last]))) (Low last))
    as (_ & Hle & _).
  split; apply round2_mono; lra.
Qed.

Lemma current_price_within_year_witness :
  year_low example_response <= current_price example_response /\
  current_price example_response <= year_high example_response.
Proof.
  apply (@current_price_within_year example_rows example_last
           example_response); [reflexivity | discriminate | discriminate].
Defined.

(* ------------------------------------------------------------------ *)
(** ** Spacing of the fractal lows                                     *)
(* ------------------------------------------------------------------ *)

Lemma in_fractal_indices (Low : list Q) (i : nat) :
  In i (fractal_indices Low) ->
  (2 <= i /\ i + 2 < length Low)%nat /\ strict_local_minb Low i = true.
Proof.
  unfold fractal_indices. rewrite filter_In, in_seq. intros [Hi Hb].
  split; [lia | exact Hb].
Qed.

(** Two positions that both pass the strict test are at least three
    apart: each would have to be below the other otherwise. *)
Lemma strict_minima_apart (Low : list Q) (i j : nat) :
  strict_local_minb Low i = true -> strict_local_minb Low j = true ->
  (i < j)%nat -> (i + 3 <= j)%nat.
Proof.
  unfold strict_local_minb. rewrite !andb_true_iff, !Qltb_lt.
  intros [[[_ _] Hi1] Hi2] [[[Hj1 Hj2] _] _] Hij.
  destruct (Nat.eq_dec j (i + 1)) as [-> | Hn1].
  { replace (i + 1 - 1)%nat with i in Hj1 by lia. lra. }
  destruct (Nat.eq_dec j (i + 2)) as [-> | Hn2].
  { replace (i + 2 - 2)%nat with i in Hj2 by lia. lra. }
  lia.
Qed.

Lemma sorted_strengthen (A : Type) (R S : A -> A -> Prop) (l : list A) :
  (forall a b, In a l -> In b l -> R a b -> S a b) ->
  StronglySorted R l -> StronglySorted S l.
Proof.
  intros Himp Hs. induction Hs as [|x l Hs IH Hx]; [constructor|].
  constructor.
  - apply IH. intros a b Ha Hb. apply Himp; now right.
  - rewrite Forall_forall in *. intros y Hy.
    apply Himp; [now left | now right | now apply Hx].
Qed.

Lemma spaced_count (l : list nat) :
  StronglySorted (fun i j => (i + 3 <= j)%nat) l ->
  forall a b, Forall (fun i => (a <= i <= b)%nat) l -> l <> [] ->
  (3 * length l <= b - a + 3)%nat.
Proof.
  induction 1 as [|i rest Hs IH Hi]; intros a b Hab Hne; [contradiction|].
  inversion Hab as [|? ? Hib Hrest]; subst. cbn [length].
  destruct rest as [|j rest']; [cbn; lia|].
  assert (Hspec : (3 * length (j :: rest') <= b - (i + 3) + 3)%nat).
  { apply IH; [|discriminate].
    rewrite Forall_forall in *. intros k Hk.
    specialize (Hi k Hk). specialize (Hrest k Hk). cbv beta in *. lia. }
  inversion Hi as [|? ? Hij _]; subst.
  inversion Hrest as [|? ? Hjb _]; subst. lia.
Qed.

(** X5.  The scan returns the lows at positions that lie inside the
    two-point margin and at least three apart, so a series of [n] points
    has at most [(n - 2) / 3] candidates. *)
Theorem fractal_lows_three_apart (Low : list Q) :
  exists idx,
    levels Low = Ok (map (fun i => nth i Low 0) idx) /\
    StronglySorted (fun i j => (i + 3 <= j)%nat) idx /\
    Forall (fun i => (2 <= i <= length Low - 3)%nat) idx /\
    (3 * length idx <= length Low - 2)%nat.
Proof.
  destruct (Nat.lt_ge_cases 5 (length Low)) as [Hlen | Hlen].
  - exists (fractal_indices Low).
    assert (Hsp : StronglySorted (fun i j => (i + 3 <= j)%nat)
                    (fractal_indices Low)).
    { apply sorted_strengthen with (R := Nat.lt);
        [|apply fractal_indices_increasing].
      intros i j Hi Hj Hij.
      apply in_fractal_indices in Hi as [_ Hi].
      apply in_fractal_indices in Hj as [_ Hj].
      now apply strict_minima_apart with Low. }
    assert (Hin : Forall (fun i => (2 <= i <= length Low - 3)%nat)
                    (fractal_indices Low)).
    { apply Forall_forall. intros i Hi.
      apply in_fractal_indices in Hi as [Hi _]. lia. }
    split; [now apply levels_fractal_indices|].
    split; [exact Hsp|]. split; [exact Hin|].
    destruct (fractal_indices Low) as [|i idx] eqn:E; [cbn; lia|].
    pose proof (@spaced_count (i :: idx) Hsp 2 (length Low - 3) Hin) as H.
    specialize (H ltac:(discriminate)). lia.
  - exists []. unfold levels. apply Nat.ltb_ge in Hlen. rewrite Hlen.
    repeat split; try constructor. cbn. lia.
Qed.

(* ------------------------------------------------------------------ *)
(** ** Strengths and averages of the levels                            *)
(* ------------------------------------------------------------------ *)

Lemma list_sum_lengths (A : Type) (gs : list (list A)) :
  list_sum (map (@length A) gs) = length (concat gs).
Proof.
  induction gs as [|g gs IH]; [reflexivity|].
  change (list_sum (map (@length A) (g :: gs)))
    with (length g + list_sum (map (@length A) gs))%nat.
  cbn [concat]. now rewrite length_app, IH.
Qed.

(** What the detector returns, with the candidates and the groups it
    went through. *)
Lemma detect_levels_groups (Low : list Q) :
  exists candidates,
    levels Low = Ok candidates /\
    (forall x, In x candidates -> In x Low) /\
    detect_levels Low
    = Ok (map summary (clusters (sort Qltb candidates))).
Proof.
  destruct (levels_total Low) as (candidates & Hlv & Hin).
  exists candidates. split; [exact Hlv|]. split; [exact Hin|].
  unfold detect_levels. rewrite Hlv. cbn [bind].
  apply consolidated_summary.
Qed.

(** X6.  Every level counts at least one candidate, and the strengths of
    the levels add up to the number of candidates: each fractal low is
    counted in exactly one level. *)
Theorem strengths_count_candidates (Low : list Q) :
  exists candidates lv,
    levels Low = Ok candidates /\ detect_levels Low = Ok lv /\
    Forall (fun l : Level => (1 <= snd l)%nat) lv /\
    list_sum (map snd lv) = length candidates /\
    (length lv <= length candidates)%nat.
Proof.
  destruct (detect_levels_groups Low) as (candidates & Hc & _ & Hlv).
  exists candidates, (map summary (clusters (sort Qltb candidates))).
  split; [exact Hc|]. split; [exact Hlv|].
  pose proof (sort_Qltb_sorted candidates) as Hs.
  destruct (clusters_greedy Hs) as [Hanch _].
  assert (Hpos : Forall (fun l : Level => (1 <= snd l)%nat)
                   (map summary (clusters (sort Qltb candidates)))).
  { apply Forall_forall. intros l Hl.
    apply in_map_iff in Hl as (g & <- & Hg).
    rewrite Forall_forall in Hanch.
    destruct (Hanch g Hg) as (anchor & rest & -> & _). cbn. lia. }
  assert (Hsum : list_sum (map snd
                   (map summary (clusters (sort Qltb candidates))))
                 = length candidates).
  { rewrite map_map.
    rewrite (map_ext (fun g => snd (summary g)) (@length Q))
      by reflexivity.
    rewrite (list_sum_lengths (clusters (sort Qltb candidates))).
    rewrite (clusters_concat Hs).
    apply Permutation_length, sort_perm. }
  split; [exact Hpos|]. split; [exact Hsum|].
  rewrite <- Hsum. clear Hsum Hlv Hanch.
  set (lv := map summary (clusters (sort Qltb candidates))) in *.
  clearbody lv.
  induction Hpos as [|l lv Hl _ IH]; [cbn; lia|].
  change (list_sum (map snd (l :: lv)))
    with (snd l + list_sum (map snd lv))%nat.
  cbn [length]. lia.
Qed.

(* ------------------------------------------------------------------ *)
(** ** What the selection takes and what it leaves                     *)
(* ------------------------------------------------------------------ *)

Lemma sorted_app_inv (A : Type) (R : A -> A -> Prop) (l1 l2 : list A) :
  StronglySorted R (l1 ++ l2) ->
  forall a b, In a l1 -> In b l2 -> R a b.
Proof.
  induction l1 as [|x l1 IH]; intros Hs a b Ha Hb; [destruct Ha|].
  cbn [app] in Hs. inversion Hs as [|? ? Hs' Hx]; subst.
  destruct Ha as [<- | Ha]; [|now apply IH].
  rewrite Forall_forall in Hx. apply Hx, in_or_app. now right.
Qed.

(** X8.  The levels the selection leaves out are, each of them, at or
    below every level it takes, and nothing is left out unless three are
    taken: the selection holds [min 3 n] of the [n] levels below the
    current price, and a returned plan has as many entries. *)
Theorem nearest_three_taken (lv : list Level) (cp yh : Q) :
  exists left_out,
    Permutation (top_3 lv cp ++ left_out) (waiting lv cp) /\
    (forall a b, In a (top_3 lv cp) -> In b left_out -> fst b <= fst a) /\
    (left_out <> [] -> length (top_3 lv cp) = 3%nat) /\
    length (top_3 lv cp) = Nat.min 3 (length (waiting lv cp)) /\
    (forall st plan, build_plan lv cp yh = Ok (st, plan) ->
                     length plan = Nat.min 3 (length (waiting lv cp))).
Proof.
  set (ranked := by_price_desc (waiting lv cp)).
  assert (Hp : Permutation ranked (waiting lv cp))
    by apply by_price_desc_perm.
  assert (Hs : StronglySorted (fun a b : Level => fst b <= fst a) ranked)
    by apply by_price_desc_sorted.
  assert (Hlen : length (top_3 lv cp) = Nat.min 3 (length (waiting lv cp))).
  { unfold top_3. fold ranked.
    now rewrite length_firstn, (Permutation_length Hp). }
  exists (skipn 3 ranked). unfold top_3 at 1 2 3. fold ranked.
  split; [now rewrite firstn_skipn|]. split; [|split; [|split]].
  - intros a b Ha Hb. rewrite <- (firstn_skipn 3 ranked) in Hs.
    exact (sorted_app_inv _ _ Hs a b Ha Hb).
  - intros Hne. rewrite length_firstn.
    assert (length (skipn 3 ranked) <> 0)%nat
      by (destruct (skipn 3 ranked); [contradiction | discriminate]).
    rewrite length_skipn in *. lia.
  - exact Hlen.
  - intros st plan Hok. apply build_plan_ok in Hok as [-> _].
    now rewrite length_map, length_enumerate.
Qed.

(* ------------------------------------------------------------------ *)
(** ** Percentages along the plan                                      *)
(* ------------------------------------------------------------------ *)

Lemma share_of_price_antitone (c p q : Q) :
  0 < c -> q <= p -> (c - p) / c * 100 <= (c - q) / c * 100.
Proof.
  intros Hc Hqp. apply Qmult_le_compat_r; [|lra].
  unfold Qdiv. apply Qmult_le_compat_r; [lra|].
  apply Qinv_le_0_compat. lra.
Qed.

Lemma plan_sorted_by (cp yh : Q) (total : nat) (field : BuyLevel -> Q)
  (f : Q -> Q) (items : list (nat * Level)) :
  (forall il, field (entry cp yh total il) = f (fst (snd il))) ->
  (forall p q, q <= p -> f p <= f q) ->
  StronglySorted (fun a b : Level => fst b <= fst a) (map snd items) ->
  StronglySorted (fun a b => field a <= field b)
                 (map (entry cp yh total) items).
Proof.
  intros Hfield Hanti. induction items as [|il items IH]; cbn [map];
    intros Hs; [constructor|].
  inversion Hs as [|? ? Hs' Hall]; subst.
  constructor; [now apply IH|].
  rewrite Forall_forall in *. intros b Hb.
  apply in_map_iff in Hb as (jl & <- & Hj).
  rewrite !Hfield. apply Hanti. apply (Hall (snd jl)). now apply in_map.
Qed.

Lemma top_3_sorted (lv : list Level) (cp : Q) :
  StronglySorted (fun a b : Level => fst b <= fst a) (top_3 lv cp).
Proof. apply sorted_firstn, by_price_desc_sorted. Qed.

(** X9.  With a positive current price and a positive year high, the
    gap from the current price and the discount from the high never
    decrease from one entry of the plan to the next. *)
Theorem percentages_grow_with_rank (lv : list Level) (cp yh : Q)
  (st : Status) (plan : list BuyLevel) :
  build_plan lv cp yh = Ok (st, plan) -> 0 < cp -> 0 < yh ->
  StronglySorted (fun a b => gap_from_current_pct a
                             <= gap_from_current_pct b) plan /\
  StronglySorted (fun a b => discount_from_high_pct a
                             <= discount_from_high_pct b) plan.
Proof.
  intros Hok Hc Hy. apply build_plan_ok in Hok as [-> _].
  pose proof (top_3_sorted lv cp) as Hs.
  rewrite <- (map_snd_enumerate (top_3 lv cp)) in Hs.
  split.
  - apply plan_sorted_by
      with (f := fun p => round2 ((cp - p) / cp * 100)); [| |exact Hs].
    + now intros [i [p c]].
    + intros p q Hqp. now apply round2_mono, share_of_price_antitone.
  - apply plan_sorted_by
      with (f := fun p => round2 ((yh - p) / yh * 100)); [| |exact Hs].
    + now intros [i [p c]].
    + intros p q Hqp. now apply round2_mono, share_of_price_antitone.
Qed.

Lemma percentages_grow_with_rank_witness :
  StronglySorted (fun a b => gap_from_current_pct a
                             <= gap_from_current_pct b) example_plan /\
  StronglySorted (fun a b => discount_from_high_pct a
                             <= discount_from_high_pct b) example_plan.
Proof.
  apply (@percentages_grow_with_rank example_levels 100 120
           FoundStrategicLevels); reflexivity.
Defined.

Lemma in_enumerate (A : Type) (l : list A) (il : nat * A) :
  In il (enumerate l) -> In (snd il) l.
Proof.
  intros H. rewrite <- (map_snd_enumerate l). now apply in_map.
Qed.

(* ------------------------------------------------------------------ *)
(** ** Bounds on the weights                                           *)
(* ------------------------------------------------------------------ *)

Lemma of_nat_le (a b : nat) : (a <= b)%nat -> of_nat a <= of_nat b.
Proof. intros H. unfold of_nat. rewrite <- Zle_Qle. lia. Qed.

Lemma share_at_most_100 (c total : nat) :
  (c <= total)%nat -> total <> 0%nat ->
  of_nat c / of_nat total * 100 <= 100.
Proof.
  intros Hc Ht.
  assert (Hpos : 0 < of_nat total).
  { destruct total as [|n]; [contradiction | apply of_nat_S_pos]. }
  assert (H : of_nat c / of_nat total <= 1).
  { apply Qle_shift_div_r; [exact Hpos|].
    rewrite Qmult_1_l. now apply of_nat_le. }
  set (s := of_nat c / of_nat total) in *. clearbody s. lra.
Qed.

(** X11.  No weight of a returned plan exceeds one hundred, and the
    weight of a plan with a single entry is one hundred. *)
Theorem weights_at_most_100 (lv : list Level) (cp yh : Q)
  (st : Status) (plan : list BuyLevel) :
  build_plan lv cp yh = Ok (st, plan) ->
  Forall (fun b => (weight_percent b <= 100)%Z) plan /\
  (forall b, plan = [b] -> weight_percent b = 100%Z).
Proof.
  intros Hok. apply build_plan_ok in Hok as [Hplan Hdiv].
  split.
  - apply Forall_forall. intros b Hb.
    assert (Hne : plan <> []) by (intros ->; destruct Hb).
    destruct (Hdiv Hne) as (Ht & _). rewrite Hplan in Hb.
    apply in_map_iff in Hb as (il & <- & Hil).
    rewrite entry_weight.
    apply Z.le_trans with (round 100); [|discriminate].
    apply round_mono, share_at_most_100; [|exact Ht].
    apply in_enumerate in Hil. unfold total_strength.
    destruct (fold_left_add_ge (map snd (top_3 lv cp)) 0) as [_ Hall].
    apply Hall. now apply in_map.
  - intros b Hb.
    assert (Hne : plan <> []) by (rewrite Hb; discriminate).
    destruct (Hdiv Hne) as (Ht & _). rewrite Hb in Hplan.
    destruct (top_3 lv cp) as [|[p c] [|l rest]] eqn:E;
      cbn in Hplan; try discriminate.
    injection Hplan as ->. cbn [weight_percent].
    change (total_strength [(p, c)]) with c in Ht.
    transitivity (round 100); [apply round_comp | reflexivity].
    unfold Qdiv. rewrite Qmult_inv_r; [ring | now apply of_nat_nonzero].
Qed.

Lemma weights_at_most_100_witness :
  Forall (fun b => (weight_percent b <= 100)%Z) example_plan /\
  (forall b, example_plan = [b] -> weight_percent b = 100%Z).
Proof.
  apply (@weights_at_most_100 example_levels 100 120 FoundStrategicLevels).
  reflexivity.
Defined.

(* ------------------------------------------------------------------ *)
(** ** Clustering and the order of the candidates                      *)
(* ------------------------------------------------------------------ *)

Lemma Forall2_Qeq_refl (l : list Q) : Forall2 Qeq l l.
Proof. induction l; constructor; [reflexivity | assumption]. Qed.

Lemma Forall2_Qeq_trans (l1 l2 l3 : list Q) :
  Forall2 Qeq l1 l2 -> Forall2 Qeq l2 l3 -> Forall2 Qeq l1 l3.
Proof.
  intros H. revert l3. induction H as [|a b l1 l2 Hab _ IH]; intros l3 H23;
    inversion H23 as [|? c ? l3' Hbc H23']; subst; constructor.
  - now rewrite Hab.
  - now apply IH.
Qed.

(** Inserting two values in either order gives the same list, up to the
    order of two values that are equal as numbers. *)
Lemma insert_commute (x y : Q) (s : list Q) :
  Forall2 Qeq (insert Qltb y (insert Qltb x s))
              (insert Qltb x (insert Qltb y s)).
Proof.
  induction s as [|z s IH].
  - cbn [insert].
    destruct (Qltb x y) eqn:Exy, (Qltb y x) eqn:Eyx;
      try apply Forall2_Qeq_refl.
    + apply Qltb_lt in Exy, Eyx. lra.
    + apply Qltb_ge in Exy, Eyx.
      constructor; [lra|]. constructor; [lra|]. constructor.
  - cbn [insert].
    destruct (Qltb z x) eqn:Ezx, (Qltb z y) eqn:Ezy; cbn [insert];
      rewrite ?Ezx, ?Ezy.
    + constructor; [reflexivity | exact IH].
    + assert (Hyx : Qltb y x = true).
      { apply Qltb_lt in Ezx. apply Qltb_ge in Ezy. apply Qltb_lt. lra. }
      rewrite Hyx. cbn [insert]. rewrite ?Ezx. apply Forall2_Qeq_refl.
    + assert (Hxy : Qltb x y = true).
      { apply Qltb_lt in Ezy. apply Qltb_ge in Ezx. apply Qltb_lt. lra. }
      rewrite Hxy. cbn [insert]. rewrite ?Ezy. apply Forall2_Qeq_refl.
    + destruct (Qltb x y) eqn:Exy, (Qltb y x) eqn:Eyx; cbn [insert];
        rewrite ?Ezx, ?Ezy; try apply Forall2_Qeq_refl.
      * apply Qltb_lt in Exy, Eyx. lra.
      * apply Qltb_ge in Exy, Eyx.
        constructor; [lra|]. constructor; [lra|]. apply Forall2_Qeq_refl.
Qed.

Lemma sort_permuted (l l' : list Q) :
  Permutation l l' -> Forall2 Qeq (sort Qltb l) (sort Qltb l').
Proof.
  induction 1 as [|x l l' _ IH|x y l|l l' l'' _ IH1 _ IH2].
  - constructor.
  - cbn. apply related_insert with (E := Qeq);
      [intros; now apply Qltb_comp | reflexivity | exact IH].
  - cbn. apply insert_commute.
  - now apply Forall2_Qeq_trans with (sort Qltb l').
Qed.

(** X12.  The levels depend on the candidates as a collection, not on the
    order in which the scan met them: two lists of the same candidates
    give levels with the same averages and strengths. *)
Theorem clustering_order_independent (candidates candidates' : list Q) :
  Permutation candidates candidates' ->
  exists lv lv',
    consolidated candidates = Ok lv /\
    consolidated candidates' = Ok lv' /\
    Forall2 same_level lv lv'.
Proof.
  intros Hp. rewrite !consolidated_summary. do 2 eexists.
  split; [reflexivity|]. split; [reflexivity|].
  assert (Hg : Forall2 (Forall2 Qeq) (clusters (sort Qltb candidates))
                 (clusters (sort Qltb candidates'))).
  { apply related_clusters with (n := length (sort Qltb candidates));
      [lia | now apply sort_permuted]. }
  induction Hg as [|g g' gs gs' Hgg _ IH]; cbn [map]; constructor.
  - now apply related_summary.
  - exact IH.
Qed.

Lemma clustering_order_independent_witness :
  exists lv lv',
    consolidated [8; 5; 8] = Ok lv /\
    consolidated [5; 8; 8] = Ok lv' /\
    Forall2 same_level lv lv'.
Proof.
  apply (@clustering_order_independent [8; 5; 8] [5; 8; 8]).
  apply perm_trans with [5; 8; 8]; [apply perm_swap | reflexivity].
Defined.

(* ------------------------------------------------------------------ *)
(** ** The response on a well-formed frame                             *)
(* ------------------------------------------------------------------ *)

(* ================================================================== *)
(** * Properties of the stages on binary64 numbers                     *)
(* ================================================================== *)

(* ------------------------------------------------------------------ *)
(** ** The order of binary64 numbers                                   *)
(* ------------------------------------------------------------------ *)

Module B64Order.
Import PrimFloat SpecFloat B64.
Local Open Scope Z_scope.

Lemma SFcompare_lex (f1 f2 : spec_float) :
  f1 <> S754_nan -> f2 <> S754_nan ->
  SFcompare f1 f2 = Some (lex (key f1) (key f2)).
Proof.
  intros H1 H2.
  destruct f1 as [s1|s1| |s1 m1 e1], f2 as [s2|s2| |s2 m2 e2];
    try congruence; try (destruct s1); try (destruct s2); try reflexivity.
  cbn. rewrite Z.compare_opp, (Z.compare_antisym e1 e2).
  destruct (e1 ?= e2); reflexivity.
Qed.

Lemma lex_antisym (a b : Z * Z * Z) : lex b a = CompOpp (lex a b).
Proof.
  destruct a as [[a1 a2] a3], b as [[b1 b2] b3]. unfold lex.
  rewrite (Z.compare_antisym a1 b1), (Z.compare_antisym a2 b2),
    (Z.compare_antisym a3 b3).
  destruct (a1 ?= b1), (a2 ?= b2), (a3 ?= b3); reflexivity.
Qed.

Lemma lex_refl (a : Z * Z * Z) : lex a a = Eq.
Proof.
  destruct a as [[a1 a2] a3]. unfold lex. now rewrite !Z.compare_refl.
Qed.

Lemma lex_le_trans (a b c : Z * Z * Z) :
  lex a b <> Gt -> lex b c <> Gt -> lex a c <> Gt.
Proof.
  destruct a as [[a1 a2] a3], b as [[b1 b2] b3], c as [[c1 c2] c3].
  unfold lex.
  destruct (Z.compare_spec a1 b1), (Z.compare_spec b1 c1),
    (Z.compare_spec a1 c1); try congruence; try lia;
  destruct (Z.compare_spec a2 b2), (Z.compare_spec b2 c2),
    (Z.compare_spec a2 c2); try congruence; try lia;
  destruct (Z.compare_spec a3 b3), (Z.compare_spec b3 c3),
    (Z.compare_spec a3 c3); try congruence; lia.
Qed.

Local Open Scope float_scope.

Lemma number_is_nan (x : float) : is_nan x = false <-> number x.
Proof.
  unfold is_nan, number. rewrite FloatAxioms.eqb_spec. unfold SFeqb.
  destruct (FloatOps.Prim2SF x) eqn:E;
    try (rewrite SFcompare_lex, lex_refl by congruence; cbn;
         split; [congruence | reflexivity]).
  cbn. split; [discriminate | congruence].
Qed.

Lemma leb_lex (x y : float) :
  (x <=? y) = true <->
  number x /\ number y /\
  lex (key (FloatOps.Prim2SF x)) (key (FloatOps.Prim2SF y)) <> Gt.
Proof.
  rewrite FloatAxioms.leb_spec. unfold SFleb, number.
  destruct (FloatOps.Prim2SF x) eqn:Ex; destruct (FloatOps.Prim2SF y) eqn:Ey;
    try (cbn; split; [discriminate | intros (H1 & H2 & _); congruence]);
    (rewrite SFcompare_lex by congruence;
     destruct (lex _ _);
     (split;
      [ intros H; try discriminate; repeat split; congruence
      | intros (_ & _ & H); congruence ])).
Qed.

Lemma ltb_lex (x y : float) :
  (x <? y) = true <->
  number x /\ number y /\
  lex (key (FloatOps.Prim2SF x)) (key (FloatOps.Prim2SF y)) = Lt.
Proof.
  rewrite FloatAxioms.ltb_spec. unfold SFltb, number.
  destruct (FloatOps.Prim2SF x) eqn:Ex; destruct (FloatOps.Prim2SF y) eqn:Ey;
    try (cbn; split; [discriminate | intros (H1 & H2 & _); congruence]);
    (rewrite SFcompare_lex by congruence;
     destruct (lex _ _);
     (split;
      [ intros H; try discriminate; repeat split; congruence
      | intros (_ & _ & H); congruence ])).
Qed.

Lemma leb_trans (x y z : float) :
  (x <=? y) = true -> (y <=? z) = true -> (x <=? z) = true.
Proof.
  rewrite !leb_lex. intros (Hx & Hy & Hxy) (_ & Hz & Hyz).
  repeat split; try assumption. now apply lex_le_trans with (2 := Hyz).
Qed.

Lemma leb_refl (x : float) : is_nan x = false -> (x <=? x) = true.
Proof.
  rewrite number_is_nan, leb_lex. intros H. repeat split; try assumption.
  rewrite lex_refl. discriminate.
Qed.

Lemma ltb_leb (x y : float) : (x <? y) = true -> (x <=? y) = true.
Proof.
  rewrite ltb_lex, leb_lex. intros (Hx & Hy & H).
  repeat split; try assumption. rewrite H. discriminate.
Qed.

(** Two numbers compare one way or the other. *)
Lemma ltb_false_leb (x y : float) :
  is_nan x = false -> is_nan y = false ->
  (x <? y) = false -> (y <=? x) = true.
Proof.
  rewrite !number_is_nan. intros Hx Hy H.
  apply leb_lex. repeat split; try assumption.
  rewrite lex_antisym. intros Hc.
  assert (Hlt : (x <? y) = true).
  { apply ltb_lex. repeat split; try assumption.
    destruct (lex _ _); try discriminate. reflexivity. }
  congruence.
Qed.

Lemma ltb_not_leb (x y : float) : (x <? y) = true -> (y <=? x) = false.
Proof.
  intros H. apply ltb_lex in H as (Hx & Hy & H).
  destruct (y <=? x) eqn:E; [|reflexivity].
  apply leb_lex in E as (_ & _ & E). rewrite lex_antisym, H in E.
  now destruct E.
Qed.

Lemma leb_false_ltb (x y : float) :
  is_nan x = false -> is_nan y = false ->
  (x <=? y) = false -> (y <? x) = true.
Proof.
  rewrite !number_is_nan. intros Hx Hy H.
  apply ltb_lex. repeat split; try assumption.
  rewrite lex_antisym.
  destruct (lex (key (FloatOps.Prim2SF x)) (key (FloatOps.Prim2SF y))) eqn:E;
    try reflexivity; exfalso;
    (assert (Hle : (x <=? y) = true)
       by (apply leb_lex; repeat split; try assumption; rewrite E;
           discriminate));
    congruence.
Qed.

Lemma ltb_number (x y : float) :
  (x <? y) = true -> is_nan x = false /\ is_nan y = false.
Proof.
  rewrite !number_is_nan, ltb_lex. tauto.
Qed.

Lemma leb_number (x y : float) :
  (x <=? y) = true -> is_nan x = false /\ is_nan y = false.
Proof.
  rewrite !number_is_nan, leb_lex. tauto.
Qed.
End B64Order.

(* ------------------------------------------------------------------ *)
(** ** Sorting keys that are ordered only where they are numbers       *)
(* ------------------------------------------------------------------ *)

Section SortOn.
Variable A : Type.
Variable lt : A -> A -> bool.
Variable le : A -> A -> Prop.
Variable ordered : A -> Prop.
Hypothesis le_trans : forall x y z, le x y -> le y z -> le x z.
Hypothesis lt_le : forall x y, lt x y = true -> le x y.
Hypothesis ge_le :
  forall x y, ordered x -> ordered y -> lt x y = false -> le y x.

Lemma insert_sorted_on (x : A) (l : list A) :
  ordered x -> Forall ordered l ->
  StronglySorted le l -> StronglySorted le (insert lt x l).
Proof.
  intros Hx Hl Hs. induction Hs as [|y l Hs IH Hy]; cbn [insert].
  - repeat constructor.
  - inversion Hl as [|? ? Hoy Hol]; subst.
    destruct (lt y x) eqn:E.
    + constructor; [now apply IH|].
      eapply Permutation_Forall; [symmetry; apply insert_perm|].
      constructor; [now apply lt_le | exact Hy].
    + apply ge_le in E; try assumption.
      constructor; [now constructor|].
      constructor; [exact E|].
      eapply Forall_impl; [|exact Hy]. intros z Hz. now apply le_trans with y.
Qed.

Lemma sort_sorted_on (l : list A) :
  Forall ordered l -> StronglySorted le (sort lt l).
Proof.
  induction 1 as [|x l Hx Hl IH]; cbn; [constructor|].
  apply insert_sorted_on; try assumption.
  eapply Permutation_Forall; [symmetry; apply sort_perm|]. exact Hl.
Qed.
End SortOn.

Lemma filter_split_sorted (A : Type) (le : A -> A -> Prop) (p : A -> bool)
  (l : list A) :
  (forall x y, le x y -> p y = true -> p x = true) ->
  StronglySorted le l ->
  filter p l ++ filter (fun x => negb (p x)) l = l.
Proof.
  intros Hdown. induction 1 as [|x l Hs IH Hx]; cbn [filter]; [reflexivity|].
  destruct (p x) eqn:E; cbn [negb app].
  - now rewrite IH.
  - assert (Hnone : forall y, In y l -> p y = false).
    { intros y Hy. rewrite Forall_forall in Hx.
      destruct (p y) eqn:Ey; [|reflexivity].
      rewrite (Hdown _ _ (Hx y Hy) Ey) in E. discriminate. }
    clear IH Hs Hx E.
    assert (Hboth : filter p l = [] /\ filter (fun x => negb (p x)) l = l).
    { induction l as [|y l IH]; cbn [filter]; [now split|].
      rewrite (Hnone y (or_introl eq_refl)). cbn [negb].
      destruct IH as [IH1 IH2]; [intros z Hz; apply Hnone; now right|].
      split; [exact IH1 | now f_equal]. }
    destruct Hboth as [-> ->]. reflexivity.
Qed.

Lemma filter_partition_perm (A : Type) (p : A -> bool) (l : list A) :
  Permutation (filter p l ++ filter (fun x => negb (p x)) l) l.
Proof.
  induction l as [|x l IH]; cbn [filter]; [constructor|].
  destruct (p x); cbn [negb app].
  - now constructor.
  - rewrite <- Permutation_middle. now constructor.
Qed.

Module B64Facts.
Import PrimFloat B64 B64Order.
Local Open Scope float_scope.

(* ------------------------------------------------------------------ *)
(** ** The scan on binary64 lows                                       *)
(* ------------------------------------------------------------------ *)

(** A low that passes the test of lines 75-78 compared below another
    value, so it is a number. *)
Lemma fractal_low_number (Low : list float) (i : nat) (v : float) :
  fractal_low Low i v = Ok true -> is_nan v = false.
Proof.
  unfold fractal_low, and_then.
  destruct (iloc Low (i - 1)) as [a|e]; cbn [bind]; [|discriminate].
  destruct (v <? a) eqn:E; [|discriminate].
  intros _. now apply ltb_number in E.
Qed.

Lemma scan_numbers (Low : list float) (indices : list nat) :
  forall acc out,
    Forall (fun x => is_nan x = false) acc ->
    scan Low indices acc = Ok out ->
    Forall (fun x => is_nan x = false) out.
Proof.
  induction indices as [|i rest IH]; intros acc out Hacc; cbn [scan].
  - now intros [= <-].
  - destruct (iloc Low i) as [v|e]; cbn [bind]; [|discriminate].
    destruct (fractal_low Low i v) as [[|]|e] eqn:E; cbn [bind];
      [| |discriminate].
    + apply IH. apply Forall_app. split; [exact Hacc|].
      constructor; [|constructor]. now apply fractal_low_number in E.
    + now apply IH.
Qed.

(** The candidates of the scan are numbers, whatever the column holds. *)
Lemma levels_numbers (Low candidates : list float) :
  levels Low = Ok candidates ->
  Forall (fun x => is_nan x = false) candidates.
Proof.
  unfold levels. destruct (5 <? length Low)%nat.
  - now apply scan_numbers.
  - intros [= <-]. constructor.
Qed.

(* ------------------------------------------------------------------ *)
(** ** Clustering on binary64 candidates                               *)
(* ------------------------------------------------------------------ *)

Lemma sort_ltb_sorted (l : list float) :
  Forall (fun x => is_nan x = false) l -> StronglySorted fle (sort ltb l).
Proof.
  apply sort_sorted_on; unfold fle.
  - intros x y z. apply leb_trans.
  - intros x y. apply ltb_leb.
  - intros x y Hx Hy. now apply ltb_false_leb.
Qed.

Lemma within_down_b64 (base x y : float) :
  fle x y -> within base y = true -> within base x = true.
Proof. unfold fle, within. apply leb_trans. Qed.

Lemma while_levels_groups (l : list float) :
  while_levels l =
  map (fun g => (sum g / of_nat (length g), length g)) (clusters l).
Proof.
  funelim (clusters l); simp while_levels; [reflexivity|].
  cbn zeta. cbn [map]. now rewrite H.
Qed.

Lemma groups_concat (l : list float) :
  StronglySorted fle l -> concat (clusters l) = l.
Proof.
  funelim (clusters l); intros Hs; [reflexivity|].
  cbn [concat]. inversion Hs as [|? ? Hs' Hall]; subst.
  rewrite H by now apply sorted_filter.
  cbn [app]. f_equal.
  apply filter_split_sorted with (le := fle); [|exact Hs'].
  intros x y. apply within_down_b64.
Qed.

Lemma groups_perm (l : list float) : Permutation (concat (clusters l)) l.
Proof.
  funelim (clusters l); [constructor|].
  cbn [concat app]. constructor. rewrite H. apply filter_partition_perm.
Qed.

Lemma in_groups (l g : list float) (x : float) :
  In g (clusters l) -> In x g -> In x l.
Proof.
  intros Hg Hx. eapply Permutation_in; [apply groups_perm|].
  apply in_concat. now exists g.
Qed.

Lemma groups_greedy (l : list float) :
  StronglySorted fle l ->
  Forall anchored (clusters l) /\ ForallOrdPairs leaves_behind (clusters l).
Proof.
  funelim (clusters l); intros Hs; [split; constructor|].
  inversion Hs as [|? ? Hs' Hall]; subst. rewrite Forall_forall in Hall.
  destruct H as [IH1 IH2]; [now apply sorted_filter|].
  split; constructor; try assumption.
  - exists base, (filter (within base) levels0). split; [reflexivity|].
    intros x Hx. apply filter_In in Hx as [Hx Hw].
    split; [now apply Hall | exact Hw].
  - apply Forall_forall. intros g' Hg' anchor [= <-] x Hx.
    apply (in_groups _ _ _ Hg') in Hx. apply filter_In in Hx as [Hx Hw].
    split; [now apply Hall|].
    now apply negb_true_iff in Hw.
Qed.

(** C2.  Clustering works on the candidates sorted ascending by the
    binary64 order.  The groups it forms, concatenated, are that sorted
    list, so they partition the candidates; every group starts with its
    anchor, the smallest value not yet consumed, holds besides it exactly
    the remaining values [x] that pass the test [x <= anchor * 1.05] of
    line 90 (a binary64 product), and leaves to the later groups the
    values that fail it; the level of a group is the binary64 quotient of
    line 96, the left-to-right sum of the group from [0] divided by its
    size, paired with that size; and two members [a < b] of one group
    satisfy [b <= anchor * 1.05].  The candidates are numbers, as the
    scan's always are ([levels_numbers]). *)
Theorem clustering_greedy_partition (candidates : list float) :
  Forall (fun x => is_nan x = false) candidates ->
  let sorted := sort ltb candidates in
  let groups := clusters sorted in
  (StronglySorted (fun x y => (x <=? y) = true) sorted /\
   Permutation sorted candidates) /\
  (concat groups = sorted /\ Permutation (concat groups) candidates) /\
  Forall (fun g => exists anchor rest,
            g = anchor :: rest /\
            forall x, In x rest ->
              (anchor <=? x) = true /\ (x <=? anchor * 1.05) = true) groups /\
  ForallOrdPairs (fun g later =>
            forall anchor, hd_error g = Some anchor ->
            forall x, In x later ->
              (anchor <=? x) = true /\ (x <=? anchor * 1.05) = false) groups /\
  consolidated candidates =
    map (fun g => (fold_left add g 0 / of_uint63 (Uint63.of_Z (Z.of_nat (length g))),
                   length g)) groups /\
  (forall g a b, In g groups -> In a g -> In b g -> (a <? b) = true ->
     exists anchor, hd_error g = Some anchor /\
                    (forall x, In x g -> (anchor <=? x) = true) /\
                    (b <=? anchor * 1.05) = true).
Proof.
  intros Hnum sorted groups.
  assert (Hs : StronglySorted fle sorted) by now apply sort_ltb_sorted.
  assert (Hp : Permutation sorted candidates) by apply sort_perm.
  destruct (groups_greedy Hs) as [Hanch Hlater].
  split; [now split|].
  split; [split; [now apply groups_concat|]|].
  { unfold groups. now rewrite groups_perm. }
  split; [exact Hanch|]. split; [exact Hlater|]. split.
  - unfold consolidated. destruct candidates as [|c cs]; [reflexivity|].
    apply while_levels_groups.
  - intros g a b Hg Ha Hb Hab. rewrite Forall_forall in Hanch.
    destruct (Hanch g Hg) as (anchor & rest & -> & Hrest).
    assert (Hnumg : forall x, In x (anchor :: rest) -> is_nan x = false).
    { intros x Hx. rewrite Forall_forall in Hnum. apply Hnum.
      eapply Permutation_in; [exact Hp|].
      now apply (in_groups _ _ _ Hg). }
    exists anchor. split; [reflexivity|].
    split.
    + intros x [<- | Hx]; [apply leb_refl, Hnumg; now left | now apply Hrest].
    + destruct Hb as [<- | Hb]; [|now apply Hrest].
      exfalso. destruct Ha as [<- | Ha].
      * apply ltb_not_leb in Hab. rewrite leb_refl in Hab; [discriminate|].
        apply Hnumg. now left.
      * destruct (Hrest a Ha) as [Hle _].
        apply ltb_not_leb in Hab. unfold fle in Hle. congruence.
Qed.

Lemma clustering_greedy_partition_witness :
  consolidated [1; 1.05; 0.35; 0.35; 0.35; 2] =
    [(0.34999999999999992, 3%nat); (1.0249999999999999, 2%nat); (2, 1%nat)].
Proof.
  pose proof (@clustering_greedy_partition [1; 1.05; 0.35; 0.35; 0.35; 2])
    as H.
  assert (Hn : Forall (fun x => is_nan x = false)
                 [1; 1.05; 0.35; 0.35; 0.35; 2])
    by (repeat constructor).
  destruct (H Hn) as (_ & _ & _ & _ & Heq & _).
  rewrite Heq. vm_compute. reflexivity.
Defined.
End B64Facts.

(* ------------------------------------------------------------------ *)
(** ** Rounding in binary64                                            *)
(* ------------------------------------------------------------------ *)

Module B64Round.
Import PrimFloat SpecFloat B64 B64Order.
Local Open Scope Z_scope.

Abbreviation prec := FloatOps.prec.
Abbreviation emax := FloatOps.emax.

(** *** Shifting a mantissa *)

Lemma digits2_size (m : positive) : digits2_pos m = Pos.size m.
Proof. induction m; cbn; congruence. Qed.

Lemma digits2_bounds (m : positive) :
  2 ^ (Z.pos (digits2_pos m) - 1) <= Z.pos m < 2 ^ Z.pos (digits2_pos m).
Proof.
  rewrite digits2_size. split.
  - pose proof (Pos.size_le m) as H.
    assert (H2 : 2 ^ Z.pos (Pos.size m) <= 2 * Z.pos m).
    { rewrite <- Pos2Z.inj_pow. lia. }
    replace (Z.pos (Pos.size m)) with (Z.pos (Pos.size m) - 1 + 1) in H2 by lia.
    rewrite Z.pow_add_r in H2 by lia. lia.
  - pose proof (Pos.size_gt m) as H. rewrite <- Pos2Z.inj_pow. lia.
Qed.

Lemma digits2_unique (m : positive) (d : Z) :
  2 ^ (d - 1) <= Z.pos m < 2 ^ d -> Z.pos (digits2_pos m) = d.
Proof.
  intros [Hlo Hhi]. pose proof (digits2_bounds m) as [Hlo' Hhi'].
  assert (Hd : 0 < d).
  { destruct (Z.ltb_spec 0 d) as [H|H]; [exact H|].
    destruct (Z.eqb_spec d 0) as [->|Hne].
    - cbn in Hhi. lia.
    - rewrite Z.pow_neg_r in Hhi by lia. lia. }
  destruct (Z.lt_trichotomy (Z.pos (digits2_pos m)) d) as [H | [H | H]];
    [|exact H|]; exfalso.
  - assert (2 ^ Z.pos (digits2_pos m) <= 2 ^ (d - 1))
      by (apply Z.pow_le_mono_r; lia). lia.
  - assert (2 ^ d <= 2 ^ (Z.pos (digits2_pos m) - 1))
      by (apply Z.pow_le_mono_r; lia). lia.
Qed.

Lemma shr_1_m (r : shr_record) :
  0 <= shr_m r -> shr_m (shr_1 r) = Z.div2 (shr_m r).
Proof.
  destruct r as [m b s]. cbn [shr_m]. intros Hm.
  destruct m as [|[p|p|]|p]; try reflexivity; lia.
Qed.

Lemma iter_shr_1_m (p : positive) :
  forall r, 0 <= shr_m r ->
    shr_m (iter_pos shr_1 p r) = Z.shiftr (shr_m r) (Z.pos p).
Proof.
  induction p as [p IH|p IH|]; intros r Hr; cbn [iter_pos].
  - assert (H1 : 0 <= shr_m (shr_1 r)).
    { rewrite shr_1_m by exact Hr. apply Z.div2_nonneg, Hr. }
    rewrite IH.
    + rewrite IH by exact H1. rewrite shr_1_m by exact Hr.
      rewrite Z.div2_spec, !Z.shiftr_shiftr by lia. f_equal. lia.
    + rewrite IH by exact H1. apply Z.shiftr_nonneg, H1.
  - rewrite IH.
    + rewrite IH by exact Hr. rewrite Z.shiftr_shiftr by lia. f_equal. lia.
    + rewrite IH by exact Hr. apply Z.shiftr_nonneg, Hr.
  - rewrite shr_1_m by exact Hr. apply Z.div2_spec.
Qed.

(** The mantissa and exponent after [shr]: the mantissa is divided by the
    power of two the exponent gains. *)
Lemma shr_m_e (r : shr_record) (e n : Z) :
  0 <= shr_m r ->
  shr_m (fst (shr r e n)) = shr_m r / 2 ^ Z.max 0 n /\
  snd (shr r e n) = e + Z.max 0 n.
Proof.
  intros Hr. unfold shr. destruct n as [|p|p]; cbn [fst snd].
  - rewrite Z.max_l by lia. cbn. rewrite Z.div_1_r. split; [reflexivity|lia].
  - rewrite Z.max_r by lia. rewrite iter_shr_1_m by exact Hr.
    rewrite Z.shiftr_div_pow2 by lia. split; reflexivity.
  - rewrite Z.max_l by lia. cbn. rewrite Z.div_1_r. split; [reflexivity|lia].
Qed.

Lemma shr_record_of_loc_m (m : Z) (l : location) :
  shr_m (shr_record_of_loc m l) = m.
Proof. destruct l as [|[| |]]; reflexivity. Qed.

Lemma round_nearest_even_cases (m : Z) (l : location) :
  round_nearest_even m l = m \/ round_nearest_even m l = m + 1.
Proof.
  destruct l as [|[| |]]; cbn; auto. destruct (Z.even m); auto.
Qed.

(** *** No operation invents a NaN *)

Lemma binary_round_aux_number (s : bool) (m e : Z) (l : location) :
  0 <= m -> binary_round_aux prec emax s m e l <> S754_nan.
Proof.
  intros Hm. unfold binary_round_aux, shr_fexp.
  set (r1 := shr_record_of_loc m l).
  set (n1 := fexp prec emax (Zdigits2 m + e) - e).
  destruct (shr r1 e n1) as [mrs' e'] eqn:E1.
  assert (H1 : 0 <= shr_m mrs').
  { pose proof (shr_m_e r1 e n1) as [Hs _].
    { unfold r1. now rewrite shr_record_of_loc_m. }
    rewrite E1 in Hs. cbn [fst] in Hs. rewrite Hs.
    apply Z.div_pos; [|apply Z.pow_pos_nonneg; lia].
    unfold r1. now rewrite shr_record_of_loc_m. }
  set (m2 := round_nearest_even (shr_m mrs') (loc_of_shr_record mrs')).
  assert (H2 : 0 <= m2).
  { unfold m2.
    destruct (round_nearest_even_cases (shr_m mrs') (loc_of_shr_record mrs'))
      as [-> | ->]; lia. }
  set (n2 := fexp prec emax (Zdigits2 m2 + e') - e').
  destruct (shr (shr_record_of_loc m2 loc_Exact) e' n2) as [mrs'' e''] eqn:E2.
  assert (H3 : 0 <= shr_m mrs'').
  { pose proof (shr_m_e (shr_record_of_loc m2 loc_Exact) e' n2) as [Hs _].
    { now rewrite shr_record_of_loc_m. }
    rewrite E2 in Hs. cbn [fst] in Hs. rewrite Hs.
    apply Z.div_pos; [|apply Z.pow_pos_nonneg; lia].
    now rewrite shr_record_of_loc_m. }
  destruct (shr_m mrs'') as [|p|p]; try discriminate; [|lia].
  destruct (e'' <=? emax - prec); discriminate.
Qed.

Lemma binary_normalize_number (m e : Z) (s : bool) :
  binary_normalize prec emax m e s <> S754_nan.
Proof.
  unfold binary_normalize, binary_round.
  destruct m as [|p|p]; [discriminate| |];
    destruct (shl_align _ _ _) as [mz ez];
    apply binary_round_aux_number; lia.
Qed.

(** *** Rounding a mantissa of at least 53 digits

    In the normal range the result is finite, its exponent is not below
    the one given, and it is within one part in [2^52] of the mantissa
    given; it is that mantissa when nothing has to be dropped. *)
Lemma fexp_normal (e : Z) :
  -1074 <= e - 53 -> fexp prec emax e = e - 53.
Proof. intros H. unfold fexp, emin, FloatOps.prec, FloatOps.emax. lia. Qed.

Lemma binary_round_aux_finite (s : bool) (mx : positive) (ex : Z)
  (lx : location) :
  let d := Z.pos (digits2_pos mx) in
  53 <= d -> -1074 <= d + ex - 53 -> d + ex <= 1023 ->
  exists m' e',
    binary_round_aux prec emax s (Z.pos mx) ex lx = S754_finite s m' e' /\
    2 ^ 52 <= Z.pos m' < 2 ^ 53 /\
    d + ex - 53 <= e' <= d + ex - 52 /\
    2 ^ 52 * Z.abs (Z.pos m' * 2 ^ (e' - ex) - Z.pos mx) <= Z.pos mx /\
    (lx = loc_Exact -> d = 53 -> m' = mx /\ e' = ex).
Proof.
  intros d Hd Hlo Hhi.
  pose proof (digits2_bounds mx) as [Hmlo Hmhi]. fold d in Hmlo, Hmhi.
  unfold binary_round_aux, shr_fexp.
  cbn [Zdigits2]. fold d. rewrite fexp_normal by lia.
  set (n1 := d + ex - 53 - ex).
  assert (Hn1 : n1 = d - 53) by (unfold n1; lia).
  pose proof (shr_m_e (shr_record_of_loc (Z.pos mx) lx) ex n1) as [Hm1 He1].
  { rewrite shr_record_of_loc_m. lia. }
  destruct (shr (shr_record_of_loc (Z.pos mx) lx) ex n1) as [mrs' e1] eqn:E1.
  cbn [fst snd] in Hm1, He1. rewrite shr_record_of_loc_m in Hm1.
  rewrite Z.max_r in Hm1, He1 by lia.
  set (m1 := shr_m mrs') in *.
  assert (Hpow : 2 ^ d = 2 ^ 53 * 2 ^ n1).
  { rewrite <- Z.pow_add_r by lia. f_equal. lia. }
  assert (Hpow' : 2 ^ (d - 1) = 2 ^ 52 * 2 ^ n1).
  { rewrite <- Z.pow_add_r by lia. f_equal. lia. }
  assert (Hp1 : 0 < 2 ^ n1) by (apply Z.pow_pos_nonneg; lia).
  assert (Hdiv : m1 * 2 ^ n1 <= Z.pos mx < (m1 + 1) * 2 ^ n1).
  { rewrite Hm1.
    pose proof (Z.div_mod (Z.pos mx) (2 ^ n1) ltac:(lia)) as Hdm.
    pose proof (Z.mod_pos_bound (Z.pos mx) (2 ^ n1) Hp1). nia. }
  assert (Hm1b : 2 ^ 52 <= m1 < 2 ^ 53) by nia.
  set (m2 := round_nearest_even m1 (loc_of_shr_record mrs')).
  assert (Hm2 : m2 = m1 \/ m2 = m1 + 1) by apply round_nearest_even_cases.
  assert (Hexact : lx = loc_Exact -> d = 53 -> m2 = Z.pos mx /\ e1 = ex).
  { intros -> Hd53. assert (Hz : n1 = 0) by lia.
    rewrite Hz in E1. cbn in E1. injection E1 as <- <-.
    split; reflexivity. }
  destruct (Z.eq_dec m2 (2 ^ 53)) as [Hcarry | Hnocarry].
  - (* the rounding carried into a 54th digit *)
    rewrite Hcarry. change (2 ^ 53) with (Z.pos (2 ^ 53)).
    cbn [Zdigits2].
    replace (Z.pos (digits2_pos (2 ^ 53))) with 54 by reflexivity.
    rewrite fexp_normal by lia.
    pose proof (shr_m_e (shr_record_of_loc (Z.pos (2 ^ 53)) loc_Exact) e1
                  (54 + e1 - 53 - e1)) as [Hm3 He3]; [cbn; lia|].
    destruct (shr _ e1 (54 + e1 - 53 - e1)) as [mrs'' e3].
    cbn [fst snd] in Hm3, He3.
    replace (Z.max 0 (54 + e1 - 53 - e1)) with 1 in Hm3, He3 by lia.
    rewrite Hm3. cbn [shr_record_of_loc shr_m].
    change (Z.pos (2 ^ 53) / 2 ^ 1) with (Z.pos (2 ^ 52)). cbn iota.
    assert (Hle : (e3 <=? emax - prec) = true) by (apply Z.leb_le; cbn; lia).
    rewrite Hle. exists (2 ^ 52)%positive, e3.
    split; [reflexivity|]. split; [cbn; lia|]. split; [lia|]. split.
    + replace (e3 - ex) with (n1 + 1) by lia.
      rewrite Z.pow_add_r by lia.
      change (Z.pos (2 ^ 52)) with (2 ^ 52). change (2 ^ 1) with 2.
      assert (m1 = 2 ^ 53 - 1) by lia.
      assert (Habs : Z.abs (2 ^ 52 * (2 ^ n1 * 2) - Z.pos mx) <= 2 ^ n1)
        by (change (2 ^ 53) with (2 ^ 52 * 2) in *; nia).
      nia.
    + intros Hl Hd53. destruct (Hexact Hl Hd53) as [H2 _].
      rewrite H2 in Hcarry. change (2 ^ 53) with (2 ^ 52 * 2) in *. lia.
  - assert (Hm2b : 2 ^ 52 <= m2 < 2 ^ 53) by lia.
    destruct m2 as [|p2|p2] eqn:Ep2; [lia| |lia].
    cbn [Zdigits2].
    rewrite (@digits2_unique p2 53) by (change (53 - 1) with 52; lia).
    rewrite fexp_normal by lia.
    pose proof (shr_m_e (shr_record_of_loc (Z.pos p2) loc_Exact) e1
                  (53 + e1 - 53 - e1)) as [Hm3 He3]; [cbn; lia|].
    destruct (shr _ e1 (53 + e1 - 53 - e1)) as [mrs'' e3].
    cbn [fst snd] in Hm3, He3.
    replace (Z.max 0 (53 + e1 - 53 - e1)) with 0 in Hm3, He3 by lia.
    rewrite Hm3. cbn [shr_record_of_loc shr_m].
    change (2 ^ 0) with 1. rewrite Z.div_1_r.
    assert (Hle : (e3 <=? emax - prec) = true) by (apply Z.leb_le; cbn; lia).
    rewrite Hle. exists p2, e3.
    split; [reflexivity|]. split; [lia|]. split; [lia|]. split.
    + replace (e3 - ex) with n1 by lia.
      assert (Habs : Z.abs (Z.pos p2 * 2 ^ n1 - Z.pos mx) <= 2 ^ n1) by nia.
      nia.
    + intros Hl Hd53. destruct (Hexact Hl Hd53) as [H2 H3].
      split; [congruence | lia].
Qed.
End B64Round.

Module B64Exact.
Import PrimFloat SpecFloat B64 B64Order B64Round.
Local Open Scope Z_scope.

Lemma pos_iter_xO (p k : positive) :
  Z.pos (Pos.iter xO p k) = Z.pos p * 2 ^ Z.pos k.
Proof.
  induction k as [|k IH] using Pos.peano_ind.
  - cbn. lia.
  - rewrite Pos.iter_succ, Pos2Z.inj_succ, Z.pow_succ_r by lia.
    rewrite Pos2Z.inj_xO, IH. lia.
Qed.

(** A mantissa of at most 53 digits is represented as it is, shifted to
    53 digits. *)
Lemma binary_round_exact (s : bool) (p : positive) (ex : Z) :
  let d := Z.pos (digits2_pos p) in
  d <= 53 -> -1074 <= d + ex - 53 -> d + ex <= 1023 ->
  exists m,
    binary_round prec emax s p ex = S754_finite s m (d + ex - 53) /\
    Z.pos m = Z.pos p * 2 ^ (53 - d) /\
    2 ^ 52 <= Z.pos m < 2 ^ 53.
Proof.
  intros d Hd Hlo Hhi.
  pose proof (digits2_bounds p) as [Hplo Hphi]. fold d in Hplo, Hphi.
  assert (Hd0 : 0 < d) by (unfold d; lia).
  unfold binary_round. fold d. rewrite fexp_normal by lia.
  assert (Hshift : exists mz,
             shl_align p ex (d + ex - 53) = (mz, d + ex - 53) /\
             Z.pos mz = Z.pos p * 2 ^ (53 - d)).
  { unfold shl_align. destruct (d + ex - 53 - ex) as [|k|k] eqn:Ek.
    - exists p. assert (d = 53) by lia.
      split; [f_equal; lia|]. replace (53 - d) with 0 by lia. cbn. lia.
    - lia.
    - exists (Pos.iter xO p k). split; [reflexivity|].
      rewrite pos_iter_xO. f_equal. f_equal. lia. }
  destruct Hshift as (mz & -> & Hmz).
  assert (Hpow : 2 ^ (d - 1) * 2 ^ (53 - d) = 2 ^ 52).
  { rewrite <- Z.pow_add_r by lia. f_equal. lia. }
  assert (Hpow' : 2 ^ d * 2 ^ (53 - d) = 2 ^ 53).
  { rewrite <- Z.pow_add_r by lia. f_equal. lia. }
  assert (Hp0 : 0 < 2 ^ (53 - d)) by (apply Z.pow_pos_nonneg; lia).
  assert (Hmzb : 2 ^ 52 <= Z.pos mz < 2 ^ 53) by nia.
  assert (Hdz : Z.pos (digits2_pos mz) = 53)
    by (apply digits2_unique; change (53 - 1) with 52; lia).
  destruct (@binary_round_aux_finite s mz (d + ex - 53) loc_Exact)
    as (m' & e' & Heq & _ & _ & _ & Hex); try (rewrite Hdz; lia).
  destruct (Hex eq_refl Hdz) as [-> ->].
  exists mz. repeat split; try assumption; lia.
Qed.
End B64Exact.

Module B64Value.
Import PrimFloat SpecFloat B64 B64Order B64Round B64Exact.
Local Open Scope Z_scope.

(** *** Integers below [2^53] convert exactly *)

Lemma of_uint63_finite (n : Z) :
  1 <= n < 2 ^ 53 ->
  exists m e,
    FloatOps.Prim2SF (of_uint63 (Uint63.of_Z n)) = S754_finite false m e /\
    2 ^ 52 <= Z.pos m < 2 ^ 53 /\
    -52 <= e <= 0 /\
    Z.pos m = n * 2 ^ (- e).
Proof.
  intros Hc.
  rewrite FloatAxioms.of_uint63_spec, Uint63.of_Z_spec.
  rewrite Z.mod_small
    by (split; [lia|]; apply Z.lt_trans with (2 ^ 53); [lia | reflexivity]).
  destruct n as [|p|p]; [lia| |lia].
  cbn [binary_normalize].
  pose proof (digits2_bounds p) as [Hlo Hhi].
  set (d := Z.pos (digits2_pos p)) in *.
  assert (Hd : 1 <= d <= 53).
  { split; [unfold d; lia|].
    destruct (Z.leb_spec d 53) as [H|H]; [exact H|].
    assert (2 ^ 53 <= 2 ^ (d - 1)) by (apply Z.pow_le_mono_r; lia). lia. }
  destruct (@binary_round_exact false p 0) as (m & Heq & Hm & Hmb);
    fold d; try lia.
  fold d in Heq. exists m, (d + 0 - 53).
  split; [exact Heq|]. split; [exact Hmb|]. split; [lia|].
  rewrite Hm. f_equal. f_equal. lia.
Qed.

Lemma of_nat_finite (c : nat) :
  1 <= Z.of_nat c < 2 ^ 53 ->
  exists m e,
    FloatOps.Prim2SF (of_nat c) = S754_finite false m e /\
    2 ^ 52 <= Z.pos m < 2 ^ 53 /\
    -52 <= e <= 0 /\
    Z.pos m = Z.of_nat c * 2 ^ (- e).
Proof. apply of_uint63_finite. Qed.

(** *** Powers of two as rationals *)

Local Open Scope Q_scope.

Lemma pow2_pos (e : Z) : 0 < 2 ^ e.
Proof. apply Qpower_0_lt. reflexivity. Qed.

Lemma pow2_plus (a b : Z) : 2 ^ (a + b) == 2 ^ a * 2 ^ b.
Proof. apply Qpower_plus. intros H. discriminate H. Qed.

Lemma pow2_inject (k : Z) : (0 <= k)%Z -> inject_Z (2 ^ k) == 2 ^ k.
Proof. intros Hk. now rewrite Zpower_Qpower by assumption. Qed.

(** A mantissa read at a lower exponent. *)
Lemma mantissa_shift (m : positive) (e e0 : Z) :
  (e0 <= e)%Z ->
  inject_Z (Z.pos m) * 2 ^ e == inject_Z (Z.pos m * 2 ^ (e - e0)) * 2 ^ e0.
Proof.
  intros He. rewrite inject_Z_mult, pow2_inject by lia.
  replace e with ((e - e0) + e0)%Z at 1 by lia.
  rewrite pow2_plus. ring.
Qed.

Lemma scale_bounds (a b lo hi t : Q) :
  0 < t -> lo * b <= a <= hi * b -> lo * (b * t) <= a * t <= hi * (b * t).
Proof.
  intros Ht [H1 H2]. split.
  - setoid_replace (lo * (b * t)) with (lo * b * t) by ring.
    apply Qmult_le_compat_r; [exact H1 | now apply Qlt_le_weak].
  - setoid_replace (hi * (b * t)) with (hi * b * t) by ring.
    apply Qmult_le_compat_r; [exact H2 | now apply Qlt_le_weak].
Qed.

(** Within one part in [2^52], as rationals. *)
Lemma close_mantissa (a b : Z) :
  (2 ^ 52 * Z.abs (a - b) <= b)%Z ->
  (1 - (1 # 2 ^ 52)) * inject_Z b <= inject_Z a <=
  (1 + (1 # 2 ^ 52)) * inject_Z b.
Proof.
  intros H.
  assert (H1 : (4503599627370496 * (a - b) <= b)%Z) by lia.
  assert (H2 : (4503599627370496 * (b - a) <= b)%Z) by lia.
  rewrite Zle_Qle in H1, H2. unfold Z.sub in H1, H2.
  rewrite inject_Z_mult, inject_Z_plus, inject_Z_opp in H1, H2.
  change (inject_Z 4503599627370496) with 4503599627370496 in H1, H2.
  change (1 # 2 ^ 52) with (1 # 4503599627370496).
  set (x := inject_Z a) in *. set (y := inject_Z b) in *. clearbody x y.
  lra.
Qed.

(** *** The product of two normal numbers *)

Lemma product_digits (mx my : positive) :
  (2 ^ 52 <= Z.pos mx < 2 ^ 53)%Z -> (2 ^ 52 <= Z.pos my < 2 ^ 53)%Z ->
  (105 <= Z.pos (digits2_pos (mx * my)) <= 106)%Z.
Proof.
  intros Hx Hy. pose proof (digits2_bounds (mx * my)) as [Hlo Hhi].
  set (d := Z.pos (digits2_pos (mx * my))) in *.
  rewrite Pos2Z.inj_mul in Hlo, Hhi.
  assert (Hp : (2 ^ 104 <= Z.pos mx * Z.pos my < 2 ^ 106)%Z).
  { change (2 ^ 104)%Z with (2 ^ 52 * 2 ^ 52)%Z.
    change (2 ^ 106)%Z with (2 ^ 53 * 2 ^ 53)%Z. nia. }
  split.
  - destruct (Z.leb_spec 105 d) as [H|H]; [exact H|].
    assert (2 ^ d <= 2 ^ 104)%Z by (apply Z.pow_le_mono_r; lia). lia.
  - destruct (Z.leb_spec d 106) as [H|H]; [exact H|].
    assert (2 ^ 106 <= 2 ^ (d - 1))%Z by (apply Z.pow_le_mono_r; lia). lia.
Qed.

Lemma mul_finite (x y : float) (sx sy : bool) (mx my : positive)
  (ex ey : Z) :
  FloatOps.Prim2SF x = S754_finite sx mx ex ->
  FloatOps.Prim2SF y = S754_finite sy my ey ->
  (2 ^ 52 <= Z.pos mx < 2 ^ 53)%Z -> (2 ^ 52 <= Z.pos my < 2 ^ 53)%Z ->
  (-1126 <= ex + ey <= 917)%Z ->
  exists m e,
    FloatOps.Prim2SF (x * y) = S754_finite (xorb sx sy) m e /\
    (2 ^ 52 <= Z.pos m < 2 ^ 53)%Z /\
    (ex + ey + 52 <= e <= ex + ey + 54)%Z /\
    let exact :=
      (inject_Z (Z.pos mx) * 2 ^ ex) * (inject_Z (Z.pos my) * 2 ^ ey) in
    (1 - (1 # 2 ^ 52)) * exact <= inject_Z (Z.pos m) * 2 ^ e <=
    (1 + (1 # 2 ^ 52)) * exact.
Proof.
  intros Hx Hy Hmx Hmy He.
  rewrite FloatAxioms.mul_spec, Hx, Hy.
  unfold FloatAxioms.SF64mul, SFmul.
  pose proof (product_digits Hmx Hmy) as Hd.
  destruct (@binary_round_aux_finite (xorb sx sy) (mx * my) (ex + ey)
              loc_Exact) as (m & e & Heq & Hm & Hee & Hnear & _); try lia.
  exists m, e. split; [exact Heq|]. split; [exact Hm|]. split; [lia|].
  cbv zeta.
  rewrite (@mantissa_shift m e (ex + ey)) by lia.
  setoid_replace (inject_Z (Z.pos mx) * 2 ^ ex * (inject_Z (Z.pos my) * 2 ^ ey))
    with (inject_Z (Z.pos (mx * my)) * 2 ^ (ex + ey))
    by (rewrite Pos2Z.inj_mul, inject_Z_mult, pow2_plus; ring).
  apply scale_bounds; [apply pow2_pos|].
  now apply close_mantissa.
Qed.

(** *** The quotient of two normal numbers *)

Lemma digits_between (m : positive) (a b : Z) :
  (0 <= a)%Z -> (2 ^ a <= Z.pos m < 2 ^ b)%Z ->
  (a + 1 <= Z.pos (digits2_pos m) <= b)%Z.
Proof.
  intros Ha [Hlo Hhi]. pose proof (digits2_bounds m) as [Hlo' Hhi'].
  set (d := Z.pos (digits2_pos m)) in *. split.
  - destruct (Z.leb_spec (a + 1) d) as [H|H]; [exact H|].
    assert (2 ^ d <= 2 ^ a)%Z by (apply Z.pow_le_mono_r; lia). lia.
  - destruct (Z.leb_spec d b) as [H|H]; [exact H|].
    assert (2 ^ b <= 2 ^ (d - 1))%Z by (apply Z.pow_le_mono_r; lia). lia.
Qed.

Lemma div_finite (x y : float) (sx sy : bool) (mx my : positive)
  (ex ey : Z) :
  FloatOps.Prim2SF x = S754_finite sx mx ex ->
  FloatOps.Prim2SF y = S754_finite sy my ey ->
  (2 ^ 52 <= Z.pos mx < 2 ^ 53)%Z -> (2 ^ 52 <= Z.pos my < 2 ^ 53)%Z ->
  (-1021 <= ex - ey <= 1021)%Z ->
  exists m e,
    FloatOps.Prim2SF (x / y) = S754_finite (xorb sx sy) m e /\
    (2 ^ 52 <= Z.pos m < 2 ^ 53)%Z /\
    (ex - ey - 53 <= e <= ex - ey - 51)%Z /\
    let exact :=
      (inject_Z (Z.pos mx) * 2 ^ ex) / (inject_Z (Z.pos my) * 2 ^ ey) in
    (1 - (1 # 2 ^ 51)) * exact <= inject_Z (Z.pos m) * 2 ^ e <=
    (1 + (1 # 2 ^ 51)) * exact.
Proof.
  intros Hx Hy Hmx Hmy He.
  rewrite FloatAxioms.div_spec, Hx, Hy.
  unfold FloatAxioms.SF64div, SFdiv, SFdiv_core_binary. cbn [Zdigits2].
  rewrite (@digits2_unique mx 53), (@digits2_unique my 53)
    by (change (53 - 1)%Z with 52%Z; lia).
  cbv zeta.
  assert (He' : Z.min (fexp prec emax (53 + ex - (53 + ey))) (ex - ey)
                = (ex - ey - 53)%Z)
    by (rewrite fexp_normal by lia; lia).
  rewrite !He'. set (e' := (ex - ey - 53)%Z) in *.
  replace (ex - ey - e')%Z with 53%Z by (unfold e'; lia).
  cbv iota.
  pose proof (Z_div_mod (Z.shiftl (Z.pos mx) 53) (Z.pos my) eq_refl) as Hqr.
  destruct (Z.div_eucl (Z.shiftl (Z.pos mx) 53) (Z.pos my)) as [q r].
  rewrite Z.shiftl_mul_pow2 in Hqr by lia. destruct Hqr as [Hq Hr].
  assert (Hqb : (2 ^ 52 <= q < 2 ^ 54)%Z).
  { change (2 ^ 54)%Z with (2 * 2 ^ 53)%Z.
    change (2 ^ 53)%Z with (2 * 2 ^ 52)%Z in *. nia. }
  destruct q as [|pq|pq]; [lia| |lia].
  pose proof (@digits_between pq 52 54 ltac:(lia) Hqb) as Hd.
  destruct (@binary_round_aux_finite (xorb sx sy) pq e'
              (new_location (Z.pos my) r))
    as (m & e & Heq & Hm & Hee & Hnear & _); try (unfold e'; lia).
  exists m, e. split; [exact Heq|]. split; [exact Hm|].
  split; [unfold e' in *; lia|].
  rewrite (@mantissa_shift m e e') by lia.
  assert (Hexact :
    inject_Z (Z.pos mx) * 2 ^ ex / (inject_Z (Z.pos my) * 2 ^ ey)
    == inject_Z (Z.pos mx * 2 ^ 53) / inject_Z (Z.pos my) * 2 ^ e').
  { replace ex with (53 + (e' + ey))%Z at 1 by (unfold e'; lia).
    rewrite !pow2_plus, inject_Z_mult, pow2_inject by lia.
    field. split; intros H.
    + unfold Qeq in H. cbn in H. lia.
    + pose proof (pow2_pos ey) as Hp. rewrite H in Hp.
      exact (Qlt_irrefl _ Hp). }
  rewrite Hexact.
  apply scale_bounds; [apply pow2_pos|].
  apply close_mantissa in Hnear.
  set (A := inject_Z (Z.pos m * 2 ^ (e - e'))) in *.
  set (N := inject_Z (Z.pos mx * 2 ^ 53)).
  set (Y := inject_Z (Z.pos my)).
  set (qq := inject_Z (Z.pos pq)) in *.
  assert (HY : 0 < Y) by reflexivity.
  assert (Hlo : qq <= N / Y).
  { apply Qle_shift_div_l; [exact HY|].
    unfold qq, N, Y. rewrite <- inject_Z_mult, <- Zle_Qle. lia. }
  assert (Hhi : N / Y < qq + 1).
  { apply Qlt_shift_div_r; [exact HY|].
    unfold qq, N, Y. change 1 with (inject_Z 1).
    rewrite <- inject_Z_plus, <- inject_Z_mult, <- Zlt_Qlt. lia. }
  assert (Hq52 : 4503599627370496 <= qq).
  { unfold qq. change 4503599627370496 with (inject_Z (2 ^ 52)).
    rewrite <- Zle_Qle. lia. }
  change (1 # 2 ^ 52) with (1 # 4503599627370496) in Hnear.
  change (1 # 2 ^ 51) with (1 # 2251799813685248).
  set (B := N / Y) in *. clearbody A B qq. lra.
Qed.

(** *** The weight of line 112 *)

Lemma hundred_finite :
  FloatOps.Prim2SF 100 = S754_finite false 7036874417766400 (-46).
Proof. reflexivity. Qed.

Lemma integer_value (n : Z) (m : positive) (e : Z) :
  (e <= 0)%Z -> Z.pos m = (n * 2 ^ (- e))%Z ->
  inject_Z (Z.pos m) * 2 ^ e == inject_Z n.
Proof.
  intros He Hm. rewrite Hm, inject_Z_mult, pow2_inject by lia.
  rewrite <- Qmult_assoc, <- pow2_plus.
  replace (- e + e)%Z with 0%Z by lia. change (2 ^ 0) with 1. ring.
Qed.

(** The share of a strength in the total, times one hundred, computed in
    binary64 and rounded to an integer, is within five eighths of the
    exact percentage. *)
Lemma weight_near (c T : nat) :
  (c <= T)%nat -> (1 <= T)%nat -> (Z.of_nat T < 2 ^ 53)%Z ->
  exists w,
    py_round (of_nat c / of_nat T * 100)%float = Ok w /\
    - (5 # 8)
    <= inject_Z w - 100 * (inject_Z (Z.of_nat c) / inject_Z (Z.of_nat T))
    <= 5 # 8.
Proof.
  intros HcT HT Hbig.
  destruct (@of_nat_finite T) as (mT & eT & HpT & HmT & HeT & HvT); [lia|].
  destruct c as [|c'].
  - (* a strength of zero *)
    assert (Hq : (of_nat 0 / of_nat T)%float = 0%float).
    { apply FloatAxioms.Prim2SF_inj.
      rewrite FloatAxioms.div_spec, HpT. reflexivity. }
    rewrite Hq. exists 0%Z. split; [reflexivity|].
    change (inject_Z (Z.of_nat 0)) with 0. unfold Qdiv.
    setoid_replace (inject_Z 0 - 100 * (0 * / inject_Z (Z.of_nat T)))
      with 0 by ring.
    split; discriminate.
  - set (c := S c') in *.
    destruct (@of_nat_finite c) as (mc & ec & Hpc & Hmc & Hec & Hvc);
      [unfold c; lia|].
    destruct (div_finite _ _ Hpc HpT Hmc HmT) as (mq & eq & Hpq & Hmq & Heq & Hq);
      [lia|].
    destruct (mul_finite _ _ Hpq hundred_finite Hmq) as (mp & ep & Hpp & _ & _ & Hp);
      [cbn; lia | lia|].
    cbv zeta in Hq, Hp.
    rewrite (@integer_value (Z.of_nat c) mc ec), (@integer_value (Z.of_nat T) mT eT) in Hq
      by (lia || assumption).
    assert (H100 : inject_Z (Z.pos 7036874417766400) * 2 ^ (-46) == 100)
      by reflexivity.
    rewrite H100 in Hp.
    unfold py_round, value. rewrite Hpp. cbn [xorb].
    eexists. split; [reflexivity|].
    pose proof (round_near (inject_Z (Z.pos mp) * 2 ^ ep)) as Hr.
    set (w := inject_Z (round (inject_Z (Z.pos mp) * 2 ^ ep))) in *.
    set (vp := inject_Z (Z.pos mp) * 2 ^ ep) in *.
    set (vq := inject_Z (Z.pos mq) * 2 ^ eq) in *.
    assert (Hr01 : 0 < inject_Z (Z.of_nat c) / inject_Z (Z.of_nat T) <= 1).
    { assert (HTpos : 0 < inject_Z (Z.of_nat T))
        by (change 0 with (inject_Z 0); rewrite <- Zlt_Qlt; lia).
      split.
      - apply Qlt_shift_div_l; [exact HTpos|]. rewrite Qmult_0_l.
        change 0 with (inject_Z 0). rewrite <- Zlt_Qlt. unfold c. lia.
      - apply Qle_shift_div_r; [exact HTpos|]. rewrite Qmult_1_l.
        rewrite <- Zle_Qle. lia. }
    set (r := inject_Z (Z.of_nat c) / inject_Z (Z.of_nat T)) in *.
    change (1 # 2 ^ 52) with (1 # 4503599627370496) in Hp.
    change (1 # 2 ^ 51) with (1 # 2251799813685248) in Hq.
    clearbody w vp vq r. lra.
Qed.
End B64Value.

(* ------------------------------------------------------------------ *)
(** ** Classes of binary64 values                                      *)
(* ------------------------------------------------------------------ *)

Module B64Class.
Import PrimFloat SpecFloat B64 B64Order B64Round B64Exact B64Value.
Local Open Scope float_scope.

(** The four classes: a NaN, an infinity, a zero or a finite non-zero
    number. *)
Lemma is_nan_spec (x : float) :
  is_nan x = true <-> FloatOps.Prim2SF x = S754_nan.
Proof.
  pose proof (number_is_nan x) as H. unfold number in H.
  destruct (is_nan x); split; intros Hx; try reflexivity; try discriminate.
  - destruct (FloatOps.Prim2SF x) eqn:E; try reflexivity;
      (assert (Hf : true = false) by (apply H; discriminate));
      discriminate.
  - destruct H as [H _]. now destruct (H eq_refl).
Qed.

Lemma is_infinity_spec (x : float) :
  is_infinity x = true <-> exists s, FloatOps.Prim2SF x = S754_infinity s.
Proof.
  unfold is_infinity.
  rewrite FloatAxioms.eqb_spec, FloatAxioms.abs_spec.
  change (FloatOps.Prim2SF infinity) with (S754_infinity false).
  destruct (FloatOps.Prim2SF x) as [s|s| |s m e]; cbn; split;
    try discriminate; try (intros [s' H]; discriminate H);
    try (destruct s; discriminate); try reflexivity.
  intros _. now exists s.
Qed.

Lemma is_zero_spec (x : float) :
  is_zero x = true <-> exists s, FloatOps.Prim2SF x = S754_zero s.
Proof.
  unfold is_zero. rewrite FloatAxioms.eqb_spec.
  change (FloatOps.Prim2SF 0) with (S754_zero false).
  destruct (FloatOps.Prim2SF x) as [s|s| |s m e]; cbn; split;
    try discriminate; try (intros [s' H]; discriminate H);
    try (destruct s; discriminate); try reflexivity.
  intros _. now exists s.
Qed.

Lemma is_finite_spec (x : float) :
  is_finite x = true <->
  (exists s, FloatOps.Prim2SF x = S754_zero s) \/
  (exists s m e, FloatOps.Prim2SF x = S754_finite s m e).
Proof.
  unfold is_finite.
  destruct (is_nan x) eqn:En; [apply is_nan_spec in En|];
    (destruct (is_infinity x) eqn:Ei;
     [apply is_infinity_spec in Ei as [s Ei]|]); cbn;
    try (split; [discriminate|];
         intros [[s' H] | (s' & m & e & H)]; congruence).
  split; [intros _|reflexivity].
  destruct (FloatOps.Prim2SF x) as [s|s| |s m e] eqn:E.
  - left. now exists s.
  - assert (Hc : is_infinity x = true)
      by (apply is_infinity_spec; exists s; exact E).
    congruence.
  - assert (Hc : is_nan x = true) by (now apply is_nan_spec). congruence.
  - right. now exists s, m, e.
Qed.

(** What lies strictly below a number is a number other than [+inf]; what
    lies strictly below zero is negative. *)
Lemma ltb_zero_negative (x z : float) :
  is_zero z = true -> (x <? z) = true ->
  (exists m e, FloatOps.Prim2SF x = S754_finite true m e) \/
  FloatOps.Prim2SF x = S754_infinity true.
Proof.
  intros Hz. apply is_zero_spec in Hz as [s Hz].
  rewrite FloatAxioms.ltb_spec, Hz. unfold SFltb.
  destruct (FloatOps.Prim2SF x) as [s'|s'| |s' m e]; cbn; try discriminate.
  - destruct s'; [now right | discriminate].
  - destruct s'; [left; now exists m, e | discriminate].
Qed.

Lemma not_finite_spec (x : float) :
  is_finite x = false <->
  FloatOps.Prim2SF x = S754_nan \/
  (exists s, FloatOps.Prim2SF x = S754_infinity s).
Proof.
  pose proof (is_finite_spec x) as H.
  destruct (is_finite x); split; try discriminate; try reflexivity.
  - destruct H as [H _].
    destruct (H eq_refl) as [[s Hs] | (s & m & e & Hs)];
      intros [Hc | [s' Hc]]; congruence.
  - intros _. destruct (FloatOps.Prim2SF x) as [s|s| |s m e] eqn:E.
    + assert (Hc : false = true) by (apply H; left; now exists s).
      discriminate.
    + right. now exists s.
    + now left.
    + assert (Hc : false = true) by (apply H; right; now exists s, m, e).
      discriminate.
Qed.

(** *** Operations that keep a number a number *)

Lemma SFdiv_number (a y : spec_float) (s : bool) (m : positive) (e : Z) :
  a <> S754_nan -> y = S754_finite s m e ->
  SFdiv prec emax a y <> S754_nan.
Proof.
  intros Ha ->. destruct a as [sa|sa| |sa ma ea]; try discriminate;
    [congruence|].
  unfold SFdiv, SFdiv_core_binary.
  set (m' := match _ with Z0 => _ | Z.pos _ => _ | Z.neg _ => _ end).
  assert (Hm' : (0 <= m')%Z).
  { unfold m'. destruct (_ - _ - _)%Z; try lia.
    apply Z.shiftl_nonneg. lia. }
  pose proof (Z_div_mod m' (Z.pos m) eq_refl) as Hqr.
  destruct (Z.div_eucl m' (Z.pos m)) as [q r]. destruct Hqr as [Hq Hr].
  apply binary_round_aux_number. nia.
Qed.

Lemma SFmul_number (a y : spec_float) (s : bool) (m : positive) (e : Z) :
  a <> S754_nan -> y = S754_finite s m e ->
  SFmul prec emax a y <> S754_nan.
Proof.
  intros Ha ->. destruct a as [sa|sa| |sa ma ea]; try discriminate;
    [congruence|].
  unfold SFmul. apply binary_round_aux_number. lia.
Qed.

Lemma SFsub_number (x y : spec_float) :
  (forall s, x <> S754_infinity s) -> x <> S754_nan -> y <> S754_nan ->
  SFsub prec emax x y <> S754_nan.
Proof.
  intros Hx Hn Hy.
  destruct x as [sx|sx| |sx mx ex]; try congruence;
    try (now destruct (Hx sx));
    destruct y as [sy|sy| |sy my ey]; try congruence; try discriminate;
    cbn [SFsub].
  - destruct sx, sy; discriminate.
  - apply binary_normalize_number.
Qed.

Lemma div_number (a y : float) (s : bool) (m : positive) (e : Z) :
  is_nan a = false -> FloatOps.Prim2SF y = S754_finite s m e ->
  is_nan (a / y) = false.
Proof.
  rewrite !number_is_nan. unfold number. intros Ha Hy.
  rewrite FloatAxioms.div_spec. now apply SFdiv_number with s m e.
Qed.

Lemma mul_number (a y : float) (s : bool) (m : positive) (e : Z) :
  is_nan a = false -> FloatOps.Prim2SF y = S754_finite s m e ->
  is_nan (a * y) = false.
Proof.
  rewrite !number_is_nan. unfold number. intros Ha Hy.
  rewrite FloatAxioms.mul_spec. now apply SFmul_number with s m e.
Qed.

Lemma sub_number (x y : float) :
  is_finite x = true -> is_nan y = false -> is_nan (x - y) = false.
Proof.
  rewrite !number_is_nan. unfold number. intros Hx Hy.
  rewrite FloatAxioms.sub_spec.
  apply is_finite_spec in Hx.
  apply SFsub_number; try assumption;
    destruct Hx as [[s Hs] | (s & m & e & Hs)]; rewrite Hs;
    try discriminate; intros s'; discriminate.
Qed.

(** *** Rounding to an integer and to two decimals *)

Lemma of_int_number (s : bool) (n : Z) : is_nan (of_int s n) = false.
Proof.
  rewrite number_is_nan. unfold number, of_int.
  destruct s; rewrite ?FloatAxioms.opp_spec, FloatAxioms.of_uint63_spec.
  - pose proof (@binary_normalize_number
        (Uint63.to_Z (Uint63.of_Z n)) 0 false) as H.
    destruct (binary_normalize _ _ _ _ _); cbn; congruence.
  - apply binary_normalize_number.
Qed.

Lemma rint_number (x : float) : is_nan x = false -> is_nan (rint x) = false.
Proof.
  intros Hx. unfold rint.
  destruct (FloatOps.Prim2SF x) as [s|s| |s m e]; try exact Hx.
  destruct (value x); [|exact Hx].
  destruct (0 <=? e)%Z; [exact Hx | apply of_int_number].
Qed.

Lemma round2_number (x : float) :
  is_nan x = false -> is_nan (round2 x) = false.
Proof.
  intros Hx. unfold round2.
  apply div_number with false 7036874417766400%positive (-46)%Z;
    [|reflexivity].
  apply rint_number.
  apply mul_number with false 7036874417766400%positive (-46)%Z;
    [exact Hx | reflexivity].
Qed.

(** An infinity or a NaN stays what it is through [* 100], [rint] and
    [/ 100]. *)
Lemma round2_not_finite (x : float) :
  is_finite x = false -> is_finite (round2 x) = false.
Proof.
  rewrite !not_finite_spec. unfold round2. intros Hx.
  assert (H1 : FloatOps.Prim2SF (x * 100) = S754_nan \/
               exists s, FloatOps.Prim2SF (x * 100) = S754_infinity s).
  { rewrite FloatAxioms.mul_spec, hundred_finite.
    destruct Hx as [-> | [s ->]]; [now left | right; now exists (xorb s false)]. }
  assert (H2 : rint (x * 100) = x * 100).
  { unfold rint. destruct H1 as [-> | [s ->]]; reflexivity. }
  rewrite H2, FloatAxioms.div_spec, hundred_finite.
  destruct H1 as [-> | [s ->]]; [now left | right; now exists (xorb s false)].
Qed.

(** *** The value of [rint] *)

Local Open Scope Q_scope.

Lemma round_integer (n : Z) : round (inject_Z n) = n.
Proof.
  unfold round. rewrite Qfloor_Z.
  replace (Qcompare (inject_Z n - inject_Z n) (1 # 2)) with Lt;
    [reflexivity|].
  symmetry. apply (proj1 (Qlt_alt _ _)).
  set (k := inject_Z n). clearbody k. lra.
Qed.

Lemma valid_mantissa (x : float) (s : bool) (m : positive) (e : Z) :
  FloatOps.Prim2SF x = S754_finite s m e ->
  (Z.pos m < 2 ^ 53)%Z /\ (-1074 <= e <= 971)%Z.
Proof.
  intros Hx. pose proof (FloatAxioms.Prim2SF_valid x) as Hv.
  rewrite Hx in Hv. unfold valid_binary, bounded, canonical_mantissa in Hv.
  apply andb_true_iff in Hv as [Hc He].
  apply Z.eqb_eq in Hc. apply Z.leb_le in He.
  unfold fexp, emin, FloatOps.prec, FloatOps.emax in Hc, He.
  pose proof (digits2_bounds m) as [_ Hhi].
  assert (Hd : (Z.pos (digits2_pos m) <= 53)%Z) by lia.
  assert (2 ^ Z.pos (digits2_pos m) <= 2 ^ 53)%Z
    by (apply Z.pow_le_mono_r; lia).
  split; lia.
Qed.

Lemma half_pow2 (e : Z) : (e < 0)%Z -> 2 ^ e <= 1 # 2.
Proof.
  intros He. change (1 # 2) with (2 ^ (-1)).
  apply Qpower_le_compat_l; [lia | discriminate].
Qed.

Lemma value_of_int (s : bool) (n : Z) :
  (0 <= n < 2 ^ 53)%Z ->
  exists q, value (of_int s n) = Some q /\
            q == inject_Z (if s then - n else n).
Proof.
  intros Hn. unfold of_int, value.
  destruct (Z.eq_dec n 0) as [-> | Hne].
  - exists 0. destruct s; split; reflexivity.
  - destruct (@of_uint63_finite n) as (m & e & Hp & _ & He & Hm); [lia|].
    pose proof (@integer_value n m e ltac:(lia) Hm) as Hv.
    destruct s.
    + rewrite FloatAxioms.opp_spec, Hp. cbn [SFopp negb].
      eexists. split; [reflexivity|].
      change (Z.neg m) with (- Z.pos m)%Z.
      rewrite !inject_Z_opp, <- Hv. ring.
    + rewrite Hp. eexists. split; [reflexivity | exact Hv].
Qed.

(** [rint] gives the float whose value is the nearest integer, a tie
    going to the even one. *)
Lemma rint_value (x : float) (q : Q) :
  value x = Some q ->
  exists q', value (rint x) = Some q' /\ q' == inject_Z (round q).
Proof.
  unfold rint. intros Hv. rewrite Hv. unfold value in Hv.
  destruct (FloatOps.Prim2SF x) as [s|s| |s m e] eqn:E; try discriminate.
  - injection Hv as <-. exists 0. unfold value. rewrite E.
    split; reflexivity.
  - injection Hv as <-.
    destruct (valid_mantissa _ E) as [Hm He].
    destruct (Z.leb_spec 0 e) as [Hpos | Hneg].
    + (* an integer already *)
      eexists. unfold value. rewrite E. split; [reflexivity|].
      set (k := if s then Z.neg m else Z.pos m).
      assert (Hint : inject_Z k * 2 ^ e == inject_Z (k * 2 ^ e))
        by (rewrite inject_Z_mult, pow2_inject by lia; reflexivity).
      rewrite (round_comp Hint), round_integer. exact Hint.
    + set (q := inject_Z (if s then Z.neg m else Z.pos m) * 2 ^ e).
      assert (Hq : (if s then - 4503599627370496 <= q /\ q <= 0
                    else 0 <= q /\ q <= 4503599627370496)).
      { pose proof (half_pow2 Hneg) as Hh. pose proof (pow2_pos e) as Hp.
        assert (Hmq : inject_Z (Z.pos m) <= 9007199254740992)
          by (change 9007199254740992 with (inject_Z (2 ^ 53));
              rewrite <- Zle_Qle; lia).
        assert (Hm0 : 0 < inject_Z (Z.pos m)) by reflexivity.
        unfold q. destruct s.
        - change (Z.neg m) with (- Z.pos m)%Z. rewrite inject_Z_opp.
          set (a := inject_Z (Z.pos m)) in *. set (t := 2 ^ e) in *.
          clearbody a t. split; nra.
        - set (a := inject_Z (Z.pos m)) in *. set (t := 2 ^ e) in *.
          clearbody a t. split; nra. }
      assert (Hr : (if s then - 2 ^ 52 <= round q <= 0
                    else 0 <= round q <= 2 ^ 52)%Z).
      { destruct s; destruct Hq as [H1 H2]; split.
        - rewrite <- (round_integer (- 2 ^ 52)). now apply round_mono.
        - change 0%Z with (round 0). now apply round_mono.
        - change 0%Z with (round 0). now apply round_mono.
        - rewrite <- (round_integer (2 ^ 52)). now apply round_mono. }
      destruct (@value_of_int s (Z.abs (round q))) as (q' & Hq' & Heq).
      { change (2 ^ 53)%Z with (2 * 2 ^ 52)%Z. destruct s; lia. }
      exists q'. split; [exact Hq'|]. rewrite Heq.
      replace (if s then (- Z.abs (round q))%Z else Z.abs (round q))
        with (round q) by (destruct s; lia).
      reflexivity.
Qed.
End B64Class.

(* ------------------------------------------------------------------ *)
(** ** The plan builder on binary64 numbers                            *)
(* ------------------------------------------------------------------ *)

Module B64Plan.
Import PrimFloat SpecFloat B64 B64Order B64Round B64Exact B64Value B64Class.
Local Open Scope float_scope.

(** What one pass of the loop of line 111 returns. *)
Lemma buy_level_fields (cp yh : float) (total i : nat) (l : Level)
  (b : BuyLevel) :
  buy_level cp yh total i l = Ok b ->
  total <> 0%nat /\
  py_round (of_nat (snd l) / of_nat total * 100) = Ok (weight_percent b) /\
  order b = (i + 1)%nat /\
  price b = round2 (fst l) /\
  discount_from_high_pct b = round2 ((yh - fst l) / yh * 100) /\
  gap_from_current_pct b = round2 ((cp - fst l) / cp * 100).
Proof.
  destruct l as [p c]. unfold buy_level, int_truediv.
  destruct (total =? 0)%nat eqn:E; cbn [bind]; [discriminate|].
  apply Nat.eqb_neq in E.
  destruct (py_round _) as [w|e]; cbn [bind]; [|discriminate].
  intros [= <-]. cbn. repeat split; auto.
Qed.

(** A pass returns when the strength is part of a total below [2^53]. *)
Lemma buy_level_returns (cp yh : float) (total i : nat) (l : Level) :
  (snd l <= total)%nat -> (1 <= total)%nat -> (Z.of_nat total < 2 ^ 53)%Z ->
  exists b, buy_level cp yh total i l = Ok b.
Proof.
  destruct l as [p c]. cbn [snd]. intros Hc Ht Hbig.
  destruct (weight_near Hc Ht Hbig) as (w & Hw & _).
  unfold buy_level, int_truediv.
  replace (total =? 0)%nat with false by (symmetry; apply Nat.eqb_neq; lia).
  cbn [bind]. rewrite Hw. cbn [bind]. eexists; reflexivity.
Qed.

Lemma plan_loop_inv (cp yh : float) (total : nat)
  (items : list (nat * Level)) :
  forall acc plan,
    plan_loop cp yh total items acc = Ok plan ->
    exists bs,
      plan = acc ++ bs /\
      Forall2 (fun il b => buy_level cp yh total (fst il) (snd il) = Ok b)
              items bs.
Proof.
  induction items as [|[i l] items IH]; intros acc plan; cbn [plan_loop].
  - intros [= <-]. exists []. split; [now rewrite app_nil_r | constructor].
  - destruct (buy_level cp yh total i l) as [b|e] eqn:E; cbn [bind];
      [|discriminate].
    intros H. apply IH in H as (bs & -> & HF). exists (b :: bs). split.
    + now rewrite <- app_assoc.
    + constructor; [exact E | exact HF].
Qed.

Lemma plan_loop_returns (cp yh : float) (total : nat)
  (items : list (nat * Level)) :
  Forall (fun il => exists b,
            buy_level cp yh total (fst il) (snd il) = Ok b) items ->
  forall acc, exists plan, plan_loop cp yh total items acc = Ok plan.
Proof.
  induction 1 as [|[i l] items [b Hb] _ IH]; intros acc; cbn [plan_loop].
  - eexists; reflexivity.
  - cbn [fst snd] in Hb. rewrite Hb. cbn [bind]. apply IH.
Qed.

(** *** Selection *)

Lemma in_selection (lv : list Level) (cp : float) (l : Level) :
  In l (top_3 lv cp) -> In l lv /\ (fst l <? cp) = true.
Proof.
  intros H. unfold top_3 in H. apply in_firstn in H.
  unfold by_price_desc in H.
  apply (Permutation_in _ (sort_reverse_perm _ _)) in H.
  unfold waiting in H. now apply filter_In in H.
Qed.

Lemma selection_nil (lv : list Level) (cp : float) :
  top_3 lv cp = [] <-> forall l, In l lv -> (fst l <? cp) = false.
Proof.
  unfold top_3, by_price_desc. split.
  - intros H l Hl. destruct (fst l <? cp) eqn:E; [|reflexivity].
    assert (Hw : In l (sort_reverse (fun a b => fst a <? fst b)
                         (waiting lv cp))).
    { eapply Permutation_in; [symmetry; apply sort_reverse_perm|].
      unfold waiting. apply filter_In. now split. }
    match type of Hw with
    | In _ ?L => destruct L; [destruct Hw | discriminate H]
    end.
  - intros H.
    assert (Hw : waiting lv cp = []).
    { destruct (waiting lv cp) as [|l w] eqn:E; [reflexivity|].
      assert (Hl : In l (waiting lv cp)) by (rewrite E; now left).
      unfold waiting in Hl. apply filter_In in Hl as [Hl Hlt].
      rewrite (H l Hl) in Hlt. discriminate. }
    rewrite Hw. reflexivity.
Qed.

Lemma strength_in_total (top : list Level) (l : Level) :
  In l top -> (snd l <= total_strength top)%nat.
Proof.
  intros Hl. unfold total_strength.
  destruct (fold_left_add_ge (map snd top) 0) as [_ Hin].
  apply Hin. now apply in_map.
Qed.

Lemma total_strength_positive (lv : list Level) (cp : float) :
  Forall (fun l : Level => (1 <= snd l)%nat) lv ->
  top_3 lv cp <> [] -> (1 <= total_strength (top_3 lv cp))%nat.
Proof.
  intros Hpos Hne. destruct (top_3 lv cp) as [|l rest] eqn:E; [contradiction|].
  assert (Hl : In l lv) by (apply (@in_selection lv cp); rewrite E; now left).
  rewrite Forall_forall in Hpos. specialize (Hpos l Hl).
  pose proof (@strength_in_total (l :: rest) l (or_introl eq_refl)). lia.
Qed.

(** *** The builder as a whole *)

Lemma build_plan_inv (lv : list Level) (cp yh : float) (st : Status)
  (plan : list BuyLevel) :
  build_plan lv cp yh = Ok (st, plan) ->
  let top := top_3 lv cp in
  (top = [] /\ st = NoSupportFound /\ plan = []) \/
  (top <> [] /\ st = FoundStrategicLevels /\
   Forall2 (fun il b =>
              buy_level cp yh (total_strength top) (fst il) (snd il) = Ok b)
           (enumerate top) plan).
Proof.
  intros H top. unfold build_plan in H. fold top in H.
  destruct top as [|l0 rest] eqn:Etop.
  - injection H as <- <-. left. auto.
  - right. rewrite <- Etop in *.
    destruct (plan_loop _ _ _ _ _) as [p|e] eqn:E; cbn [bind] in H;
      [|discriminate].
    injection H as <- <-.
    apply plan_loop_inv in E as (bs & -> & HF).
    split; [rewrite Etop; discriminate|]. split; [reflexivity | exact HF].
Qed.

Lemma build_plan_returns (lv : list Level) (cp yh : float) :
  Forall (fun l : Level => (1 <= snd l)%nat) lv ->
  (Z.of_nat (total_strength (top_3 lv cp)) < 2 ^ 53)%Z ->
  exists st plan, build_plan lv cp yh = Ok (st, plan).
Proof.
  intros Hpos Hbig. unfold build_plan.
  destruct (top_3 lv cp) as [|l0 rest] eqn:Etop.
  - eexists _, _. reflexivity.
  - rewrite <- Etop in *.
    assert (Hne : top_3 lv cp <> []) by (rewrite Etop; discriminate).
    pose proof (total_strength_positive cp Hpos Hne) as Ht.
    destruct (@plan_loop_returns cp yh (total_strength (top_3 lv cp))
                (enumerate (top_3 lv cp))) with (acc := @nil BuyLevel)
      as [plan Hplan].
    + apply Forall_forall. intros [i l] Hil.
      apply buy_level_returns; try assumption. cbn [snd].
      apply strength_in_total. apply in_enumerate in Hil. exact Hil.
    + rewrite Hplan. cbn [bind]. eexists _, _. reflexivity.
Qed.

Lemma plan_nonempty (lv : list Level) (cp yh : float) (st : Status)
  (plan : list BuyLevel) :
  build_plan lv cp yh = Ok (st, plan) ->
  (exists l, In l lv /\ (fst l <? cp) = true) ->
  st = FoundStrategicLevels /\ plan <> [].
Proof.
  intros H (l & Hl & Hlt). apply build_plan_inv in H. cbv zeta in H.
  destruct H as [(Htop & _) | (Hne & -> & HF)].
  - rewrite (proj1 (selection_nil lv cp) Htop l Hl) in Hlt. discriminate.
  - split; [reflexivity|]. intros ->. inversion HF as [Hnil|]; subst.
    symmetry in Hnil. apply (proj1 (enumerate_nil _)) in Hnil.
    contradiction.
Qed.
End B64Plan.

Module B64Claims.
Import PrimFloat SpecFloat B64 B64Order B64Round B64Exact B64Value B64Class
  B64Plan.
Local Open Scope float_scope.

(* ------------------------------------------------------------------ *)
(** ** Weights                                                         *)
(* ------------------------------------------------------------------ *)

Lemma Forall2_enumerate (A B : Type) (R : A -> B -> Prop) (l : list A)
  (bs : list B) :
  Forall2 (fun (il : nat * A) b => R (snd il) b) (enumerate l) bs ->
  Forall2 R l bs.
Proof.
  rewrite <- (map_snd_enumerate l) at 2.
  induction 1 as [|il b ils bs' H _ IH]; cbn [map]; constructor; assumption.
Qed.

Lemma Forall2_right (A B : Type) (R : A -> B -> Prop) (l : list A)
  (bs : list B) :
  Forall2 R l bs -> Forall (fun b => exists a, In a l /\ R a b) bs.
Proof.
  induction 1 as [|a b l bs H _ IH]; constructor.
  - exists a. split; [now left | exact H].
  - eapply Forall_impl; [|exact IH].
    intros b' (a' & Ha' & HR). exists a'. split; [now right | exact HR].
Qed.

(** Weights each within five eighths of the exact percentage add up to
    within five eighths per weight of the percentage of the sum. *)
Lemma near_shares_sum (T : Q) (top : list Level) (plan : list BuyLevel) :
  Forall2 (fun (l : Level) (b : BuyLevel) =>
             - (5 # 8)
             <= inject_Z (weight_percent b)
                - 100 * (inject_Z (Z.of_nat (snd l)) / T)
             <= 5 # 8)%Q top plan ->
  (- (5 # 8) * inject_Z (Z.of_nat (length plan))
   <= inject_Z (total_weight plan)
      - 100 * (inject_Z (Z.of_nat (list_sum (map snd top))) / T)
   <= (5 # 8) * inject_Z (Z.of_nat (length plan)))%Q.
Proof.
  induction 1 as [|l b top plan H _ IH].
  - cbn. unfold Qdiv. split; (apply Qle_lteq; right; ring).
  - unfold total_weight in *. cbn [map fold_right length].
    change (list_sum (snd l :: map snd top))
      with (snd l + list_sum (map snd top))%nat.
    rewrite Nat2Z.inj_succ, Nat2Z.inj_add. unfold Z.succ.
    rewrite !inject_Z_plus. change (inject_Z 1) with 1%Q.
    unfold Qdiv in *.
    set (w := inject_Z (weight_percent b)) in *.
    set (ws := inject_Z (fold_right Z.add 0%Z (map weight_percent plan))) in *.
    set (n := inject_Z (Z.of_nat (length plan))) in *.
    set (a := (inject_Z (Z.of_nat (snd l)) * / T)%Q) in *.
    set (s := (inject_Z (Z.of_nat (list_sum (map snd top))) * / T)%Q) in *.
    assert (Hsplit :
      ((inject_Z (Z.of_nat (snd l))
        + inject_Z (Z.of_nat (list_sum (map snd top)))) * / T == a + s)%Q)
      by (unfold a, s; ring).
    rewrite Hsplit. clearbody w ws n a s. lra.
Qed.

Lemma entries_weights (cp yh : float) (T : nat) (items : list (nat * Level))
  (plan : list BuyLevel) :
  (1 <= T)%nat -> (Z.of_nat T < 2 ^ 53)%Z ->
  (forall il, In il items -> (snd (snd il) <= T)%nat) ->
  Forall2 (fun il b => buy_level cp yh T (fst il) (snd il) = Ok b)
          items plan ->
  Forall2 (fun (il : nat * Level) (b : BuyLevel) =>
             py_round (of_nat (snd (snd il)) / of_nat T * 100)
             = Ok (weight_percent b) /\
             (- (5 # 8)
              <= inject_Z (weight_percent b)
                 - 100 * (inject_Z (Z.of_nat (snd (snd il)))
                          / inject_Z (Z.of_nat T))
              <= 5 # 8)%Q) items plan.
Proof.
  intros HT Hbig Hin HF.
  induction HF as [|il b ils bs Hb _ IH]; constructor.
  - apply buy_level_fields in Hb as (_ & Hw & _).
    destruct (@weight_near (snd (snd il)) T) as (w & Hw' & Hnear);
      try assumption.
    { apply Hin. now left. }
    rewrite Hw in Hw'. injection Hw' as <-. split; assumption.
  - apply IH. intros il' Hil'. apply Hin. now right.
Qed.

(** C4.  In a non-empty returned plan every weight is the value of
    line 112: the strength divided by the total strength of the selected
    levels, both converted to binary64, times one hundred, rounded to an
    integer with ties to even.  That integer is within five eighths of
    the exact percentage; the weights are non-negative, and their sum is
    within [count - 1] of one hundred.  The total strength is below
    [2^53], where the conversion of an integer to binary64 is exact. *)
Theorem weights_rounded_shares (lv : list Level) (cp yh : float)
  (st : Status) (plan : list BuyLevel) :
  build_plan lv cp yh = Ok (st, plan) -> plan <> [] ->
  let top := top_3 lv cp in
  (Z.of_nat (total_strength top) < 2 ^ 53)%Z ->
  Forall2 (fun (l : Level) (b : BuyLevel) =>
             py_round (of_uint63 (Uint63.of_Z (Z.of_nat (snd l)))
                       / of_uint63 (Uint63.of_Z (Z.of_nat (total_strength top)))
                       * 100)
             = Ok (weight_percent b) /\
             (- (5 # 8)
              <= inject_Z (weight_percent b)
                 - 100 * (inject_Z (Z.of_nat (snd l))
                          / inject_Z (Z.of_nat (total_strength top)))
              <= 5 # 8)%Q)
          top plan /\
  Forall (fun b => (0 <= weight_percent b)%Z) plan /\
  (Z.abs (total_weight plan - 100) <= Z.of_nat (length plan) - 1)%Z.
Proof.
  intros Hok Hne top Hbig. apply build_plan_inv in Hok. fold top in Hok.
  cbv zeta in Hok. destruct Hok as [(_ & _ & ->) | (Htop & _ & HF)];
    [contradiction|].
  set (T := total_strength top) in *.
  assert (HT : (1 <= T)%nat).
  { destruct plan as [|b plan]; [contradiction|].
    inversion HF as [|il b' ils bs Hb _ Heq]; subst.
    apply buy_level_fields in Hb as (Ht & _). lia. }
  assert (Hboth : Forall2 (fun (l : Level) (b : BuyLevel) =>
             py_round (of_nat (snd l) / of_nat T * 100)
             = Ok (weight_percent b) /\
             (- (5 # 8)
              <= inject_Z (weight_percent b)
                 - 100 * (inject_Z (Z.of_nat (snd l))
                          / inject_Z (Z.of_nat T))
              <= 5 # 8)%Q) top plan).
  { apply Forall2_enumerate.
    apply entries_weights with cp yh; try assumption.
    intros il Hil. apply strength_in_total. now apply in_enumerate. }
  split; [exact Hboth|].
  assert (HTq : (0 < inject_Z (Z.of_nat T))%Q)
    by (change 0%Q with (inject_Z 0); rewrite <- Zlt_Qlt; lia).
  split.
  - eapply Forall_impl; [|exact (Forall2_right Hboth)].
    intros b (l & _ & _ & Hb). cbv beta in Hb.
    assert (Hc : (0 <= inject_Z (Z.of_nat (snd l))
                       / inject_Z (Z.of_nat T))%Q).
    { apply Qle_shift_div_l; [exact HTq|]. rewrite Qmult_0_l.
      change 0%Q with (inject_Z 0). rewrite <- Zle_Qle. lia. }
    assert (Hw : (inject_Z (-1) < inject_Z (weight_percent b))%Q).
    { change (inject_Z (-1)) with (-1)%Q.
      set (w := inject_Z (weight_percent b)) in *.
      set (r := (inject_Z (Z.of_nat (snd l)) / inject_Z (Z.of_nat T))%Q)
        in *.
      clearbody w r. lra. }
    rewrite <- Zlt_Qlt in Hw. lia.
  - assert (Hnear := @near_shares_sum (inject_Z (Z.of_nat T)) top plan).
    destruct Hnear as [Hlo Hhi].
    { eapply Forall2_impl; [|exact Hboth]. intros l b [_ H]. exact H. }
    assert (Hsum : list_sum (map snd top) = T)
      by (unfold T, total_strength; now rewrite fold_left_add_list_sum).
    rewrite Hsum in Hlo, Hhi.
    assert (H1 : (inject_Z (Z.of_nat T) / inject_Z (Z.of_nat T) == 1)%Q).
    { unfold Qdiv. apply Qmult_inv_r. intros H0. rewrite H0 in HTq.
      discriminate HTq. }
    rewrite H1 in Hlo, Hhi.
    assert (Hn : (1 <= length plan)%nat)
      by (destruct plan; [contradiction | cbn; lia]).
    assert (Hup : (inject_Z (8 * (total_weight plan - 100))
                   <= inject_Z (5 * Z.of_nat (length plan)))%Q).
    { unfold Z.sub. rewrite !inject_Z_mult, inject_Z_plus, inject_Z_opp.
      change (inject_Z 8) with 8%Q. change (inject_Z 5) with 5%Q.
      change (inject_Z 100) with 100%Q.
      set (w := inject_Z (total_weight plan)) in *.
      set (n := inject_Z (Z.of_nat (length plan))) in *. clearbody w n. lra. }
    assert (Hdown : (inject_Z (- (5 * Z.of_nat (length plan)))
                     <= inject_Z (8 * (total_weight plan - 100)))%Q).
    { unfold Z.sub. rewrite inject_Z_opp, !inject_Z_mult, inject_Z_plus,
        inject_Z_opp.
      change (inject_Z 8) with 8%Q. change (inject_Z 5) with 5%Q.
      change (inject_Z 100) with 100%Q.
      set (w := inject_Z (total_weight plan)) in *.
      set (n := inject_Z (Z.of_nat (length plan))) in *. clearbody w n. lra. }
    rewrite <- Zle_Qle in Hup, Hdown. lia.
Qed.

Lemma weights_rounded_shares_witness :
  Forall2 (fun (l : Level) (b : BuyLevel) =>
             py_round (of_uint63 (Uint63.of_Z (Z.of_nat (snd l)))
                       / of_uint63 (Uint63.of_Z 40) * 100)
             = Ok (weight_percent b) /\
             (- (5 # 8)
              <= inject_Z (weight_percent b)
                 - 100 * (inject_Z (Z.of_nat (snd l)) / inject_Z 40)
              <= 5 # 8)%Q)
          [(95, 23%nat); (90, 17%nat)] uneven_plan /\
  Forall (fun b => (0 <= weight_percent b)%Z) uneven_plan /\
  (Z.abs (total_weight uneven_plan - 100)
   <= Z.of_nat (length uneven_plan) - 1)%Z.
Proof.
  apply (@weights_rounded_shares uneven_levels 100 120 FoundStrategicLevels);
    [vm_compute; reflexivity | discriminate | vm_compute; reflexivity].
Defined.

(* ------------------------------------------------------------------ *)
(** ** The entries of the plan                                         *)
(* ------------------------------------------------------------------ *)

(** C6.  In a returned plan the entry built from the level at position
    [i] of the selection has rank [i + 1]; its price is the average of the
    level rounded to two decimals; its discount is
    [(year_high - average) / year_high * 100] and its gap
    [(current_price - average) / current_price * 100], computed in
    binary64 and each rounded to two decimals.  Rounding to two decimals
    is numpy's: the number is multiplied by [100], taken to the nearest
    integer with ties to even, and divided by [100], each step in
    binary64. *)
Theorem plan_entry_fields (lv : list Level) (cp yh : float) (st : Status)
  (plan : list BuyLevel) :
  build_plan lv cp yh = Ok (st, plan) ->
  Forall2 (fun (il : nat * Level) (b : BuyLevel) =>
             let average := fst (snd il) in
             order b = (fst il + 1)%nat /\
             price b = rint (average * 100) / 100 /\
             discount_from_high_pct b
             = rint ((yh - average) / yh * 100 * 100) / 100 /\
             gap_from_current_pct b
             = rint ((cp - average) / cp * 100 * 100) / 100)
          (enumerate (top_3 lv cp)) plan /\
  (forall x q, value x = Some q ->
     exists q', value (rint x) = Some q' /\
                (q' == inject_Z (round q))%Q /\
                (- (1 # 2) <= inject_Z (round q) - q <= 1 # 2)%Q).
Proof.
  intros Hok. split.
  - apply build_plan_inv in Hok. cbv zeta in Hok.
    destruct Hok as [(-> & _ & ->) | (_ & _ & HF)]; [constructor|].
    eapply Forall2_impl; [|exact HF].
    intros il b Hb. apply buy_level_fields in Hb as (_ & _ & H1 & H2 & H3 & H4).
    cbv zeta. repeat split; assumption.
  - intros x q Hv. destruct (rint_value _ Hv) as (q' & Hq' & Heq).
    exists q'. split; [exact Hq'|]. split; [exact Heq | apply round_near].
Qed.

Lemma plan_entry_fields_witness :
  Forall2 (fun (il : nat * Level) (b : BuyLevel) =>
             let average := fst (snd il) in
             order b = (fst il + 1)%nat /\
             price b = rint (average * 100) / 100 /\
             discount_from_high_pct b
             = rint ((160 - average) / 160 * 100 * 100) / 100 /\
             gap_from_current_pct b
             = rint ((160 - average) / 160 * 100 * 100) / 100)
          [(0%nat, (67, 1%nat))]
          [{| order := 1; price := 67; weight_percent := 100;
              discount_from_high_pct := 58.13;
              gap_from_current_pct := 58.13 |}].
Proof.
  apply (@plan_entry_fields [(67, 1%nat)] 160 160 FoundStrategicLevels).
  vm_compute. reflexivity.
Defined.

(* ------------------------------------------------------------------ *)
(** ** The unguarded quotients                                         *)
(* ------------------------------------------------------------------ *)

Lemma round2_infinite (x : float) :
  is_infinity x = true -> is_infinity (round2 x) = true.
Proof.
  rewrite !is_infinity_spec. unfold round2. intros [s Hx].
  assert (H1 : FloatOps.Prim2SF (x * 100) = S754_infinity (xorb s false))
    by (now rewrite FloatAxioms.mul_spec, hundred_finite, Hx).
  assert (H2 : rint (x * 100) = x * 100)
    by (unfold rint; now rewrite H1).
  rewrite H2, FloatAxioms.div_spec, hundred_finite, H1.
  now exists (xorb (xorb s false) false).
Qed.

Lemma positive_finite (x : float) :
  (0 <? x) = true -> is_finite x = true ->
  exists m e, FloatOps.Prim2SF x = S754_finite false m e.
Proof.
  rewrite FloatAxioms.ltb_spec. change (FloatOps.Prim2SF 0) with (S754_zero false).
  intros Hlt Hfin. apply is_finite_spec in Hfin.
  destruct Hfin as [[s Hs] | (s & m & e & Hs)]; rewrite Hs in *.
  - discriminate Hlt.
  - destruct s; [discriminate Hlt | now exists m, e].
Qed.

(** With a finite non-zero divisor the percentage of lines 115-116 and
    its rounding are numbers. *)
Lemma percentage_number (d p : float) (m : positive) (e : Z) :
  FloatOps.Prim2SF d = S754_finite false m e -> is_nan p = false ->
  is_nan (round2 ((d - p) / d * 100)) = false.
Proof.
  intros Hd Hp. apply round2_number.
  apply mul_number with false 7036874417766400%positive (-46)%Z;
    [|reflexivity].
  apply div_number with false m e; [|exact Hd].
  apply sub_number; [|exact Hp].
  apply is_finite_spec. right. now exists false, m, e.
Qed.

(** With a zero divisor it is an infinity or a NaN. *)
Lemma percentage_zero_divisor (d p : float) :
  (d =? 0) = true -> is_nan p = false ->
  is_finite (round2 ((d - p) / d * 100)) = false.
Proof.
  intros Hd Hp. apply round2_not_finite. apply not_finite_spec.
  apply is_zero_spec in Hd as [s Hd]. apply number_is_nan in Hp.
  unfold number in Hp.
  rewrite FloatAxioms.mul_spec, FloatAxioms.div_spec, FloatAxioms.sub_spec,
    hundred_finite, Hd.
  destruct (FloatOps.Prim2SF p) as [sp|sp| |sp mp ep]; try congruence.
  - left. destruct s, sp; reflexivity.
  - right. eexists. reflexivity.
  - right. eexists. reflexivity.
Qed.

(** With a zero divisor and a negative level it is an infinity. *)
Lemma percentage_zero_current (d p : float) :
  (d =? 0) = true -> (p <? d) = true ->
  is_infinity (round2 ((d - p) / d * 100)) = true.
Proof.
  intros Hd Hp. apply round2_infinite. apply is_infinity_spec.
  destruct (ltb_zero_negative Hd Hp) as [(m & e & Hx) | Hx];
    apply is_zero_spec in Hd as [s Hd];
    rewrite FloatAxioms.mul_spec, FloatAxioms.div_spec, FloatAxioms.sub_spec,
      hundred_finite, Hd, Hx; eexists; reflexivity.
Qed.

(** C8.  The plan builder divides by the year high and by the current
    price without a guard.  The quotients are binary64 quotients, which
    raise nothing: for levels of positive strength the builder returns
    whatever the two divisors are.  With both of them positive and finite
    every discount and gap of the plan is a number.  With a year high of
    zero and a level below the current price the plan is returned with
    every discount an infinity or a NaN; with a current price of zero,
    with every gap an infinity. *)
Theorem quotients_unguarded (cp yh : float) (lv : list Level) :
  Forall (fun l : Level => (1 <= snd l)%nat) lv ->
  (Z.of_nat (total_strength (top_3 lv cp)) < 2 ^ 53)%Z ->
  exists st plan,
    build_plan lv cp yh = Ok (st, plan) /\
    ((0 <? yh) = true -> is_finite yh = true ->
     (0 <? cp) = true -> is_finite cp = true ->
     Forall (fun b => is_nan (discount_from_high_pct b) = false /\
                      is_nan (gap_from_current_pct b) = false) plan) /\
    ((exists l, In l lv /\ (fst l <? cp) = true) ->
     st = FoundStrategicLevels /\ plan <> [] /\
     ((yh =? 0) = true ->
      Forall (fun b => is_finite (discount_from_high_pct b) = false) plan) /\
     ((cp =? 0) = true ->
      Forall (fun b => is_infinity (gap_from_current_pct b) = true) plan)).
Proof.
  intros Hpos Hbig.
  destruct (build_plan_returns cp yh Hpos Hbig) as (st & plan & Hok).
  exists st, plan. split; [exact Hok|].
  assert (Hentries : Forall (fun b => exists l,
            In l lv /\ (fst l <? cp) = true /\
            discount_from_high_pct b = round2 ((yh - fst l) / yh * 100) /\
            gap_from_current_pct b = round2 ((cp - fst l) / cp * 100)) plan).
  { pose proof (build_plan_inv _ _ _ Hok) as Hinv. cbv zeta in Hinv.
    destruct Hinv as [(_ & _ & ->) | (_ & _ & HF)]; [constructor|].
    eapply Forall_impl; [|exact (Forall2_right HF)].
    intros b (il & Hil & Hb). cbv beta in Hb.
    apply buy_level_fields in Hb as (_ & _ & _ & _ & H3 & H4).
    apply in_enumerate, in_selection in Hil as [Hin Hlt].
    exists (snd il). auto. }
  split; [|intros Hbelow; destruct (@plan_nonempty lv cp yh st plan Hok Hbelow) as [-> Hne];
           split; [reflexivity|]; split; [exact Hne|]; split].
  - intros Hy Hyf Hc Hcf.
    destruct (positive_finite Hy Hyf) as (my & ey & Hyh).
    destruct (positive_finite Hc Hcf) as (mc & ec & Hcp).
    eapply Forall_impl; [|exact Hentries].
    intros b (l & _ & Hlt & -> & ->).
    apply ltb_number in Hlt as [Hl _].
    split; eapply percentage_number; eassumption.
  - intros Hy. eapply Forall_impl; [|exact Hentries].
    intros b (l & _ & Hlt & -> & _).
    apply ltb_number in Hlt as [Hl _].
    now apply percentage_zero_divisor.
  - intros Hc. eapply Forall_impl; [|exact Hentries].
    intros b (l & _ & Hlt & _ & ->).
    now apply percentage_zero_current.
Qed.

Lemma quotients_unguarded_witness :
  exists st plan,
    build_plan [(67, 1%nat)] 160 0 = Ok (st, plan) /\
    ((0 <? 0) = true -> is_finite 0 = true ->
     (0 <? 160) = true -> is_finite 160 = true ->
     Forall (fun b => is_nan (discount_from_high_pct b) = false /\
                      is_nan (gap_from_current_pct b) = false) plan) /\
    ((exists l, In l [(67, 1%nat)] /\ (fst l <? 160) = true) ->
     st = FoundStrategicLevels /\ plan <> [] /\
     ((0 =? 0) = true ->
      Forall (fun b => is_finite (discount_from_high_pct b) = false) plan) /\
     ((160 =? 0) = true ->
      Forall (fun b => is_infinity (gap_from_current_pct b) = true) plan)).
Proof.
  apply (@quotients_unguarded 160 0 [(67, 1%nat)]).
  - repeat constructor.
  - vm_compute. reflexivity.
Defined.
End B64Claims.

(* ------------------------------------------------------------------ *)
(** ** The handler on binary64 frames                                  *)
(* ------------------------------------------------------------------ *)

Lemma list_sum_perm (l l' : list nat) :
  Permutation l l' -> list_sum l = list_sum l'.
Proof.
  induction 1 as [|x l l' _ IH|x y l|l l' l'' _ IH1 _ IH2].
  - reflexivity.
  - change (x + list_sum l = x + list_sum l')%nat. now rewrite IH.
  - change (y + (x + list_sum l) = x + (y + list_sum l))%nat. lia.
  - congruence.
Qed.

Lemma list_sum_filter (A : Type) (f : A -> nat) (p : A -> bool)
  (l : list A) :
  (list_sum (map f (filter p l)) <= list_sum (map f l))%nat.
Proof.
  induction l as [|x l IH]; cbn [filter map]; [lia|].
  change (list_sum (f x :: map f l)) with (f x + list_sum (map f l))%nat.
  destruct (p x); cbn [map].
  - change (list_sum (f x :: map f (filter p l)))
      with (f x + list_sum (map f (filter p l)))%nat. lia.
  - lia.
Qed.

Lemma list_sum_firstn (n : nat) (l : list nat) :
  (list_sum (firstn n l) <= list_sum l)%nat.
Proof.
  revert n. induction l as [|x l IH]; intros [|n]; cbn [firstn];
    try (cbn; lia).
  change (x + list_sum (firstn n l) <= x + list_sum l)%nat.
  specialize (IH n). lia.
Qed.

Module B64Handler.
Import PrimFloat SpecFloat B64 B64Order B64Facts B64Plan.
Local Open Scope float_scope.

(** *** The scan raises nothing *)

Lemma iloc_returns (column : list float) (i : nat) :
  (i < length column)%nat -> exists v, iloc column i = Ok v.
Proof.
  intros Hi. unfold iloc.
  destruct (nth_error column i) as [v|] eqn:E; [now exists v|].
  apply nth_error_None in E. lia.
Qed.

Lemma fractal_low_returns (Low : list float) (i : nat) (v : float) :
  (2 <= i)%nat -> (i + 2 < length Low)%nat ->
  exists b, fractal_low Low i v = Ok b.
Proof.
  intros H2 Hlen. unfold fractal_low, and_then.
  destruct (@iloc_returns Low (i - 1)) as [a1 ->]; [lia|].
  destruct (@iloc_returns Low (i - 2)) as [a2 ->]; [lia|].
  destruct (@iloc_returns Low (i + 1)) as [b1 ->]; [lia|].
  destruct (@iloc_returns Low (i + 2)) as [b2 ->]; [lia|].
  cbn [bind].
  destruct (v <? a1); [|now eexists].
  destruct (v <? a2); [|now eexists].
  destruct (v <? b1); now eexists.
Qed.

Lemma scan_returns (Low : list float) (indices : list nat) :
  Forall (fun i => 2 <= i /\ i + 2 < length Low)%nat indices ->
  forall acc, exists out,
    scan Low indices acc = Ok out /\
    (length out <= length acc + length indices)%nat.
Proof.
  induction 1 as [|i rest [H2 Hlen] _ IH]; intros acc; cbn [scan].
  - exists acc. split; [reflexivity | lia].
  - destruct (@iloc_returns Low i) as [v ->]; [lia|]. cbn [bind].
    destruct (@fractal_low_returns Low i v H2 Hlen) as [b ->]. cbn [bind].
    destruct (IH (if b then acc ++ [v] else acc)) as (out & -> & Hout).
    exists out. split; [reflexivity|].
    destruct b; [rewrite length_app in Hout|]; cbn [length] in *; lia.
Qed.

Lemma levels_returns (Low : list float) :
  exists candidates,
    levels Low = Ok candidates /\
    (length candidates <= length Low)%nat.
Proof.
  unfold levels. destruct (5 <? length Low)%nat eqn:E.
  - apply Nat.ltb_lt in E.
    destruct (@scan_returns Low (range 2 (length Low - 2))) with (acc := @nil float)
      as (out & Hout & Hlen).
    + apply Forall_forall. intros i Hi. unfold range in Hi.
      apply in_seq in Hi. lia.
    + exists out. split; [exact Hout|].
      unfold range in Hlen. rewrite length_seq in Hlen. cbn [length] in Hlen.
      lia.
  - exists []. split; [reflexivity | cbn; lia].
Qed.

(** *** Strengths *)

Lemma while_levels_strengths (l : list float) :
  Forall (fun lv : Level => (1 <= snd lv)%nat) (while_levels l) /\
  list_sum (map snd (while_levels l)) = length l.
Proof.
  funelim (while_levels l); simp while_levels; [split; [constructor | reflexivity]|].
  cbv zeta. destruct H as [IH1 IH2]. split.
  - constructor; [cbn; lia | exact IH1].
  - cbn [map snd].
    change (list_sum (?a :: ?r)) with (a + list_sum r)%nat.
    rewrite IH2. cbn [length].
    pose proof (Permutation_length (filter_partition_perm (within base) levels0))
      as Hlen.
    rewrite length_app in Hlen. lia.
Qed.

Lemma consolidated_strengths (candidates : list float) :
  Forall (fun lv : Level => (1 <= snd lv)%nat) (consolidated candidates) /\
  list_sum (map snd (consolidated candidates)) = length candidates.
Proof.
  unfold consolidated. destruct candidates as [|c cs];
    [split; [constructor | reflexivity]|].
  destruct (while_levels_strengths (sort ltb (c :: cs))) as [H1 H2].
  split; [exact H1|]. rewrite H2.
  apply Permutation_length, sort_perm.
Qed.

Lemma selection_strength (lv : list Level) (cp : float) :
  (total_strength (top_3 lv cp) <= list_sum (map snd lv))%nat.
Proof.
  unfold total_strength. rewrite fold_left_add_list_sum. cbn [Nat.add].
  unfold top_3. rewrite <- firstn_map.
  eapply Nat.le_trans; [apply list_sum_firstn|].
  unfold by_price_desc.
  erewrite list_sum_perm; [|apply Permutation_map, sort_reverse_perm].
  apply list_sum_filter.
Qed.

(** The detector and the builder return on every series of fewer than
    [2^53] lows. *)
Lemma strategic_levels_returns (Low : list float) (cp yh : float) :
  (Z.of_nat (length Low) < 2 ^ 53)%Z ->
  exists st plan, strategic_levels Low cp yh = Ok (st, plan).
Proof.
  intros Hbig. unfold strategic_levels, detect_levels.
  destruct (levels_returns Low) as (candidates & -> & Hlen). cbn [bind].
  destruct (consolidated_strengths candidates) as [Hpos Hsum].
  apply build_plan_returns; [exact Hpos|].
  pose proof (selection_strength (consolidated candidates) cp). lia.
Qed.

(** X1.  On a frame of fewer than [2^53] rows the handler has two
    outcomes: on the empty frame it raises [HTTPException] with status
    404, and on every other frame it returns a response.  No index is
    out of range, no average or weight divides by a zero count, and the
    quotients by the year high and the current price are binary64
    quotients, which raise nothing whatever the prices are. *)
Theorem handler_outcomes (df : list Row) :
  (Z.of_nat (length df) < 2 ^ 53)%Z ->
  (df = [] -> analyze_stock df = Raise (HTTPException 404)) /\
  (df <> [] -> exists r, analyze_stock df = Ok r) /\
  (forall e, analyze_stock df = Raise e ->
             e = HTTPException 404 /\ df = []).
Proof.
  intros Hbig.
  assert (Hret : df <> [] -> exists r, analyze_stock df = Ok r).
  { intros Hne. unfold analyze_stock.
    destruct (rev df) as [|last rest] eqn:E.
    - apply (f_equal (@rev Row)) in E. rewrite rev_involutive in E.
      now destruct Hne.
    - match goal with
      | |- context [strategic_levels ?L ?c ?y] =>
          destruct (@strategic_levels_returns L c y) as (st & plan & ->)
      end.
      + now rewrite length_map.
      + cbn [bind]. eexists. reflexivity. }
  split; [intros ->; reflexivity|]. split; [exact Hret|].
  intros e He. destruct df as [|row df'].
  - cbn in He. injection He as <-. split; reflexivity.
  - destruct Hret as [r Hr]; [discriminate|]. congruence.
Qed.

Lemma handler_outcomes_witness :
  exists r,
    analyze_stock
      (map (fun l => {| High := l + 2; Low := l; Close := l + 1 |})
           [10; 9; 8; 9; 10; 9; 8; 9; 10]) = Ok r.
Proof.
  apply (@handler_outcomes
           (map (fun l => {| High := l + 2; Low := l; Close := l + 1 |})
                [10; 9; 8; 9; 10; 9; 8; 9; 10])).
  - vm_compute. reflexivity.
  - discriminate.
Defined.
End B64Handler.

Module B64Year.
Import PrimFloat SpecFloat B64 B64Order B64Facts B64Plan B64Handler.
Local Open Scope float_scope.

(* ------------------------------------------------------------------ *)
(** ** The 52-week high and low on binary64                            *)
(* ------------------------------------------------------------------ *)

Lemma fmax_spec (x y : float) :
  is_nan x = false -> is_nan y = false ->
  (fmax x y = x \/ fmax x y = y) /\
  (x <=? fmax x y) = true /\ (y <=? fmax x y) = true.
Proof.
  intros Hx Hy. unfold fmax. destruct (x <? y) eqn:E.
  - split; [now right|]. split; [now apply ltb_leb | now apply leb_refl].
  - split; [now left|]. split; [now apply leb_refl | now apply ltb_false_leb].
Qed.

Lemma fmin_spec (x y : float) :
  is_nan x = false -> is_nan y = false ->
  (fmin x y = x \/ fmin x y = y) /\
  (fmin x y <=? x) = true /\ (fmin x y <=? y) = true.
Proof.
  intros Hx Hy. unfold fmin. destruct (y <? x) eqn:E.
  - split; [now right|]. split; [now apply ltb_leb | now apply leb_refl].
  - split; [now left|]. split; [now apply leb_refl | now apply ltb_false_leb].
Qed.

Lemma fold_fmax_spec (l : list float) :
  Forall (fun x => is_nan x = false) l ->
  forall a, is_nan a = false ->
    (fold_left fmax l a = a \/ In (fold_left fmax l a) l) /\
    (a <=? fold_left fmax l a) = true /\
    forall x, In x l -> (x <=? fold_left fmax l a) = true.
Proof.
  induction 1 as [|y l Hy _ IH]; intros a Ha; cbn [fold_left].
  - split; [now left|]. split; [now apply leb_refl | intros x []].
  - destruct (@fmax_spec a y Ha Hy) as (Hsel & Hax & Hyx).
    assert (Hm : is_nan (fmax a y) = false)
      by (destruct Hsel as [-> | ->]; assumption).
    destruct (IH (fmax a y) Hm) as (Hin & Hge & Hall).
    split; [|split].
    + destruct Hin as [Hin | Hin]; [|right; now right].
      rewrite Hin. destruct Hsel as [-> | ->]; [now left | right; now left].
    + now apply leb_trans with (fmax a y).
    + intros x [<- | Hx]; [exact (leb_trans Hyx Hge) | now apply Hall].
Qed.

Lemma fold_fmin_spec (l : list float) :
  Forall (fun x => is_nan x = false) l ->
  forall a, is_nan a = false ->
    (fold_left fmin l a = a \/ In (fold_left fmin l a) l) /\
    (fold_left fmin l a <=? a) = true /\
    forall x, In x l -> (fold_left fmin l a <=? x) = true.
Proof.
  induction 1 as [|y l Hy _ IH]; intros a Ha; cbn [fold_left].
  - split; [now left|]. split; [now apply leb_refl | intros x []].
  - destruct (@fmin_spec a y Ha Hy) as (Hsel & Hax & Hyx).
    assert (Hm : is_nan (fmin a y) = false)
      by (destruct Hsel as [-> | ->]; assumption).
    destruct (IH (fmin a y) Hm) as (Hin & Hge & Hall).
    split; [|split].
    + destruct Hin as [Hin | Hin]; [|right; now right].
      rewrite Hin. destruct Hsel as [-> | ->]; [now left | right; now left].
    + now apply leb_trans with (fmin a y).
    + intros x [<- | Hx]; [exact (leb_trans Hge Hyx) | now apply Hall].
Qed.

Lemma response_fields (df : list Row) (last : Row)
  (r : StockAnalysisResponse) :
  analyze_stock (df ++ [last]) = Ok r ->
  let year := tail 52 (df ++ [last]) in
  current_price r = round2 (Close last) /\
  year_high r = round2 (fold_left fmax (map High year) (High last)) /\
  year_low r = round2 (fold_left fmin (map Low year) (Low last)).
Proof.
  unfold analyze_stock. rewrite rev_unit.
  destruct (strategic_levels _ _ _) as [[st plan] | e]; cbn [bind];
    [|discriminate].
  intros [= <-]. cbn. repeat split.
Qed.

(** X3.  In a response the year high is the highest high, and the year
    low the lowest low, of the last 52 rows of the frame (of all rows
    when there are fewer), and the current price is the close of the last
    row; each is rounded to two decimals as numpy does, by [* 100],
    [rint] and [/ 100] in binary64.  The highs and lows of those rows are
    numbers. *)
Theorem year_extremes (df : list Row) (last : Row)
  (r : StockAnalysisResponse) :
  analyze_stock (df ++ [last]) = Ok r ->
  let year := tail 52 (df ++ [last]) in
  Forall (fun row => is_nan (High row) = false /\ is_nan (Low row) = false)
         year ->
  (length year = Nat.min 52 (length (df ++ [last])) /\
   exists older, df ++ [last] = older ++ year) /\
  (exists top, In top year /\
               year_high r = rint (High top * 100) / 100 /\
               forall row, In row year -> (High row <=? High top) = true) /\
  (exists bottom, In bottom year /\
                  year_low r = rint (Low bottom * 100) / 100 /\
                  forall row, In row year -> (Low bottom <=? Low row) = true) /\
  current_price r = rint (Close last * 100) / 100.
Proof.
  intros Hok year Hnum. apply response_fields in Hok as (Hcp & Hhi & Hlo).
  fold year in Hhi, Hlo.
  destruct (tail_last 51 df last) as (Hlast & Hlen & Hsuffix).
  fold year in Hlast, Hlen, Hsuffix.
  rewrite Forall_forall in Hnum.
  assert (HnH : Forall (fun x => is_nan x = false) (map High year)).
  { apply Forall_forall. intros x Hx.
    apply in_map_iff in Hx as (row & <- & Hrow). now apply Hnum. }
  assert (HnL : Forall (fun x => is_nan x = false) (map Low year)).
  { apply Forall_forall. intros x Hx.
    apply in_map_iff in Hx as (row & <- & Hrow). now apply Hnum. }
  split; [now split|]. split; [|split; [|exact Hcp]].
  - destruct (fold_fmax_spec HnH (High last))
      as (Hsel & _ & Hall); [now apply Hnum|].
    assert (Hrow : exists top, In top year /\
               High top = fold_left fmax (map High year) (High last)).
    { destruct Hsel as [Hsel | Hsel].
      - exists last. now split.
      - apply in_map_iff in Hsel as (top & Htop & Hin). now exists top. }
    destruct Hrow as (top & Hin & Htop). exists top.
    split; [exact Hin|]. split; [now rewrite Htop|].
    intros row Hrow. rewrite Htop. apply Hall. now apply in_map.
  - destruct (fold_fmin_spec HnL (Low last))
      as (Hsel & _ & Hall); [now apply Hnum|].
    assert (Hrow : exists bottom, In bottom year /\
               Low bottom = fold_left fmin (map Low year) (Low last)).
    { destruct Hsel as [Hsel | Hsel].
      - exists last. now split.
      - apply in_map_iff in Hsel as (bottom & Hb & Hin). now exists bottom. }
    destruct Hrow as (bottom & Hin & Hb). exists bottom.
    split; [exact Hin|]. split; [now rewrite Hb|].
    intros row Hrow. rewrite Hb. apply Hall. now apply in_map.
Qed.

Lemma year_extremes_witness :
  let year := tail 52 (example_rows ++ [example_last]) in
  (length year = Nat.min 52 (length (example_rows ++ [example_last])) /\
   exists older, example_rows ++ [example_last] = older ++ year) /\
  (exists top, In top year /\
               year_high example_response = rint (High top * 100) / 100 /\
               forall row, In row year -> (High row <=? High top) = true) /\
  (exists bottom, In bottom year /\
                  year_low example_response = rint (Low bottom * 100) / 100 /\
                  forall row, In row year ->
                              (Low bottom <=? Low row) = true) /\
  current_price example_response = rint (Close example_last * 100) / 100.
Proof.
  apply (@year_extremes example_rows example_last example_response).
  - vm_compute. reflexivity.
  - repeat constructor.
Defined.
End B64Year.

(* ================================================================== *)
(** * Properties of the run on the heap                                *)
(* ================================================================== *)

(* ------------------------------------------------------------------ *)
(** ** The run on the heap                                             *)
(* ------------------------------------------------------------------ *)

Module StoreFacts.
Import PrimFloat B64 Store.
Local Open Scope float_scope.

(** *** The heap *)

Lemma length_update (h : heap) (r : ref) (o : object) :
  length (update h r o) = length h.
Proof.
  revert r. induction h as [|x h IH]; intros [|r]; cbn; auto.
Qed.

Lemma nth_error_update_same (h : heap) (r : ref) (o : object) :
  (r < length h)%nat -> nth_error (update h r o) r = Some o.
Proof.
  revert r. induction h as [|x h IH]; intros [|r] Hr; cbn in *;
    try lia; [reflexivity | apply IH; lia].
Qed.

Lemma nth_error_update_other (h : heap) (r r' : ref) (o : object) :
  r <> r' -> nth_error (update h r o) r' = nth_error h r'.
Proof.
  revert r r'. induction h as [|x h IH]; intros [|r] [|r'] Hne; cbn;
    try reflexivity; try contradiction.
  apply IH. congruence.
Qed.

Lemma nth_error_alloc_new (h : heap) (o : object) :
  nth_error (h ++ [o]) (length h) = Some o.
Proof. rewrite nth_error_app2, Nat.sub_diag by lia. reflexivity. Qed.

Lemma nth_error_alloc_old (h : heap) (o : object) (r : ref) :
  (r < length h)%nat -> nth_error (h ++ [o]) r = nth_error h r.
Proof. intros Hr. now rewrite nth_error_app1. Qed.

Lemma bound_in_heap (h : heap) (r : ref) (o : object) :
  nth_error h r = Some o -> (r < length h)%nat.
Proof. intros H. apply nth_error_Some. congruence. Qed.

(** *** Statements *)

Lemma bindS_done (A B : Type) (c : M A) (k : A -> M B) (h h' : heap)
  (a : A) :
  c h = Done a h' -> bindS c k h = k a h'.
Proof. intros H. unfold bindS. now rewrite H. Qed.

Lemma bindS_fault (A B : Type) (c : M A) (k : A -> M B) (h : heap)
  (e : exn) :
  c h = Fault e -> bindS c k h = Fault e.
Proof. intros H. unfold bindS. now rewrite H. Qed.

Lemma bindS_ret (A B : Type) (a : A) (k : A -> M B) (h : heap) :
  bindS (ret a) k h = k a h.
Proof. reflexivity. Qed.

Lemma bindS_raise (A B : Type) (e : exn) (k : A -> M B) (h : heap) :
  bindS (raise e) k h = Fault e.
Proof. reflexivity. Qed.

Ltac run_with lem := erewrite bindS_done; [|apply lem; eassumption].

Lemma floats_at (h : heap) (r : ref) (l : list float) :
  nth_error h r = Some (FloatList l) -> floats r h = Done l h.
Proof. intros H. unfold floats, bindS, load. now rewrite H. Qed.

Lemma levels_at (h : heap) (r : ref) (l : list Level) :
  nth_error h r = Some (LevelList l) -> levels_of r h = Done l h.
Proof. intros H. unfold levels_of, bindS, load. now rewrite H. Qed.

Lemma plan_at (h : heap) (r : ref) (l : list BuyLevel) :
  nth_error h r = Some (PlanList l) -> plan_of r h = Done l h.
Proof. intros H. unfold plan_of, bindS, load. now rewrite H. Qed.

Lemma store_at (h : heap) (r : ref) (o o' : object) :
  nth_error h r = Some o' -> store r o h = Done tt (update h r o).
Proof.
  intros H. apply bound_in_heap in H. unfold store.
  apply Nat.ltb_lt in H. now rewrite H.
Qed.

Lemma append_float_at (h : heap) (r : ref) (l : list float) (x : float) :
  nth_error h r = Some (FloatList l) ->
  append_float r x h = Done tt (update h r (FloatList (l ++ [x]))).
Proof.
  intros H. unfold append_float.
  run_with floats_at. now apply store_at with (FloatList l).
Qed.

Lemma append_level_at (h : heap) (r : ref) (l : list Level) (x : Level) :
  nth_error h r = Some (LevelList l) ->
  append_level r x h = Done tt (update h r (LevelList (l ++ [x]))).
Proof.
  intros H. unfold append_level.
  run_with levels_at. now apply store_at with (LevelList l).
Qed.

Lemma append_entry_at (h : heap) (r : ref) (l : list BuyLevel)
  (b : BuyLevel) :
  nth_error h r = Some (PlanList l) ->
  append_entry r b h = Done tt (update h r (PlanList (l ++ [b]))).
Proof.
  intros H. unfold append_entry.
  run_with plan_at. now apply store_at with (PlanList l).
Qed.

Ltac heap_lia :=
  repeat rewrite length_app; repeat rewrite length_update; cbn [length];
  lia.

Lemma pop_first_at (h : heap) (r : ref) (x : float) (rest : list float) :
  nth_error h r = Some (FloatList (x :: rest)) ->
  pop_first r h = Done x (update h r (FloatList rest)).
Proof.
  intros H. unfold pop_first. run_with floats_at. cbv beta iota.
  erewrite bindS_done; [reflexivity | eapply store_at; eassumption].
Qed.

Lemma alloc_at (h : heap) (o : object) :
  alloc o h = Done (length h) (h ++ [o]).
Proof. reflexivity. Qed.

(** *** The scan *)

Lemma for_scan_spec (df_low levels : ref) (Low : list float)
  (indices : list nat) :
  df_low <> levels ->
  forall acc h,
    nth_error h df_low = Some (FloatList Low) ->
    nth_error h levels = Some (FloatList acc) ->
    match scan Low indices acc with
    | Ok out =>
        exists h',
          for_scan df_low levels indices h = Done tt h' /\
          length h' = length h /\
          nth_error h' levels = Some (FloatList out) /\
          forall r, r <> levels -> nth_error h' r = nth_error h r
    | Raise e => for_scan df_low levels indices h = Fault e
    end.
Proof.
  intros Hne. induction indices as [|i rest IH]; intros acc h Hdf Hlv;
    cbn [scan for_scan].
  - exists h. auto.
  - run_with floats_at.
    destruct (iloc Low i) as [v|e]; cbn [bind lift];
      [rewrite bindS_ret | now rewrite bindS_raise].
    destruct (fractal_low Low i v) as [hit|e]; cbn [bind lift];
      [rewrite bindS_ret | now rewrite bindS_raise].
    destruct hit.
    + run_with append_float_at.
      pose proof (@bound_in_heap _ _ _ Hlv) as Hb.
      specialize (IH (acc ++ [v]) (update h levels (FloatList (acc ++ [v])))).
      rewrite nth_error_update_other, nth_error_update_same in IH
        by (assumption || congruence).
      specialize (IH Hdf eq_refl).
      destruct (scan Low rest (acc ++ [v])) as [out|e]; [|exact IH].
      destruct IH as (h' & Hrun & Hlen & Hout & Hframe).
      exists h'. split; [exact Hrun|].
      split; [now rewrite Hlen, length_update|]. split; [exact Hout|].
      intros r Hr. rewrite Hframe by exact Hr.
      now apply nth_error_update_other.
    + rewrite bindS_ret. exact (IH acc h Hdf Hlv).
Qed.

(** *** The clustering loop *)

Lemma for_partition_spec (base : float) (group keep : ref)
  (xs : list float) :
  group <> keep ->
  forall g k h,
    nth_error h group = Some (FloatList g) ->
    nth_error h keep = Some (FloatList k) ->
    exists h',
      for_partition base group keep xs h = Done tt h' /\
      length h' = length h /\
      nth_error h' group = Some (FloatList (g ++ filter (within base) xs)) /\
      nth_error h' keep
      = Some (FloatList (k ++ filter (fun x => negb (within base x)) xs)) /\
      forall r, r <> group -> r <> keep -> nth_error h' r = nth_error h r.
Proof.
  intros Hne. induction xs as [|x xs IH]; intros g k h Hg Hk;
    cbn [for_partition filter].
  - exists h. rewrite !app_nil_r. auto.
  - pose proof (@bound_in_heap _ _ _ Hg) as Hbg.
    pose proof (@bound_in_heap _ _ _ Hk) as Hbk.
    change (within base x) with (x <=? base * 1.05).
    destruct (x <=? base * 1.05); cbn [negb].
    + run_with append_float_at.
      destruct (IH (g ++ [x]) k (update h group (FloatList (g ++ [x]))))
        as (h' & Hrun & Hlen & Hg' & Hk' & Hframe).
      { now apply nth_error_update_same. }
      { now rewrite nth_error_update_other. }
      exists h'. split; [exact Hrun|].
      split; [now rewrite Hlen, length_update|].
      split; [now rewrite <- app_assoc in Hg'|]. split; [exact Hk'|].
      intros r Hr1 Hr2. rewrite Hframe by assumption.
      now apply nth_error_update_other.
    + run_with append_float_at.
      destruct (IH g (k ++ [x]) (update h keep (FloatList (k ++ [x]))))
        as (h' & Hrun & Hlen & Hg' & Hk' & Hframe).
      { rewrite nth_error_update_other by congruence. exact Hg. }
      { now apply nth_error_update_same. }
      exists h'. split; [exact Hrun|].
      split; [now rewrite Hlen, length_update|].
      split; [exact Hg'|]. split; [now rewrite <- app_assoc in Hk'|].
      intros r Hr1 Hr2. rewrite Hframe by assumption.
      now apply nth_error_update_other.
Qed.

(** With a budget of at least the number of values left, the loop
    returns; what it appends to [consolidated] is what [B64.while_levels]
    computes, and of the objects that were there before only the one of
    [levels] and the one of [consolidated] are touched. *)
Lemma while_levels_spec (budget : nat) :
  forall (rest : list float) (done : list Level) (h : heap)
         (levels consolidated : ref),
    (length rest <= budget)%nat ->
    levels <> consolidated ->
    nth_error h levels = Some (FloatList rest) ->
    nth_error h consolidated = Some (LevelList done) ->
    exists h',
      Store.while_levels budget levels consolidated h = Done tt h' /\
      (length h <= length h')%nat /\
      nth_error h' consolidated
      = Some (LevelList (done ++ B64.while_levels rest)) /\
      forall r, (r < length h)%nat -> r <> levels -> r <> consolidated ->
                nth_error h' r = nth_error h r.
Proof.
  induction budget as [|budget IH]; intros rest done h levels consolidated
    Hlen Hne Hlv Hcons.
  - destruct rest as [|x rest]; [|cbn in Hlen; lia].
    cbn [Store.while_levels]. run_with floats_at.
    exists h. simp while_levels. rewrite app_nil_r. auto.
  - cbn [Store.while_levels]. run_with floats_at.
    destruct rest as [|base rest].
    { exists h. simp while_levels. rewrite app_nil_r. auto. }
    cbn [length] in Hlen.
    pose proof (@bound_in_heap _ _ _ Hlv) as Hblv.
    pose proof (@bound_in_heap _ _ _ Hcons) as Hbcons.
    (* base = levels.pop(0) *)
    run_with pop_first_at.
    set (h1 := update h levels (FloatList rest)).
    assert (Hlen1 : length h1 = length h) by apply length_update.
    (* group = [base]; keep = [] *)
    erewrite bindS_done by apply alloc_at.
    set (h2 := h1 ++ [FloatList [base]]).
    assert (Hlen2 : length h2 = S (length h))
      by (unfold h2; rewrite length_app, Hlen1; cbn; lia).
    erewrite bindS_done by apply alloc_at.
    set (h3 := h2 ++ [FloatList []]).
    assert (Hlen3 : length h3 = S (S (length h)))
      by (unfold h3; rewrite length_app, Hlen2; cbn; lia).
    assert (Hlv3 : nth_error h3 levels = Some (FloatList rest)).
    { unfold h3, h2. rewrite !nth_error_alloc_old by heap_lia.
      now apply nth_error_update_same. }
    assert (Hg3 : nth_error h3 (length h1) = Some (FloatList [base])).
    { unfold h3. rewrite nth_error_alloc_old by heap_lia.
      apply nth_error_alloc_new. }
    assert (Hk3 : nth_error h3 (length h2) = Some (FloatList []))
      by apply nth_error_alloc_new.
    (* for x in levels *)
    erewrite bindS_done by (apply floats_at; exact Hlv3).
    destruct (@for_partition_spec base (length h1) (length h2) rest
                ltac:(lia) [base] [] h3 Hg3 Hk3)
      as (h4 & Hrun4 & Hlen4 & Hg4 & Hk4 & Hframe4).
    erewrite bindS_done by exact Hrun4.
    erewrite bindS_done by (apply floats_at; exact Hg4).
    (* consolidated.append(...) *)
    assert (Hcons4 : nth_error h4 consolidated = Some (LevelList done)).
    { rewrite Hframe4 by lia. unfold h3, h2.
      rewrite !nth_error_alloc_old by heap_lia. unfold h1.
      rewrite nth_error_update_other by exact Hne. exact Hcons. }
    erewrite bindS_done by (apply append_level_at; exact Hcons4).
    cbn [app] in *.
    set (group := base :: filter (within base) rest) in *.
    set (h5 := update h4 consolidated
                 (LevelList (done ++ [(sum group / of_nat (length group),
                                       length group)]))).
    assert (Hlen5 : length h5 = S (S (length h)))
      by (unfold h5; rewrite length_update; lia).
    (* the next iteration, on keep *)
    destruct (IH (filter (fun x => negb (within base x)) rest)
                (done ++ [(sum group / of_nat (length group), length group)])
                h5 (length h2) consolidated)
      as (h' & Hrun & Hlen' & Hcons' & Hframe').
    { pose proof (filter_length_le (fun x => negb (within base x)) rest).
      lia. }
    { lia. }
    { unfold h5. rewrite nth_error_update_other by lia. exact Hk4. }
    { unfold h5. apply nth_error_update_same. lia. }
    exists h'. split; [exact Hrun|]. split; [lia|]. split.
    + rewrite Hcons'. simp while_levels. cbv zeta. fold group.
      now rewrite <- app_assoc.
    + intros r Hr Hr1 Hr2. rewrite Hframe' by lia. unfold h5.
      rewrite nth_error_update_other by congruence.
      rewrite Hframe4 by lia. unfold h3, h2.
      rewrite !nth_error_alloc_old by heap_lia. unfold h1.
      now apply nth_error_update_other.
Qed.

(** *** The loop of the plan *)

Lemma for_plan_spec (cp yh : float) (total : nat) (strategic_plan : ref)
  (items : list (nat * Level)) :
  forall acc h,
    nth_error h strategic_plan = Some (PlanList acc) ->
    match plan_loop cp yh total items acc with
    | Ok plan =>
        exists h',
          for_plan cp yh total items strategic_plan h = Done tt h' /\
          length h' = length h /\
          nth_error h' strategic_plan = Some (PlanList plan) /\
          forall r, r <> strategic_plan -> nth_error h' r = nth_error h r
    | Raise e => for_plan cp yh total items strategic_plan h = Fault e
    end.
Proof.
  induction items as [|[i l] items IH]; intros acc h Hsp;
    cbn [plan_loop for_plan].
  - exists h. auto.
  - destruct (buy_level cp yh total i l) as [b|e]; cbn [bind lift];
      [rewrite bindS_ret | now rewrite bindS_raise].
    erewrite bindS_done by (apply append_entry_at; exact Hsp).
    pose proof (@bound_in_heap _ _ _ Hsp) as Hb.
    specialize (IH (acc ++ [b]) (update h strategic_plan
                                   (PlanList (acc ++ [b])))
                  (nth_error_update_same _ _ Hb)).
    destruct (plan_loop cp yh total items (acc ++ [b])) as [plan|e];
      [|exact IH].
    destruct IH as (h' & Hrun & Hlen & Hout & Hframe).
    exists h'. split; [exact Hrun|].
    split; [now rewrite Hlen, length_update|]. split; [exact Hout|].
    intros r Hr. rewrite Hframe by exact Hr.
    now apply nth_error_update_other.
Qed.

(** *** The whole run *)

Lemma sort_floats_at (h : heap) (r : ref) (l : list float) :
  nth_error h r = Some (FloatList l) ->
  sort_floats r h = Done tt (update h r (FloatList (sort ltb l))).
Proof.
  intros H. unfold sort_floats. run_with floats_at.
  now apply store_at with (FloatList l).
Qed.

Lemma sort_levels_desc_at (h : heap) (r : ref) (l : list Level) :
  nth_error h r = Some (LevelList l) ->
  sort_levels_desc r h = Done tt (update h r (LevelList (by_price_desc l))).
Proof.
  intros H. unfold sort_levels_desc. run_with levels_at.
  now apply store_at with (LevelList l).
Qed.

(** The scan of lines 69-79 on the heap. *)
Lemma scan_stage (h : heap) (df_low : ref) (Low : list float) :
  nth_error h df_low = Some (FloatList Low) ->
  let levels := length h in
  let h1 := h ++ [FloatList []] in
  match B64.levels Low with
  | Ok candidates =>
      exists h2,
        (if (5 <? length Low)%nat
         then for_scan df_low levels (range 2 (length Low - 2))
         else ret tt) h1 = Done tt h2 /\
        length h2 = S (length h) /\
        nth_error h2 levels = Some (FloatList candidates) /\
        forall r, (r < length h)%nat -> nth_error h2 r = nth_error h r
  | Raise e =>
      (if (5 <? length Low)%nat
       then for_scan df_low levels (range 2 (length Low - 2))
       else ret tt) h1 = Fault e
  end.
Proof.
  intros Hdf levels h1.
  pose proof (@bound_in_heap _ _ _ Hdf) as Hb.
  assert (Hlen1 : length h1 = S (length h))
    by (unfold h1; rewrite length_app; cbn; lia).
  assert (Hlv1 : nth_error h1 levels = Some (FloatList []))
    by apply nth_error_alloc_new.
  assert (Hdf1 : nth_error h1 df_low = Some (FloatList Low))
    by (unfold h1; now rewrite nth_error_alloc_old).
  unfold B64.levels. destruct (5 <? length Low)%nat.
  - pose proof (@for_scan_spec df_low levels Low
                  (range 2 (length Low - 2)) ltac:(unfold levels; lia)
                  [] h1 Hdf1 Hlv1) as Hscan.
    destruct (scan Low (range 2 (length Low - 2)) []) as [out|e];
      [|exact Hscan].
    destruct Hscan as (h2 & Hrun & Hlen & Hout & Hframe).
    exists h2. split; [exact Hrun|]. split; [lia|]. split; [exact Hout|].
    intros r Hr. rewrite Hframe by (unfold levels; lia).
    unfold h1. now apply nth_error_alloc_old.
  - exists h1. split; [reflexivity|]. split; [exact Hlen1|].
    split; [exact Hlv1|]. intros r Hr. unfold h1.
    now apply nth_error_alloc_old.
Qed.

(** The clustering of lines 82-96 on the heap. *)
Lemma cluster_stage (h : heap) (levels : ref) (candidates : list float) :
  nth_error h levels = Some (FloatList candidates) ->
  let consolidated := length h in
  let h1 := h ++ [LevelList []] in
  exists h2,
    match candidates with
    | [] => ret tt
    | _ => bindS (sort_floats levels)
             (fun _ => Store.while_levels (length candidates) levels
                         consolidated)
    end h1 = Done tt h2 /\
    (length h1 <= length h2)%nat /\
    nth_error h2 consolidated
    = Some (LevelList (B64.consolidated candidates)) /\
    forall r, (r < length h)%nat -> r <> levels ->
              nth_error h2 r = nth_error h r.
Proof.
  intros Hlv consolidated h1.
  pose proof (@bound_in_heap _ _ _ Hlv) as Hb.
  assert (Hlv1 : nth_error h1 levels = Some (FloatList candidates))
    by (unfold h1; now rewrite nth_error_alloc_old).
  assert (Hc1 : nth_error h1 consolidated = Some (LevelList []))
    by apply nth_error_alloc_new.
  destruct candidates as [|c cs].
  - exists h1. split; [reflexivity|]. split; [lia|]. split; [exact Hc1|].
    intros r Hr _. unfold h1. now apply nth_error_alloc_old.
  - erewrite bindS_done by (apply sort_floats_at; exact Hlv1).
    set (h1' := update h1 levels (FloatList (sort ltb (c :: cs)))).
    assert (Hlen1 : length h1 = S (length h))
      by (unfold h1; rewrite length_app; cbn; lia).
    destruct (@while_levels_spec (length (c :: cs)) (sort ltb (c :: cs)) []
                h1' levels consolidated)
      as (h2 & Hrun & Hlen & Hcons & Hframe).
    { apply Nat.eq_le_incl, Permutation_length, sort_perm. }
    { unfold consolidated. lia. }
    { unfold h1'. apply nth_error_update_same. lia. }
    { unfold h1'. rewrite nth_error_update_other
        by (unfold consolidated; lia). exact Hc1. }
    exists h2. split; [exact Hrun|].
    split; [unfold h1' in Hlen; rewrite length_update in Hlen; exact Hlen|].
    split; [exact Hcons|].
    intros r Hr Hne. rewrite Hframe.
    + unfold h1'. rewrite nth_error_update_other by congruence.
      unfold h1. now apply nth_error_alloc_old.
    + unfold h1'. rewrite length_update. lia.
    + exact Hne.
    + unfold consolidated. lia.
Qed.

(** The run on the heap computes what the two stages compute as
    functions, whatever else the heap holds, and leaves every object that
    was there as it was. *)
Lemma analysis_spec (h : heap) (df_low : ref) (Low : list float)
  (cp yh : float) :
  nth_error h df_low = Some (FloatList Low) ->
  match B64.strategic_levels Low cp yh with
  | Ok r => exists h', analysis df_low cp yh h = Done r h' /\ unchanged h h'
  | Raise e => analysis df_low cp yh h = Fault e
  end.
Proof.
  intros Hdf. unfold analysis, B64.strategic_levels, detect_levels.
  run_with floats_at. erewrite bindS_done by apply alloc_at.
  pose proof (@scan_stage h df_low Low Hdf) as Hscan. cbv zeta in Hscan.
  destruct (B64.levels Low) as [candidates|e]; cbn [bind];
    [|now erewrite bindS_fault by exact Hscan].
  destruct Hscan as (h2 & Hrun2 & Hlen2 & Hlv2 & Hframe2).
  erewrite bindS_done by exact Hrun2.
  erewrite bindS_done by apply alloc_at.
  destruct (@cluster_stage h2 (length h) candidates Hlv2) as (h4 & Hrun4 & Hlen4 & Hcons4 & Hframe4).
  assert (Hlv3 : nth_error (h2 ++ [LevelList []]) (length h)
                 = Some (FloatList candidates))
    by (rewrite nth_error_alloc_old by lia; exact Hlv2).
  erewrite bindS_done by (apply floats_at; exact Hlv3).
  erewrite bindS_done by exact Hrun4.
  rewrite length_app in Hlen4. cbn [length] in Hlen4.
  erewrite bindS_done by (apply levels_at; exact Hcons4).
  erewrite bindS_done by apply alloc_at.
  set (lv := B64.consolidated candidates) in *.
  set (h5 := h4 ++ [LevelList (filter (fun l => fst l <? cp) lv)]).
  assert (Hw5 : nth_error h5 (length h4) = Some (LevelList (waiting lv cp)))
    by apply nth_error_alloc_new.
  erewrite bindS_done by (apply sort_levels_desc_at; exact Hw5).
  set (h6 := update h5 (length h4)
               (LevelList (by_price_desc (waiting lv cp)))).
  assert (Hlen5 : length h5 = S (length h4))
    by (unfold h5; rewrite length_app; cbn; lia).
  assert (Hlen6 : length h6 = S (length h4))
    by (unfold h6; rewrite length_update; exact Hlen5).
  assert (Hw6 : nth_error h6 (length h4)
                = Some (LevelList (by_price_desc (waiting lv cp))))
    by (unfold h6; apply nth_error_update_same; lia).
  erewrite bindS_done by (apply levels_at; exact Hw6).
  erewrite bindS_done by apply alloc_at.
  fold (top_3 lv cp).
  set (h7 := h6 ++ [LevelList (top_3 lv cp)]).
  erewrite bindS_done by apply alloc_at.
  set (h8 := h7 ++ [PlanList []]).
  assert (Hlen7 : length h7 = S (S (length h4)))
    by (unfold h7; rewrite length_app; cbn; lia).
  assert (Ht8 : nth_error h8 (length h6) = Some (LevelList (top_3 lv cp))).
  { unfold h8. rewrite nth_error_alloc_old by lia.
    apply nth_error_alloc_new. }
  assert (Hsp8 : nth_error h8 (length h7) = Some (PlanList []))
    by apply nth_error_alloc_new.
  erewrite bindS_done by (apply levels_at; exact Ht8).
  assert (Hold : forall r, (r < length h)%nat ->
                           nth_error h8 r = nth_error h r).
  { intros r Hr. unfold h8, h7.
    rewrite !nth_error_alloc_old by heap_lia. unfold h6.
    rewrite nth_error_update_other by lia. unfold h5.
    rewrite nth_error_alloc_old by lia.
    rewrite Hframe4 by lia. now apply Hframe2. }
  unfold build_plan.
  destruct (top_3 lv cp) as [|l0 top] eqn:Etop.
  - rewrite bindS_ret.
    erewrite bindS_done by (apply plan_at; exact Hsp8).
    exists h8. split; [reflexivity|].
    intros r o Hr. rewrite Hold; [exact Hr|].
    now apply bound_in_heap with o.
  - pose proof (@for_plan_spec cp yh (total_strength (l0 :: top))
                  (length h7) (enumerate (l0 :: top)) [] h8 Hsp8) as Hplan.
    destruct (plan_loop cp yh (total_strength (l0 :: top))
                (enumerate (l0 :: top)) []) as [plan|e]; cbn [bind].
    + destruct Hplan as (h9 & Hrun9 & Hlen9 & Hsp9 & Hframe9).
      erewrite bindS_done;
        [|erewrite bindS_done by exact Hrun9; reflexivity].
      erewrite bindS_done by (apply plan_at; exact Hsp9).
      exists h9. split; [reflexivity|].
      intros r o Hr. pose proof (@bound_in_heap _ _ _ Hr) as Hb.
      rewrite Hframe9 by heap_lia. rewrite Hold by exact Hb. exact Hr.
    + erewrite bindS_fault; [reflexivity|].
      now erewrite bindS_fault by exact Hplan.
Qed.

(** C10.  Take a heap holding the column of lows, of fewer than [2^53]
    values, and anything else.  Lines 68-124 run on it return the status
    and the plan the two stages compute as functions of the lows, the
    current price and the year high; no object that was in the heap is
    changed; and a second run, in the heap the first one left, lists it
    created included, returns the same status and the same plan. *)
Theorem analysis_deterministic (h : heap) (df_low : ref)
  (Low : list float) (cp yh : float) :
  nth_error h df_low = Some (FloatList Low) ->
  (Z.of_nat (length Low) < 2 ^ 53)%Z ->
  exists r h1 h2,
    B64.strategic_levels Low cp yh = Ok r /\
    analysis df_low cp yh h = Done r h1 /\ unchanged h h1 /\
    analysis df_low cp yh h1 = Done r h2 /\ unchanged h1 h2.
Proof.
  intros Hdf Hbig.
  destruct (@B64Handler.strategic_levels_returns Low cp yh Hbig)
    as (st & plan & Hr).
  pose proof (@analysis_spec h df_low Low cp yh Hdf) as H1. rewrite Hr in H1.
  destruct H1 as (h1 & Hrun1 & Hkeep1).
  pose proof (@analysis_spec h1 df_low Low cp yh (Hkeep1 _ _ Hdf)) as H2. rewrite Hr in H2.
  destruct H2 as (h2 & Hrun2 & Hkeep2).
  exists (st, plan), h1, h2. auto.
Qed.

Lemma analysis_deterministic_witness :
  exists r h1 h2,
    B64.strategic_levels [10; 9; 8; 9; 10; 9; 5; 9; 10] 9 12 = Ok r /\
    analysis 1%nat 9 12
      [PlanList uneven_plan; FloatList [10; 9; 8; 9; 10; 9; 5; 9; 10]]
    = Done r h1 /\
    unchanged
      [PlanList uneven_plan; FloatList [10; 9; 8; 9; 10; 9; 5; 9; 10]] h1 /\
    analysis 1%nat 9 12 h1 = Done r h2 /\ unchanged h1 h2.
Proof.
  apply (@analysis_deterministic
           [PlanList uneven_plan; FloatList [10; 9; 8; 9; 10; 9; 5; 9; 10]]
           1%nat [10; 9; 8; 9; 10; 9; 5; 9; 10] 9 12).
  - reflexivity.
  - vm_compute. reflexivity.
Defined.
End StoreFacts.
